(** * Signaling hub and multi-peer client of the WebRTC monorepo

    A shallow embedding of
    - [apps/signaling/src/index.ts]: the Socket.IO signaling server (the
      "Hub"): the in-memory room registry [roomMembers] and the handlers
      of [join-room], [offer], [answer], [ice-candidate], [leave-room]
      and [disconnect];
    - the [MultiPeerWebRTCClient] class: [createOffer], [handleAnswer],
      [removePeerConnection], [toggleCamera], [toggleMicrophone] and the
      [user-left], [answer] and [ice-candidate] socket listeners.

    JavaScript [Map]s are insertion ordered, and the client looks sessions
    up by position ([Array.from(map.values()).find]), so maps are modelled
    as association lists that keep the insertion order ([JsMap]).
    JavaScript [Set]s that are never iterated are modelled as [gset]s. *)

From stdpp Require Import base decidable option list strings gmap.

Local Open Scope string_scope.
Local Open Scope nat_scope.
Local Open Scope list_scope.
#[local] Set Warnings "-clear-no-such-hyp".

(** * Part I: the program *)

(** ** Insertion-ordered maps: the JavaScript [Map] *)

Module JsMap.

Abbreviation t V := (list (string * V)) (only parsing).

Definition empty {V} : t V := [].

(** [Map.prototype.get]: [None] stands for [undefined]. *)
Fixpoint get {V} (k : string) (m : t V) : option V :=
  match m with
  | [] => None
  | (k', v) :: m' => if decide (k' = k) then Some v else get k m'
  end.

(** [Map.prototype.has] *)
Definition has {V} (k : string) (m : t V) : bool :=
  match get k m with Some _ => true | None => false end.

(** [Map.prototype.set]: an existing key keeps its position, a new key
    goes to the end. *)
Fixpoint set {V} (k : string) (v : V) (m : t V) : t V :=
  match m with
  | [] => [(k, v)]
  | (k', v') :: m' =>
      if decide (k' = k) then (k, v) :: m' else (k', v') :: set k v m'
  end.

(** [Map.prototype.delete] *)
Fixpoint delete {V} (k : string) (m : t V) : t V :=
  match m with
  | [] => []
  | (k', v') :: m' =>
      if decide (k' = k) then delete k m' else (k', v') :: delete k m'
  end.

(** [Map.prototype.size] *)
Definition size {V} (m : t V) : nat := List.length m.

(** [Array.from(m.keys())], [Array.from(m.values())] *)
Definition keys {V} (m : t V) : list string := m.*1.
Definition values {V} (m : t V) : list V := m.*2.

(** Every map built from [empty] by [set] and [delete] has pairwise
    distinct keys. *)
Definition wf {V} (m : t V) : Prop := NoDup (keys m).

End JsMap.

(** ** Wire-level WebRTC values

    The interfaces declared at the top of [index.ts]; the client uses the
    browser's types of the same names.  A field that may be missing or
    [null] is an [option]. *)

Inductive RTCSdpType := sdp_offer | sdp_answer | sdp_pranswer | sdp_rollback.

Record RTCSessionDescriptionInit := {
  sdp_type : RTCSdpType;
  sdp : option string;
}.

Record RTCIceCandidateInit := {
  candidate : option string;
  sdpMLineIndex : option nat;
  sdpMid : option string;
  usernameFragment : option string;
}.

(** ** The signaling hub: [apps/signaling/src/index.ts] *)

Module Hub.

(** The value type of the inner maps of [roomMembers]. *)
Record Member := {
  userId : string;
  socketId : string;
  peerId : string;
}.

(** Events the server emits to clients. *)
Inductive ServerEvent :=
| ev_error (message : string)
| ev_user_joined (userId peerId socketId : string)
| ev_room_joined (roomId : string) (users : list Member)
| ev_user_left (userId socketId : string)
| ev_offer (offer : RTCSessionDescriptionInit) (from : string)
    (targetPeerId : option string)
| ev_answer (answer : RTCSessionDescriptionInit) (from : string)
    (targetPeerId : option string)
| ev_ice_candidate (candidate : RTCIceCandidateInit) (from : string)
    (targetPeerId : option string).

(** One call of an emitter.
    - [Emit sid ev] is [socket.emit(ev)] on the socket [sid];
    - [Broadcast room sender recipients ev] is
      [socket.to(room).emit(ev)] on the socket [sender]; [recipients] are
      the sockets Socket.IO delivers it to, fixed when the call is made. *)
Inductive Delivery :=
| Emit (to : string) (ev : ServerEvent)
| Broadcast (room sender : string) (recipients : gset string)
    (ev : ServerEvent).

(** The state of the server process: the registry [roomMembers] of
    line 30, and the rooms of the Socket.IO adapter (room name to the set
    of socket ids that joined it), which [socket.join], [socket.leave],
    [socket.to] and [io.to] work on.  The adapter holds the rooms the
    handlers join and, for every connected socket, the room Socket.IO
    opens under the socket's own id.  The Prisma calls are best effort,
    their failures are swallowed and nothing read from them reaches the
    registry or an emitter of the handlers below; they and the logger are
    left out, but for the point where a handler waits for them.
    A handler updates the registry and the adapter before its first
    [await].  [join-room] emits after its two [await]s, from the registry
    and the adapter as they are then: it is two steps of the server,
    [on_join_room] and [on_join_room_resumes], and other handlers run
    between them.  [leave-room] awaits one Prisma call before its
    broadcast; its step is kept whole, the broadcast being the one made
    when no other handler ran meanwhile. *)
Record State := {
  roomMembers : JsMap.t (JsMap.t Member);
  rooms : gmap string (gset string);
}.

Definition init : State := {| roomMembers := JsMap.empty; rooms := ∅ |}.

(** [socket.join(room)] *)
Definition adapter_join (sid room : string)
    (a : gmap string (gset string)) : gmap string (gset string) :=
  <[room := {[sid]} ∪ default ∅ (a !! room)]> a.

(** The set a socket is taken out of; an emptied room is dropped, as the
    adapter does. *)
Definition without (sid : string) (g : gset string) : option (gset string) :=
  let g' := g ∖ {[sid]} in
  if decide (g' = ∅) then None else Some g'.

(** [socket.leave(room)] *)
Definition adapter_leave (sid room : string)
    (a : gmap string (gset string)) : gmap string (gset string) :=
  match a !! room with
  | None => a
  | Some g =>
      match without sid g with
      | None => delete room a
      | Some g' => <[room := g']> a
      end
  end.

(** What Socket.IO does to a closing socket before it fires
    [disconnect]: the socket leaves every room. *)
Definition adapter_leave_all (sid : string)
    (a : gmap string (gset string)) : gmap string (gset string) :=
  omap (without sid) a.

(** The sockets [socket.to(room).emit] reaches: the adapter's room of
    that name, but for the sender.  The room named by a socket's id holds
    that socket from its connection on. *)
Definition recipients (a : gmap string (gset string))
    (room sender : string) : gset string :=
  default ∅ (a !! room) ∖ {[sender]}.

(** [io.on('connection')], lines 66-67: Socket.IO has put the socket in
    the room of its own id when the handler is called; the handler itself
    logs and registers the listeners. *)
Definition on_connection (sid : string) (st : State) : State * list Delivery :=
  ({| roomMembers := roomMembers st; rooms := adapter_join sid sid (rooms st) |},
   []).

(** [socket.on('join-room')], lines 70-101: the handler up to its first
    [await].  [uuid] is the value [uuidv4()] returns in this call.  A full
    room is answered at once; otherwise nothing is emitted yet. *)
Definition on_join_room (sid roomId userId uuid : string) (st : State)
    : State * list Delivery :=
  (* Initialize room if it doesn't exist in memory *)
  let registry :=
    if JsMap.has roomId (roomMembers st) then roomMembers st
    else JsMap.set roomId JsMap.empty (roomMembers st) in
  let roomUsers := default JsMap.empty (JsMap.get roomId registry) in
  (* Check room capacity (max 10 users) *)
  if decide (10 ≤ JsMap.size roomUsers) then
    ({| roomMembers := registry; rooms := rooms st |},
     [Emit sid (ev_error "Room is full")])
  else
    let peerId := uuid in
    let rooms' := adapter_join sid roomId (rooms st) in
    (* Store user in memory: the inner map is updated in place *)
    let roomUsers' :=
      JsMap.set sid
        {| userId := userId; socketId := sid; peerId := peerId |}
        roomUsers in
    let registry' := JsMap.set roomId roomUsers' registry in
    ({| roomMembers := registry'; rooms := rooms' |}, []).

(** The map object [roomUsers] that [join-room] took at line 82, read
    when the handler resumes.  While the registry holds that object for
    the room ([attached]), it is the registry's entry as it is now.  The
    registry lets go of a room's map only when the map is empty (lines
    247 and 296), and every write to a map follows the [get] of line 82
    without an [await] between, so a map the registry let go of stays
    empty. *)
Definition captured_roomUsers (roomId : string) (attached : bool)
    (st : State) : JsMap.t Member :=
  if attached
  then default JsMap.empty (JsMap.get roomId (roomMembers st))
  else JsMap.empty.

(** [socket.on('join-room')], lines 145-164: the handler after its two
    [await]s (lines 106 and 119).  [userId] and [peerId] are the
    handler's constants; [st] is the state of the server when it resumes. *)
Definition on_join_room_resumes (sid roomId userId peerId : string)
    (attached : bool) (st : State) : State * list Delivery :=
  let roomUsers := captured_roomUsers roomId attached st in
  (* Get all other users in the room (from memory) *)
  let otherUsers :=
    filter (λ u, socketId u ≠ sid) (JsMap.values roomUsers) in
  (st,
   [Broadcast roomId sid (recipients (rooms st) roomId sid)
      (ev_user_joined userId peerId sid);
    Emit sid (ev_room_joined roomId otherUsers)]).

(** [socket.on('offer')], [socket.on('answer')] and
    [socket.on('ice-candidate')], lines 174-198. *)
Definition on_offer (sid roomId : string) (offer : RTCSessionDescriptionInit)
    (targetPeerId : option string) (st : State) : State * list Delivery :=
  (st, [Broadcast roomId sid (recipients (rooms st) roomId sid)
          (ev_offer offer sid targetPeerId)]).

Definition on_answer (sid roomId : string) (answer : RTCSessionDescriptionInit)
    (targetPeerId : option string) (st : State) : State * list Delivery :=
  (st, [Broadcast roomId sid (recipients (rooms st) roomId sid)
          (ev_answer answer sid targetPeerId)]).

Definition on_ice_candidate (sid roomId : string)
    (candidate : RTCIceCandidateInit)
    (targetPeerId : option string) (st : State) : State * list Delivery :=
  (st, [Broadcast roomId sid (recipients (rooms st) roomId sid)
          (ev_ice_candidate candidate sid targetPeerId)]).

(** [socket.on('leave-room')], lines 233-277. *)
Definition on_leave_room (sid roomId userId : string) (st : State)
    : State * list Delivery :=
  let rooms' := adapter_leave sid roomId (rooms st) in
  (* Remove from memory *)
  let registry' :=
    match JsMap.get roomId (roomMembers st) with
    | Some roomUsers =>
        let roomUsers' := JsMap.delete sid roomUsers in
        let registry1 := JsMap.set roomId roomUsers' (roomMembers st) in
        (* Clean up empty rooms *)
        if decide (JsMap.size roomUsers' = 0)
        then JsMap.delete roomId registry1
        else registry1
    | None => roomMembers st
    end in
  ({| roomMembers := registry'; rooms := rooms' |},
   [Broadcast roomId sid (recipients rooms' roomId sid)
      (ev_user_left userId sid)]).

(** [user?.userId || 'unknown']: the empty string is falsy. *)
Definition userId_or_unknown (user : option Member) : string :=
  match user with
  | Some u => if decide (userId u = "") then "unknown" else userId u
  | None => "unknown"
  end.

(** One turn of the loop of lines 283-301 on the entry [(roomId, users)];
    [a] is the adapter, the registry and the deliveries made so far are
    threaded through. *)
Definition disconnect_room (sid : string) (a : gmap string (gset string))
    (acc : JsMap.t (JsMap.t Member) * list Delivery)
    (entry : string * JsMap.t Member)
    : JsMap.t (JsMap.t Member) * list Delivery :=
  let '(registry, out) := acc in
  let '(roomId, users) := entry in
  if JsMap.has sid users then
    let user := JsMap.get sid users in
    let users' := JsMap.delete sid users in
    let registry1 := JsMap.set roomId users' registry in
    (* Notify others in the room *)
    let out' :=
      out ++ [Broadcast roomId sid (recipients a roomId sid)
                (ev_user_left (userId_or_unknown user) sid)] in
    (* Clean up empty rooms *)
    if decide (JsMap.size users' = 0)
    then (JsMap.delete roomId registry1, out')
    else (registry1, out')
  else (registry, out).

(** [socket.on('disconnect')], lines 280-323.  The loop visits the
    entries of [roomMembers] in insertion order; a turn changes or deletes
    only the entry it is visiting, so the entries visited are those the
    map had when the loop started. *)
Definition on_disconnect (sid : string) (st : State) : State * list Delivery :=
  let rooms' := adapter_leave_all sid (rooms st) in
  let '(registry', out) :=
    foldl (disconnect_room sid rooms') (roomMembers st, []) (roomMembers st) in
  ({| roomMembers := registry'; rooms := rooms' |}, out).

(** What the server reacts to on a socket: the connection Socket.IO
    accepted, a message of the client, the end of the [await]s of a
    [join-room] that was not turned away, and the socket's closing. *)
Inductive ClientEvent :=
| connection
| join_room (roomId userId : string) (uuid : string)
| join_room_resumes (roomId userId peerId : string) (attached : bool)
| offer (roomId : string) (offer : RTCSessionDescriptionInit)
    (targetPeerId : option string)
| answer (roomId : string) (answer : RTCSessionDescriptionInit)
    (targetPeerId : option string)
| ice_candidate (roomId : string) (candidate : RTCIceCandidateInit)
    (targetPeerId : option string)
| leave_room (roomId userId : string)
| disconnect.

(** The handler of the event [ev] on the socket [sid]. *)
Definition handle (sid : string) (ev : ClientEvent) (st : State)
    : State * list Delivery :=
  match ev with
  | connection => on_connection sid st
  | join_room roomId userId uuid => on_join_room sid roomId userId uuid st
  | join_room_resumes roomId userId peerId attached =>
      on_join_room_resumes sid roomId userId peerId attached st
  | offer roomId o target => on_offer sid roomId o target st
  | answer roomId a target => on_answer sid roomId a target st
  | ice_candidate roomId c target => on_ice_candidate sid roomId c target st
  | leave_room roomId userId => on_leave_room sid roomId userId st
  | disconnect => on_disconnect sid st
  end.

(** The server handles the events one after the other, on one thread;
    the list gives the order in which the handlers' steps are taken. *)
Fixpoint run (evs : list (string * ClientEvent)) (st : State)
    : State * list Delivery :=
  match evs with
  | [] => (st, [])
  | (sid, ev) :: evs' =>
      let '(st1, out1) := handle sid ev st in
      let '(st2, out2) := run evs' st1 in
      (st2, out1 ++ out2)
  end.

(** *** Invariants of the server's state *)

(** A room of the registry: distinct members, at least one, at most ten. *)
Definition room_ok (entry : string * JsMap.t Member) : Prop :=
  JsMap.wf entry.2 ∧ 1 ≤ JsMap.size entry.2 ≤ 10.

Definition registry_ok (m : JsMap.t (JsMap.t Member)) : Prop :=
  JsMap.wf m ∧ Forall room_ok m.

(** The socket ids of the members the registry has for a room. *)
Definition members_of (roomId : string) (st : State) : gset string :=
  list_to_set
    (JsMap.keys (default JsMap.empty (JsMap.get roomId (roomMembers st)))).

(** The adapter's room holds the sockets of the registry's room, and no
    other socket but the one the room is named after. *)
Definition adapter_ok (st : State) : Prop :=
  ∀ roomId,
    members_of roomId st ⊆ default ∅ (rooms st !! roomId) ∧
    default ∅ (rooms st !! roomId) ⊆ members_of roomId st ∪ {[roomId]}.

Definition state_ok (st : State) : Prop :=
  registry_ok (roomMembers st) ∧ adapter_ok st.

(** What the loop of [disconnect] leaves of one entry, and the delivery
    it makes for an entry that holds the socket. *)
Definition swept (sid : string) (entry : string * JsMap.t Member)
    : option (string * JsMap.t Member) :=
  if JsMap.has sid entry.2 then
    if decide (JsMap.size (JsMap.delete sid entry.2) = 0) then None
    else Some (entry.1, JsMap.delete sid entry.2)
  else Some entry.

Definition user_left_notice (sid : string) (a : gmap string (gset string))
    (entry : string * JsMap.t Member) : Delivery :=
  Broadcast entry.1 sid (recipients a entry.1 sid)
    (ev_user_left (userId_or_unknown (JsMap.get sid entry.2)) sid).

(** Whether a delivery is a [user-left] broadcast to the room. *)
Definition is_user_left_to (roomId : string) (d : Delivery) : bool :=
  match d with
  | Broadcast room _ _ (ev_user_left _ _) => bool_decide (room = roomId)
  | _ => false
  end.

(** *** Runs used as examples *)

(** A socket connects, joins a room, and its [join-room] resumes before
    the next event. *)
Definition joins (sid roomId userId peerId : string)
    : list (string * ClientEvent) :=
  [(sid, connection); (sid, join_room roomId userId peerId);
   (sid, join_room_resumes roomId userId peerId true)].

Definition ten_joins : list (string * ClientEvent) :=
  joins "s0" "R2" "u0" "p0" ++ joins "s1" "R2" "u1" "p1" ++
  joins "s2" "R2" "u2" "p2" ++ joins "s3" "R2" "u3" "p3" ++
  joins "s4" "R2" "u4" "p4" ++ joins "s5" "R2" "u5" "p5" ++
  joins "s6" "R2" "u6" "p6" ++ joins "s7" "R2" "u7" "p7" ++
  joins "s8" "R2" "u8" "p8" ++ joins "s9" "R2" "u9" "p9" ++
  [("s10", connection)].

Definition full_room : State := (run ten_joins init).1.

Definition alice_bob_carol : list (string * ClientEvent) :=
  joins "a" "R1" "alice" "pa" ++ joins "b" "R1" "bob" "pb" ++
  joins "c" "R1" "carol" "pc" ++
  [("b", join_room "R3" "bob" "pb3");
   ("b", join_room_resumes "R3" "bob" "pb3" true)].

Definition three_in_R1 : State := (run alice_bob_carol init).1.

Definition some_offer : RTCSessionDescriptionInit :=
  {| sdp_type := sdp_offer; sdp := Some "v=0" |}.

Definition some_answer : RTCSessionDescriptionInit :=
  {| sdp_type := sdp_answer; sdp := Some "v=0" |}.

Definition some_candidate : RTCIceCandidateInit :=
  {| candidate := Some "candidate:1 1 udp 1 192.0.2.1 9 typ host";
     sdpMLineIndex := Some 0; sdpMid := Some "0"; usernameFragment := None |}.

(** [three_in_R1] after the socket [a] left [R1] once. *)
Definition after_first_leave : State :=
  (on_leave_room "a" "R1" "alice" three_in_R1).1.

End Hub.

(** ** The multi-peer client: class [MultiPeerWebRTCClient] *)

Module Client.

(** *** The browser's objects *)

Inductive RTCSignalingState :=
| stable
| have_local_offer
| have_remote_offer
| have_local_pranswer
| have_remote_pranswer
| signaling_closed.

Inductive RTCIceConnectionState :=
| ice_new
| ice_checking
| ice_connected
| ice_completed
| ice_failed
| ice_disconnected
| ice_closed.

#[export] Instance RTCSignalingState_eq_dec : EqDecision RTCSignalingState.
Proof. solve_decision. Defined.

#[export] Instance RTCIceConnectionState_eq_dec :
  EqDecision RTCIceConnectionState.
Proof. solve_decision. Defined.

(** The string a template literal prints for a signaling state. *)
Definition signalingState_string (s : RTCSignalingState) : string :=
  match s with
  | stable => "stable"
  | have_local_offer => "have-local-offer"
  | have_remote_offer => "have-remote-offer"
  | have_local_pranswer => "have-local-pranswer"
  | have_remote_pranswer => "have-remote-pranswer"
  | signaling_closed => "closed"
  end.

Inductive TrackKind := audio | video.

#[export] Instance TrackKind_eq_dec : EqDecision TrackKind.
Proof. solve_decision. Defined.

(** A [MediaStreamTrack]; [ended] is [readyState === 'ended'], what
    [track.stop()] leaves. *)
Record MediaStreamTrack := {
  kind : TrackKind;
  enabled : bool;
  ended : bool;
}.

(** Tracks are objects shared between the local stream and the senders of
    every connection: both hold references into one heap of tracks. *)
Definition TrackRef := nat.

(** A [MediaStream], as [getTracks()] lists it. *)
Definition MediaStream := list TrackRef.

(** An [RTCRtpSender]; [track] may be [null]. *)
Record RTCRtpSender := {
  track : option TrackRef;
}.

(** The part of an [RTCPeerConnection] the client reads. *)
Record RTCPeerConnection := {
  signalingState : RTCSignalingState;
  iceConnectionState : RTCIceConnectionState;
  localDescription : option RTCSessionDescriptionInit;
  remoteDescription : option RTCSessionDescriptionInit;
  senders : list RTCRtpSender;
}.

(** The asynchronous methods of a connection are the platform's.  A
    promise either resolves ([inr]) or rejects with an error whose
    [message] is given ([inl]). *)
Class ConnectionEngine := {
  engine_createOffer :
    RTCPeerConnection → string + RTCSessionDescriptionInit;
  engine_setLocalDescription :
    RTCPeerConnection → RTCSessionDescriptionInit →
    string + RTCPeerConnection;
  engine_setRemoteDescription :
    RTCPeerConnection → RTCSessionDescriptionInit →
    string + RTCPeerConnection;
  engine_addIceCandidate :
    RTCPeerConnection → RTCIceCandidateInit → string + RTCPeerConnection;
}.

(** *** The client's state *)

(** [interface RemotePeer], lines 4-11. *)
Record RemotePeer := {
  userId : string;
  peerId : string;
  socketId : string;
  peerConnection : RTCPeerConnection;
  stream : option MediaStream;
  isInitiator : bool;
}.

(** The fields of the class that the methods below use, and the heap of
    tracks.  [socket] tells whether [this.socket] is set; [own_userId] is
    [this.userId]. *)
Record State := {
  socket : bool;
  localStream : option MediaStream;
  remotePeers : JsMap.t RemotePeer;
  roomId : string;
  own_userId : string;
  isNegotiating : gset string;
  tracks : gmap TrackRef MediaStreamTrack;
}.

(** *** What a call does, in order *)

Inductive ConsoleLevel := console_log | console_warn | console_error.

Inductive EngineCall :=
| call_createOffer
| call_setLocalDescription (description : RTCSessionDescriptionInit)
| call_setRemoteDescription (description : RTCSessionDescriptionInit)
| call_addIceCandidate (candidate : RTCIceCandidateInit)
| call_close.

(** The messages [this.socket.emit] sends the hub. *)
Inductive SocketMessage :=
| emit_offer (roomId : string) (offer : RTCSessionDescriptionInit)
    (targetPeerId : option string)
| emit_answer (roomId : string) (answer : RTCSessionDescriptionInit)
    (targetPeerId : option string)
| emit_ice_candidate (roomId : string) (candidate : RTCIceCandidateInit)
    (targetPeerId : option string).

(** One step of a call.  [Engine sid call] is a method called on the
    connection of the session of the socket [sid]; [NegotiatingAdd] and
    [NegotiatingDelete] are the updates of [this.isNegotiating];
    [OnError] and [OnUserLeft] are the optional calls
    [this.onErrorCallback?.(message)] and
    [this.onUserLeftCallback?.(userId)]. *)
Inductive Effect :=
| Console (level : ConsoleLevel) (args : list string)
| SocketEmit (message : SocketMessage)
| Engine (socketId : string) (call : EngineCall)
| NegotiatingAdd (socketId : string)
| NegotiatingDelete (socketId : string)
| OnError (message : string)
| OnUserLeft (userId : string).

(** How a call ends: it returns, or it throws (a rejected promise, for an
    [async] method) an error with the given message. *)
Inductive Completion (A : Type) :=
| Normal (a : A)
| Throw (message : string).
Arguments Normal {A} a.
Arguments Throw {A} message.

(** A method: from the state before to how it ends, the state after and
    the steps made.  A call runs to its end in one go: an awaited promise
    is settled on the spot, by the engine, and no other listener runs in
    between.  What another call would see meanwhile is what the state
    quantified over in the properties below stands for, such as a socket
    id found in [isNegotiating]. *)
Definition M (A : Type) : Type := State → Completion A * State * list Effect.

Definition ret {A} (a : A) : M A := λ c, (Normal a, c, []).

Definition bind {A B} (m : M A) (k : A → M B) : M B :=
  λ c,
    match m c with
    | (Normal a, c1, t1) =>
        let '(r, c2, t2) := k a c1 in (r, c2, t1 ++ t2)
    | (Throw e, c1, t1) => (Throw e, c1, t1)
    end.

(** [try { m } catch (error) { handler(error) }] *)
Definition try_catch {A} (m : M A) (handler : string → M A) : M A :=
  λ c,
    match m c with
    | (Normal a, c1, t1) => (Normal a, c1, t1)
    | (Throw e, c1, t1) =>
        let '(r, c2, t2) := handler e c1 in (r, c2, t1 ++ t2)
    end.

(** [try { m } finally { final }] *)
Definition try_finally {A} (m : M A) (final : M unit) : M A :=
  λ c,
    let '(r, c1, t1) := m c in
    match final c1 with
    | (Normal _, c2, t2) => (r, c2, t1 ++ t2)
    | (Throw e, c2, t2) => (Throw e, c2, t1 ++ t2)
    end.

#[export] Instance M_ret : MRet M := @ret.
#[export] Instance M_bind : MBind M := λ A B k m, bind m k.

Definition get_state : M State := λ c, (Normal c, c, []).

Definition effect (e : Effect) : M unit := λ c, (Normal tt, c, [e]).

Definition console (level : ConsoleLevel) (args : list string) : M unit :=
  effect (Console level args).

(** [this.isNegotiating.add(sid)], [this.isNegotiating.delete(sid)] *)
Definition isNegotiating_add (sid : string) : M unit :=
  λ c,
    (Normal tt,
     {| socket := socket c; localStream := localStream c;
        remotePeers := remotePeers c; roomId := roomId c;
        own_userId := own_userId c;
        isNegotiating := {[sid]} ∪ isNegotiating c;
        tracks := tracks c |},
     [NegotiatingAdd sid]).

Definition isNegotiating_delete (sid : string) : M unit :=
  λ c,
    (Normal tt,
     {| socket := socket c; localStream := localStream c;
        remotePeers := remotePeers c; roomId := roomId c;
        own_userId := own_userId c;
        isNegotiating := isNegotiating c ∖ {[sid]};
        tracks := tracks c |},
     [NegotiatingDelete sid]).

Definition set_remotePeers (m : JsMap.t RemotePeer) (c : State) : State :=
  {| socket := socket c; localStream := localStream c;
     remotePeers := m; roomId := roomId c;
     own_userId := own_userId c;
     isNegotiating := isNegotiating c;
     tracks := tracks c |}.

Definition set_tracks (h : gmap TrackRef MediaStreamTrack) (c : State)
    : State :=
  {| socket := socket c; localStream := localStream c;
     remotePeers := remotePeers c; roomId := roomId c;
     own_userId := own_userId c;
     isNegotiating := isNegotiating c;
     tracks := h |}.

(** The connection of [peer] takes the state [pc]: the session stored
    under the socket id of [peer] is the object the methods are handed. *)
Definition with_peerConnection (pc : RTCPeerConnection) (p : RemotePeer)
    : RemotePeer :=
  {| userId := userId p; peerId := peerId p; socketId := socketId p;
     peerConnection := pc; stream := stream p;
     isInitiator := isInitiator p |}.

Definition store_peerConnection (sid : string) (pc : RTCPeerConnection)
    (c : State) : State :=
  set_remotePeers
    (map (λ kv : string * RemotePeer,
            if decide (kv.1 = sid) then (kv.1, with_peerConnection pc kv.2)
            else kv)
       (remotePeers c)) c.

(** An awaited method of the connection of [peer], in the state [pc]:
    the call is a step; a rejection is thrown, a resolution leaves the
    connection in its new state. *)
Definition await_engine (peer : RemotePeer) (call : EngineCall)
    (result : string + RTCPeerConnection) : M RTCPeerConnection :=
  λ c,
    match result with
    | inl e => (Throw e, c, [Engine (socketId peer) call])
    | inr pc' =>
        (Normal pc', store_peerConnection (socketId peer) pc' c,
         [Engine (socketId peer) call])
    end.

Definition await_createOffer `{ConnectionEngine} (peer : RemotePeer)
    (pc : RTCPeerConnection) : M RTCSessionDescriptionInit :=
  λ c,
    match engine_createOffer pc with
    | inl e => (Throw e, c, [Engine (socketId peer) call_createOffer])
    | inr o => (Normal o, c, [Engine (socketId peer) call_createOffer])
    end.

(** [s.includes(needle)] *)
Definition includes (needle s : string) : bool :=
  match String.index 0 needle s with Some _ => true | None => false end.

(** *** Negotiation *)

Section Negotiation.
Context `{ConnectionEngine}.

(** [createOffer], lines 329-363. *)
Definition createOffer (peer : RemotePeer) : M unit :=
  c ← get_state;
  if decide (socketId peer ∈ isNegotiating c) then
    console console_log ["Already negotiating with:"; userId peer]
  else
    try_finally
      (try_catch
         (isNegotiating_add (socketId peer);;
          (* Check connection state *)
          let pc := peerConnection peer in
          if decide (signalingState pc = stable ∧
                     iceConnectionState pc = ice_new) then
            (* Safe to create offer *)
            offer ← await_createOffer peer pc;
            await_engine peer (call_setLocalDescription offer)
              (engine_setLocalDescription pc offer);;
            c' ← get_state;
            if socket c' then
              effect (SocketEmit
                        (emit_offer (roomId c') offer (Some (peerId peer))));;
              console console_log ["📤 Sent offer to " +:+ userId peer]
            else mret tt
          else mret tt)
         (λ error,
            console console_error
              ["Error creating offer for " +:+ userId peer +:+ ":"; error]))
      (isNegotiating_delete (socketId peer)).

(** [handleAnswer], lines 409-428. *)
Definition handleAnswer (peer : RemotePeer)
    (answer : RTCSessionDescriptionInit) : M unit :=
  try_catch
    (let currentState := signalingState (peerConnection peer) in
     if decide (currentState = have_local_offer) then
       await_engine peer (call_setRemoteDescription answer)
         (engine_setRemoteDescription (peerConnection peer) answer);;
       console console_log
         ["✅ Set remote description from " +:+ userId peer]
     else
       console console_warn
         ["Cannot handle answer from " +:+ userId peer +:+
          ", signaling state: " +:+ signalingState_string currentState])
    (λ error,
       console console_error
         ["Error handling answer from " +:+ userId peer +:+ ":"; error];;
       (* Don't throw - log and continue *)
       if includes "stable" error then
         console console_log
           ["Connection already established with:"; userId peer]
       else
         effect (OnError ("Error handling answer: " +:+ error))).

(** The [answer] listener, lines 229-235. *)
Definition on_answer (answer : RTCSessionDescriptionInit) (from : string)
    : M unit :=
  console console_log ["📥 Received answer from:"; from];;
  c ← get_state;
  match JsMap.get from (remotePeers c) with
  | Some peer => handleAnswer peer answer
  | None => mret tt
  end.

(** The [ice-candidate] listener, lines 237-246; [candidate] is [None]
    when [data.candidate] is missing or [null]. *)
Definition on_ice_candidate (candidate : option RTCIceCandidateInit)
    (from : string) : M unit :=
  c ← get_state;
  match JsMap.get from (remotePeers c), candidate with
  | Some peer, Some candidate =>
      try_catch
        (await_engine peer (call_addIceCandidate candidate)
           (engine_addIceCandidate (peerConnection peer) candidate);;
         mret tt)
        (λ error, console console_warn ["Failed to add ICE candidate:"; error])
  | _, _ => mret tt
  end.

End Negotiation.

(** *** Leaving peers *)

(** [track.stop()] *)
Definition stop_track (r : TrackRef) : M unit :=
  λ c,
    (Normal tt,
     set_tracks
       (alter (λ t, {| kind := kind t; enabled := enabled t; ended := true |})
          r (tracks c)) c,
     []).

(** [list.forEach(f)] *)
Fixpoint forEach {A} (l : list A) (f : A → M unit) : M unit :=
  match l with
  | [] => mret tt
  | x :: l' => f x;; forEach l' f
  end.

(** [Array.prototype.find] *)
Definition find {A} (P : A → Prop) `{∀ x, Decision (P x)} (l : list A)
    : option A :=
  List.find (λ x, bool_decide (P x)) l.

(** [removePeerConnection], lines 451-461.  The connection closed is
    that of the session the same call takes out of the map. *)
Definition removePeerConnection (uid : string) : M unit :=
  c ← get_state;
  match find (λ p, userId p = uid) (JsMap.values (remotePeers c)) with
  | Some peer =>
      effect (Engine (socketId peer) call_close);;
      match stream peer with
      | Some s => forEach s stop_track
      | None => mret tt
      end;;
      (λ c', (Normal tt,
              set_remotePeers (JsMap.delete (socketId peer) (remotePeers c')) c',
              []));;
      console console_log ["🗑️ Removed peer connection for " +:+ uid]
  | None => mret tt
  end.

(** The [user-left] listener, lines 215-219.  The hub sends
    [{userId, socketId}]; the listener reads [data.userId] only. *)
Definition on_user_left (data_userId data_socketId : string) : M unit :=
  console console_log ["👋 User left:"; data_userId];;
  removePeerConnection data_userId;;
  effect (OnUserLeft data_userId).

(** *** Muting *)

Definition kind_of (h : gmap TrackRef MediaStreamTrack) (r : TrackRef)
    : option TrackKind :=
  kind <$> h !! r.

(** [stream.getVideoTracks()], [stream.getAudioTracks()] *)
Definition getTracksOfKind (k : TrackKind)
    (h : gmap TrackRef MediaStreamTrack) (s : MediaStream) : list TrackRef :=
  filter (λ r, kind_of h r = Some k) s.

(** [this.localStream.getVideoTracks()[0]], when there is a local stream
    and it has a track of the kind. *)
Definition local_track (k : TrackKind) (c : State) : option TrackRef :=
  s ← localStream c; head (getTracksOfKind k (tracks c) s).

(** [peer.peerConnection.getSenders().find(s => s.track?.kind === k)],
    then its track when both are there. *)
Definition sender_track (k : TrackKind)
    (h : gmap TrackRef MediaStreamTrack) (peer : RemotePeer)
    : option TrackRef :=
  sender ← find (λ s, track s ≫= kind_of h = Some k)
             (senders (peerConnection peer));
  track sender.

Definition enabled_of (h : gmap TrackRef MediaStreamTrack) (r : TrackRef)
    : bool :=
  match h !! r with Some t => enabled t | None => false end.

Definition with_enabled (b : bool) (t : MediaStreamTrack) : MediaStreamTrack :=
  {| kind := kind t; enabled := b; ended := ended t |}.

(** [track.enabled = b] *)
Definition set_enabled (r : TrackRef) (b : bool) : M unit :=
  λ c, (Normal tt, set_tracks (alter (with_enabled b) r (tracks c)) c, []).

(** The callback of [this.remotePeers.forEach] in [toggleCamera] and
    [toggleMicrophone]: the track of the first sender of kind [k] takes
    the [enabled] of the local track. *)
Definition mirror_enabled (k : TrackKind) (localTrack : TrackRef)
    (peer : RemotePeer) : M unit :=
  c ← get_state;
  match sender_track k (tracks c) peer with
  | Some senderTrack =>
      set_enabled senderTrack (enabled_of (tracks c) localTrack)
  | None => mret tt
  end.

(** The body [toggleCamera] and [toggleMicrophone] share, for the kind
    [k] of track. *)
Definition toggleTrack (k : TrackKind) : M bool :=
  c ← get_state;
  match local_track k c with
  | Some localTrack =>
      set_enabled localTrack (negb (enabled_of (tracks c) localTrack));;
      (* Update all peer connections *)
      forEach (JsMap.values (remotePeers c)) (mirror_enabled k localTrack);;
      c' ← get_state;
      mret (enabled_of (tracks c') localTrack)
  | None => mret false
  end.

(** [toggleCamera], lines 464-482, and [toggleMicrophone], lines
    485-503. *)
Definition toggleCamera : M bool := toggleTrack video.
Definition toggleMicrophone : M bool := toggleTrack audio.

(** The tracks [toggleTrack] mirrors the local track onto: for every
    session, the track of its first sender of the kind. *)
Definition mirrored (k : TrackKind) (c : State) : list TrackRef :=
  omap (sender_track k (tracks c)) (JsMap.values (remotePeers c)).

(** The sessions map as [createPeerConnection] fills it, line 320: a
    session is stored under its own socket id. *)
Definition sessions_ok (m : JsMap.t RemotePeer) : Prop :=
  JsMap.wf m ∧ Forall (λ e, socketId e.2 = e.1) m.

(** *** A connection engine and states to run the client on *)

Definition with_signaling (s : RTCSignalingState)
    (l r : option RTCSessionDescriptionInit) (pc : RTCPeerConnection)
    : RTCPeerConnection :=
  {| signalingState := s; iceConnectionState := iceConnectionState pc;
     localDescription := l; remoteDescription := r; senders := senders pc |}.

Definition wrong_state (what : string) (s : RTCSignalingState) : string :=
  "Failed to set " +:+ what +:+ " sdp: Called in wrong state: " +:+
  signalingState_string s.

(** The signaling state machine of the WebRTC standard, for offers and
    answers; the examples below run on it. *)
Definition standard_engine : ConnectionEngine :=
  {| engine_createOffer pc :=
       match signalingState pc with
       | signaling_closed =>
           inl "The RTCPeerConnection's signalingState is 'closed'."
       | _ => inr {| sdp_type := sdp_offer; sdp := Some "v=0" |}
       end;
     engine_setLocalDescription pc d :=
       match sdp_type d, signalingState pc with
       | sdp_offer, (stable | have_local_offer) =>
           inr (with_signaling have_local_offer (Some d)
                  (remoteDescription pc) pc)
       | sdp_answer, have_remote_offer =>
           inr (with_signaling stable (Some d) (remoteDescription pc) pc)
       | _, s => inl (wrong_state "local" s)
       end;
     engine_setRemoteDescription pc d :=
       match sdp_type d, signalingState pc with
       | sdp_offer, (stable | have_remote_offer) =>
           inr (with_signaling have_remote_offer (localDescription pc)
                  (Some d) pc)
       | sdp_answer, have_local_offer =>
           inr (with_signaling stable (localDescription pc) (Some d) pc)
       | _, s => inl (wrong_state "remote" s)
       end;
     engine_addIceCandidate pc c :=
       match remoteDescription pc with
       | Some _ => inr pc
       | None => inl "The remote description was null"
       end |}.

(** A connection as [new RTCPeerConnection] and [addTrack] leave it. *)
Definition fresh_connection (ts : list TrackRef) : RTCPeerConnection :=
  {| signalingState := stable; iceConnectionState := ice_new;
     localDescription := None; remoteDescription := None;
     senders := (λ r, {| track := Some r |}) <$> ts |}.

(** A connection that is up: negotiated, ICE connected. *)
Definition connected_connection (ts : list TrackRef) : RTCPeerConnection :=
  {| signalingState := stable; iceConnectionState := ice_connected;
     localDescription := Some {| sdp_type := sdp_offer; sdp := Some "v=0" |};
     remoteDescription := Some {| sdp_type := sdp_answer; sdp := Some "v=0" |};
     senders := (λ r, {| track := Some r |}) <$> ts |}.

Definition session (uid pid sid : string) (pc : RTCPeerConnection)
    : RemotePeer :=
  {| userId := uid; peerId := pid; socketId := sid; peerConnection := pc;
     stream := None; isInitiator := true |}.

Definition camera (on : bool) : MediaStreamTrack :=
  {| kind := video; enabled := on; ended := false |}.

Definition microphone (on : bool) : MediaStreamTrack :=
  {| kind := audio; enabled := on; ended := false |}.

(** The user [alice] in the room [R1], with the given local stream,
    sessions and tracks. *)
Definition alice (s : option MediaStream) (peers : JsMap.t RemotePeer)
    (h : gmap TrackRef MediaStreamTrack) : State :=
  {| socket := true; localStream := s; remotePeers := peers;
     roomId := "R1"; own_userId := "alice"; isNegotiating := ∅;
     tracks := h |}.

Definition bob_new : RemotePeer :=
  session "bob" "pb" "b" (fresh_connection []).

(** The client after [disconnect()], lines 569-596, was called while
    the listener of [room-joined] awaited the session of an earlier user
    (line 203): the sessions were cleared, the local stream and
    [this.socket] are [null].  The loop of the listener has gone on to
    the next user, [bob], and [createPeerConnection] has stored a new
    session for him (lines 269 and 321). *)
Definition hung_up : State :=
  {| socket := false; localStream := None; remotePeers := [("b", bob_new)];
     roomId := "R1"; own_userId := "alice"; isNegotiating := ∅;
     tracks := ∅ |}.

(** The user [bob] is in the room twice, on the sockets [b1] and [b2]. *)
Definition two_bobs : State :=
  alice None
    [("b1", session "bob" "p1" "b1" (connected_connection []));
     ("b2", session "bob" "p2" "b2" (connected_connection []));
     ("c", session "carol" "pc" "c" (connected_connection []))] ∅.

(** The usual call: the senders of every session hold the two tracks of
    the local stream, microphone [1] and camera [2]. *)
Definition in_call : State :=
  alice (Some [1; 2])
    [("b", session "bob" "pb" "b" (connected_connection [1; 2]));
     ("c", session "carol" "pc" "c" (connected_connection [1; 2]))]
    {[1 := microphone true; 2 := camera true]}.

(** The user switched the camera off, and [getUserMedia()] was then
    called a second time: it replaces [this.localStream] by a new stream,
    microphone [3] and camera [4], and touches no sender, so that the
    session of [bob] still sends the tracks of the first stream,
    microphone [1] and camera [2], the camera switched off. *)
Definition out_of_step : State :=
  alice (Some [3; 4])
    [("b", session "bob" "pb" "b" (connected_connection [1; 2]))]
    {[1 := microphone true; 2 := camera false;
      3 := microphone true; 4 := camera true]}.

End Client.

(** ** Strings, as the code uses them *)

Module JsString.

(** [s.startsWith(p)] *)
Fixpoint startsWith (p s : string) : bool :=
  match p, s with
  | "", _ => true
  | String a p', String b s' => Ascii.eqb a b && startsWith p' s'
  | String _ _, "" => false
  end.

(** [s.substring(n)] *)
Fixpoint string_drop (n : nat) (s : string) : string :=
  match n, s with
  | 0, _ => s
  | S n', String _ s' => string_drop n' s'
  | S _, "" => ""
  end.

(** [s.replace(pattern, replacement)] for a string pattern that is not
    empty and a replacement without [$]: the first occurrence is
    replaced. *)
Fixpoint replace (pattern replacement s : string) : string :=
  if startsWith pattern s then
    replacement +:+ string_drop (String.length pattern) s
  else
    match s with
    | "" => ""
    | String a s' => String a (replace pattern replacement s')
    end.

End JsString.

(** ** More of the hub: CORS, chat messages, further invariants *)

Module HubMore.
Import Hub.

(** *** The CORS policy, lines 35-50 *)

Inductive CorsDecision :=
| cors_allow
| cors_block (message : string).

(** The [origin] callback of the Socket.IO server.  [origin] is [None]
    for a request without one; [!origin] also holds of the empty
    string. *)
Definition cors_origin (origin : option string) : CorsDecision :=
  match origin with
  | None => cors_allow
  | Some "" => cors_allow
  | Some origin =>
      if JsString.startsWith "http://localhost" origin
         || JsString.startsWith "http://127.0.0.1" origin
         || JsString.startsWith "http://10.0.5.43" origin
      then cors_allow
      else cors_block "Not allowed by CORS"
  end.

(** *** Chat messages, lines 201-230 *)

Section Chat.

(** The row [prisma.message.create] returns, with its [user]; the schema
    is not part of the sources. *)
Context {StoredMessage : Type}.

(** The payload of [new-message]: the stored row, or, when the database
    call failed, the fields received and the time of the server. *)
Inductive NewMessage :=
| stored (message : StoredMessage)
| unsaved (userId roomId content type : string) (createdAt : nat).

(** [io.to(room).emit('new-message', payload)]: to every socket of the
    room, the sender included. *)
Inductive ChatDelivery :=
| ToRoom (room : string) (recipients : gset string) (payload : NewMessage).

(** [socket.on('send-message')].  [saved] is what [prisma.message.create]
    resolved to, [None] when it rejected; [now] is [new Date()].  Both
    emitters are called after the [await] of line 205: [st] is the state
    of the server when the Prisma call has settled.  The room is the
    adapter's, which for the id of a connected socket holds that socket. *)
Definition on_send_message (saved : option StoredMessage) (now : nat)
    (sid roomId userId content : string) (st : State)
    : State * list ChatDelivery :=
  let everyone := default ∅ (rooms st !! roomId) in
  match saved with
  | Some message => (st, [ToRoom roomId everyone (stored message)])
  | None =>
      (* If database fails, still broadcast the message *)
      (st, [ToRoom roomId everyone (unsaved userId roomId content "TEXT" now)])
  end.

End Chat.

(** *** Further invariants of the server's state *)

(** A member is stored under its own socket id, line 97. *)
Definition members_keyed (m : JsMap.t (JsMap.t Member)) : Prop :=
  Forall (λ room, Forall (λ e, socketId e.2 = e.1) room.2) m.

(** The adapter keeps no empty room. *)
Definition adapter_tidy (a : gmap string (gset string)) : Prop :=
  ∀ r g, a !! r = Some g → g ≠ ∅.

Definition state_tidy (st : State) : Prop :=
  members_keyed (roomMembers st) ∧ adapter_tidy (rooms st).

(** The room an event names; [connection] and [disconnect] name none. *)
Definition event_room (ev : ClientEvent) : option string :=
  match ev with
  | connection => None
  | join_room roomId _ _ => Some roomId
  | join_room_resumes roomId _ _ _ => Some roomId
  | offer roomId _ _ => Some roomId
  | answer roomId _ _ => Some roomId
  | ice_candidate roomId _ _ => Some roomId
  | leave_room roomId _ => Some roomId
  | disconnect => None
  end.

End HubMore.

(** ** More of the client: configuration, sessions, offers, teardown *)

Module ClientMore.
Import Client.

(** *** [getConfig], file [lib/config.ts] *)

Record Config := {
  signalingUrl : string;
  stunServer : string;
  turnServer : string;
  turnUsername : string;
  turnPassword : string;
}.

(** [getEnv]: [env] is [process.env]; both branches of the test on
    [window] read it the same way, and [||] takes the default for a
    variable that is unset or empty. *)
Definition getEnv (env : string → option string) (key defaultValue : string)
    : string :=
  match env key with
  | Some value => if decide (value = "") then defaultValue else value
  | None => defaultValue
  end.

(** [getConfig], with the warnings it prints. *)
Definition getConfig (env : string → option string) : Config * list string :=
  let url0 := getEnv env "NEXT_PUBLIC_SIGNALING_URL" "http://localhost:3001" in
  (* Auto-fix: Convert ws:// to http:// for Socket.IO *)
  let '(url1, w1) :=
    if JsString.startsWith "ws://" url0
    then (JsString.replace "ws://" "http://" url0,
          ["⚠️ Converting ws:// to http:// for Socket.IO"])
    else (url0, []) in
  let '(url2, w2) :=
    if JsString.startsWith "wss://" url1
    then (JsString.replace "wss://" "https://" url1,
          ["⚠️ Converting wss:// to https:// for Socket.IO"])
    else (url1, []) in
  ({| signalingUrl := url2;
      stunServer :=
        getEnv env "NEXT_PUBLIC_STUN_SERVER" "stun:stun.l.google.com:19302";
      turnServer := getEnv env "NEXT_PUBLIC_TURN_SERVER" "";
      turnUsername := getEnv env "NEXT_PUBLIC_TURN_USERNAME" "";
      turnPassword := getEnv env "NEXT_PUBLIC_TURN_PASSWORD" "" |},
   w1 ++ w2).

(** *** [getRTCConfiguration], lines 69-92 *)

Record RTCIceServer := {
  urls : string;
  username : option string;
  credential : option string;
}.

Definition stun (url : string) : RTCIceServer :=
  {| urls := url; username := None; credential := None |}.

Section IceServers.

(** [String.prototype.trim], the platform's. *)
Variable trim : string → string.

(** [s && s.trim() !== ''] *)
Definition filled (s : string) : bool :=
  bool_decide (s ≠ "") && bool_decide (trim s ≠ "").

Definition getRTCConfiguration (env : string → option string)
    : list RTCIceServer :=
  let config := (getConfig env).1 in
  [stun "stun:stun.l.google.com:19302"; stun "stun:stun1.l.google.com:19302"]
  ++ (if filled (stunServer config)
         && negb (includes "stun.l.google.com" (stunServer config))
      then [stun (stunServer config)] else [])
  ++ (if filled (turnServer config) then
        [{| urls := turnServer config;
            username :=
              if filled (turnUsername config)
              then Some (turnUsername config) else None;
            credential :=
              if filled (turnPassword config)
              then Some (turnPassword config) else None |}]
      else []).

End IceServers.

(** *** Creating sessions *)

Definition bool_string (b : bool) : string := if b then "true" else "false".

(** The warnings [getConfig] prints when [getRTCConfiguration] calls
    it. *)
Definition warn_config (env : string → option string) : M unit :=
  forEach (getConfig env).2 (λ w, console console_warn [w]).

(** [createPeerConnection], lines 260-326.  [env] is [process.env].
    The configuration is read for the constructor, which prints the
    warnings of [getConfig]; the ICE servers are not part of what the
    client reads of a connection.  [new RTCPeerConnection] and the
    [addTrack] of every track of the local stream leave the connection
    [fresh_connection]; the three handlers set on it are the listeners
    [on_track], [on_icecandidate] and [on_connectionstatechange] below. *)
Definition createPeerConnection `{ConnectionEngine}
    (env : string → option string)
    (userId peerId socketId : string) (isInitiator : bool) : M unit :=
  c ← get_state;
  (* Don't create if already exists *)
  if JsMap.has socketId (remotePeers c) then
    console console_log ["Peer connection already exists for:"; socketId]
  else
    console console_log
      ["🔗 Creating peer connection for " +:+ userId +:+ " (initiator: " +:+
       bool_string isInitiator +:+ ")"];;
    warn_config env;;
    let peerConnection := fresh_connection (default [] (localStream c)) in
    (* Store peer *)
    let peer :=
      {| Client.userId := userId; Client.peerId := peerId;
         Client.socketId := socketId; Client.peerConnection := peerConnection;
         stream := None; Client.isInitiator := isInitiator |} in
    (λ c', (Normal tt,
            set_remotePeers (JsMap.set socketId peer (remotePeers c')) c',
            []));;
    (* Create offer if we're the initiator *)
    if isInitiator then createOffer peer else mret tt.


(** *** Steps the methods below make, beyond [Effect] *)

(** An object handed to [console.log] or [console.error]. *)
Inductive LoggedData :=
| data_users (users : list Hub.Member)
| data_error (message : string).

Inductive RTCPeerConnectionState :=
| conn_new
| conn_connecting
| conn_connected
| conn_disconnected
| conn_failed
| conn_closed.

#[export] Instance RTCPeerConnectionState_eq_dec :
  EqDecision RTCPeerConnectionState.
Proof. solve_decision. Defined.

Definition connectionState_string (s : RTCPeerConnectionState) : string :=
  match s with
  | conn_new => "new"
  | conn_connecting => "connecting"
  | conn_connected => "connected"
  | conn_disconnected => "disconnected"
  | conn_failed => "failed"
  | conn_closed => "closed"
  end.

Definition kind_string (k : TrackKind) : string :=
  match k with audio => "audio" | video => "video" end.

(** One step of a call: a step of [Effect], or
    - [ConsoleData level text data]: [console[level](text, data)];
    - [CreateAnswer sid]: [createAnswer] called on the connection of the
      session of the socket [sid];
    - the optional calls of [onUserJoinedCallback],
      [onLocalStreamCallback], [onRemoteStreamCallback] and
      [onRemoteStreamRemovedCallback];
    - [this.socket.emit] of [join-room], [leave-room] and
      [send-message], and [this.socket.disconnect()]. *)
Inductive Step :=
| Base (e : Effect)
| ConsoleData (level : ConsoleLevel) (text : string) (data : LoggedData)
| CreateAnswer (socketId : string)
| OnUserJoined (userId : string)
| OnLocalStream (stream : MediaStream)
| OnRemoteStream (userId : string) (stream : MediaStream)
| OnRemoteStreamRemoved (userId : string)
| EmitJoinRoom (roomId userId : string)
| EmitLeaveRoom (roomId userId : string)
| EmitSendMessage (roomId userId content : string)
| SocketDisconnect.

(** A method that makes such steps. *)
Definition MX (A : Type) : Type := State → Completion A * State * list Step.

Definition retX {A} (a : A) : MX A := λ c, (Normal a, c, []).

Definition bindX {A B} (m : MX A) (k : A → MX B) : MX B :=
  λ c,
    match m c with
    | (Normal a, c1, t1) =>
        let '(r, c2, t2) := k a c1 in (r, c2, t1 ++ t2)
    | (Throw e, c1, t1) => (Throw e, c1, t1)
    end.

Definition try_catchX {A} (m : MX A) (handler : string → MX A) : MX A :=
  λ c,
    match m c with
    | (Normal a, c1, t1) => (Normal a, c1, t1)
    | (Throw e, c1, t1) =>
        let '(r, c2, t2) := handler e c1 in (r, c2, t1 ++ t2)
    end.

Definition try_finallyX {A} (m : MX A) (final : MX unit) : MX A :=
  λ c,
    let '(r, c1, t1) := m c in
    match final c1 with
    | (Normal _, c2, t2) => (r, c2, t1 ++ t2)
    | (Throw e, c2, t2) => (Throw e, c2, t1 ++ t2)
    end.

#[export] Instance MX_ret : MRet MX := @retX.
#[export] Instance MX_bind : MBind MX := λ A B k m, bindX m k.

(** A method of [M] called from one of [MX]. *)
Definition lift {A} (m : M A) : MX A :=
  λ c, let '(r, c', t) := m c in (r, c', Base <$> t).

Definition step (s : Step) : MX unit := λ c, (Normal tt, c, [s]).

Definition getX : MX State := λ c, (Normal c, c, []).

(** [throw new Error(message)], and [throw error] *)
Definition throwX {A} (message : string) : MX A :=
  λ c, (Throw message, c, []).

Definition modify (f : State → State) : MX unit := λ c, (Normal tt, f c, []).

Fixpoint forEachX {A} (l : list A) (f : A → MX unit) : MX unit :=
  match l with
  | [] => mret tt
  | x :: l' => f x;; forEachX l' f
  end.

(** *** Answering offers *)

(** [createAnswer] is the platform's, as the methods of
    [ConnectionEngine] are. *)
Class AnswerEngine := {
  engine_createAnswer :
    RTCPeerConnection → string + RTCSessionDescriptionInit;
}.

Definition await_createAnswer `{AnswerEngine} (peer : RemotePeer)
    (pc : RTCPeerConnection) : MX RTCSessionDescriptionInit :=
  λ c,
    match engine_createAnswer pc with
    | inl e => (Throw e, c, [CreateAnswer (socketId peer)])
    | inr a => (Normal a, c, [CreateAnswer (socketId peer)])
    end.

Section Listeners.
Context `{ConnectionEngine} `{AnswerEngine}.

(** [process.env] *)
Variable env : string → option string.

(** What a template literal prints for the error with the given message:
    its [toString()], which puts the name of the error first. *)
Variable error_string : string → string.

(** [handleOffer], lines 366-406. *)
Definition handleOffer (peer : RemotePeer)
    (offer : RTCSessionDescriptionInit) : MX unit :=
  c ← getX;
  if decide (socketId peer ∈ isNegotiating c) then
    lift (console console_log ["Already handling offer from:"; userId peer])
  else
    try_finallyX
      (try_catchX
         (lift (isNegotiating_add (socketId peer));;
          (* Check if we can set remote description *)
          let currentState := signalingState (peerConnection peer) in
          if decide (currentState = stable ∨ currentState = have_local_offer)
          then
            pc1 ← lift (await_engine peer (call_setRemoteDescription offer)
                          (engine_setRemoteDescription (peerConnection peer)
                             offer));
            answer ← await_createAnswer peer pc1;
            lift (await_engine peer (call_setLocalDescription answer)
                    (engine_setLocalDescription pc1 answer));;
            c' ← getX;
            if socket c' then
              lift (effect (SocketEmit
                              (emit_answer (roomId c') answer
                                 (Some (peerId peer)))));;
              lift (console console_log ["📤 Sent answer to " +:+ userId peer])
            else mret tt
          else
            lift (console console_warn
                    ["Cannot handle offer from " +:+ userId peer +:+
                     ", signaling state: " +:+
                     signalingState_string currentState]))
         (λ error,
            lift (console console_error
                    ["Error handling offer from " +:+ userId peer +:+ ":";
                     error]);;
            (* Try to recover by recreating the connection *)
            lift (effect (OnError ("Connection error with " +:+ userId peer +:+
                                   ": " +:+ error_string error)))))
      (lift (isNegotiating_delete (socketId peer))).

(** The listeners of the socket, lines 196-256.  [connect_to_user] is
    the body of the loop of [room-joined]. *)
Definition connect_to_user (user : Hub.Member) : MX unit :=
  c ← getX;
  if decide (Hub.userId user ≠ own_userId c) then
    lift (createPeerConnection env (Hub.userId user) (Hub.peerId user)
            (Hub.socketId user) true)
  else mret tt.

Definition on_room_joined (users : list Hub.Member) : MX unit :=
  step (ConsoleData console_log "🏠 Joined room, existing users:"
          (data_users users));;
  (* Create peer connections for existing users *)
  forEachX users connect_to_user.

Definition on_user_joined (userId peerId socketId : string) : MX unit :=
  lift (console console_log ["👤 User joined:"; userId]);;
  step (OnUserJoined userId);;
  (* Create peer connection for new user *)
  lift (createPeerConnection env userId peerId socketId true).

Definition on_offer (offer : RTCSessionDescriptionInit) (from : string)
    : MX unit :=
  lift (console console_log ["📥 Received offer from:"; from]);;
  c ← getX;
  match JsMap.get from (remotePeers c) with
  | Some peer => handleOffer peer offer
  | None => mret tt
  end.

Definition on_error (message : string) : MX unit :=
  step (ConsoleData console_error "❌ Signaling error:" (data_error message));;
  lift (effect (OnError message)).

(** What the client does with an event the hub delivers to it. *)
Definition listen (ev : Hub.ServerEvent) : MX unit :=
  match ev with
  | Hub.ev_error message => on_error message
  | Hub.ev_user_joined userId peerId socketId =>
      on_user_joined userId peerId socketId
  | Hub.ev_room_joined _ users => on_room_joined users
  | Hub.ev_user_left userId socketId => lift (on_user_left userId socketId)
  | Hub.ev_offer offer from _ => on_offer offer from
  | Hub.ev_answer answer from _ => lift (on_answer answer from)
  | Hub.ev_ice_candidate candidate from _ =>
      lift (on_ice_candidate (Some candidate) from)
  end.

(** The handlers [createPeerConnection] sets on a connection, lines
    279-308, with the [userId], [peerId] and [socketId] they were made
    with. *)
Definition store_stream (sid : string) (s : MediaStream) (c : State) : State :=
  set_remotePeers
    (map (λ kv : string * RemotePeer,
            if decide (kv.1 = sid) then
              (kv.1,
               {| Client.userId := Client.userId kv.2;
                  Client.peerId := Client.peerId kv.2;
                  Client.socketId := Client.socketId kv.2;
                  Client.peerConnection := Client.peerConnection kv.2;
                  stream := Some s;
                  Client.isInitiator := Client.isInitiator kv.2 |})
            else kv)
       (remotePeers c)) c.

(** [ontrack]; [streams] is [event.streams], empty when it is missing. *)
Definition on_track (userId socketId : string) (track_kind : TrackKind)
    (streams : list MediaStream) : MX unit :=
  lift (console console_log
          ["📹 Received remote track from " +:+ userId +:+ ":";
           kind_string track_kind]);;
  c ← getX;
  match JsMap.get socketId (remotePeers c), head streams with
  | Some remotePeer, Some s =>
      modify (store_stream socketId s);;
      step (OnRemoteStream userId s)
  | _, _ => mret tt
  end.

(** [onicecandidate] *)
Definition on_icecandidate (peerId : string)
    (candidate : option RTCIceCandidateInit) : MX unit :=
  c ← getX;
  match candidate with
  | Some candidate =>
      if socket c then
        lift (effect (SocketEmit
                        (emit_ice_candidate (roomId c) candidate
                           (Some peerId))))
      else mret tt
  | None => mret tt
  end.

(** [onconnectionstatechange]; [connectionState] is that of the
    connection when the handler runs. *)
Definition on_connectionstatechange (userId socketId : string)
    (connectionState : RTCPeerConnectionState) : MX unit :=
  lift (console console_log
          ["🔌 Connection state for " +:+ userId +:+ ":";
           connectionState_string connectionState]);;
  if decide (connectionState = conn_failed ∨
             connectionState = conn_disconnected) then
    c ← getX;
    match JsMap.get socketId (remotePeers c) with
    | Some peer =>
        match stream peer with
        | Some _ => step (OnRemoteStreamRemoved userId)
        | None => mret tt
        end
    | None => mret tt
    end
  else mret tt.

(** The [connect] and [disconnect] listeners of the socket, lines
    188-194. *)
Definition on_connect : MX unit :=
  lift (console console_log ["✅ Connected to signaling server"]).

Definition on_disconnect : MX unit :=
  lift (console console_log ["❌ Disconnected from signaling server"]).

(** What happens to a client in a call: the socket connects or
    disconnects, the hub delivers an event, a connection fires one of its
    handlers, or the user switches the camera or the microphone.  The
    [new-message] listener, which reads and writes nothing of the client,
    is left out. *)
Inductive Input :=
| socket_connect
| socket_disconnect
| from_hub (ev : Hub.ServerEvent)
| track_event (userId socketId : string) (track_kind : TrackKind)
    (streams : list MediaStream)
| icecandidate_event (peerId : string)
    (candidate : option RTCIceCandidateInit)
| connectionstatechange_event (userId socketId : string)
    (connectionState : RTCPeerConnectionState)
| user_toggleCamera
| user_toggleMicrophone.

Definition react (i : Input) : MX unit :=
  match i with
  | socket_connect => on_connect
  | socket_disconnect => on_disconnect
  | from_hub ev => listen ev
  | track_event userId socketId track_kind streams =>
      on_track userId socketId track_kind streams
  | icecandidate_event peerId candidate => on_icecandidate peerId candidate
  | connectionstatechange_event userId socketId connectionState =>
      on_connectionstatechange userId socketId connectionState
  | user_toggleCamera => lift (toggleCamera ≫= λ _, mret tt)
  | user_toggleMicrophone => lift (toggleMicrophone ≫= λ _, mret tt)
  end.

(** The inputs are handled one after the other; a listener that throws
    does not stop the next one. *)
Fixpoint run (inputs : list Input) (c : State) : State * list Step :=
  match inputs with
  | [] => (c, [])
  | i :: inputs' =>
      let '(_, c1, t1) := react i c in
      let '(c2, t2) := run inputs' c1 in
      (c2, t1 ++ t2)
  end.

End Listeners.

(** *** Joining, chatting, leaving *)

(** [joinRoom], lines 431-438, and [sendMessage], lines 441-448. *)
Definition joinRoom : MX unit :=
  c ← getX;
  if socket c then
    lift (console console_log ["🚪 Joining room: " +:+ roomId c]);;
    step (EmitJoinRoom (roomId c) (own_userId c))
  else mret tt.

Definition sendMessage (message : string) : MX unit :=
  c ← getX;
  if socket c then step (EmitSendMessage (roomId c) (own_userId c) message)
  else mret tt.

Definition clear_localStream (c : State) : State :=
  {| socket := socket c; localStream := None;
     remotePeers := remotePeers c; roomId := roomId c;
     own_userId := own_userId c; isNegotiating := isNegotiating c;
     tracks := tracks c |}.

Definition clear_socket (c : State) : State :=
  {| socket := false; localStream := localStream c;
     remotePeers := remotePeers c; roomId := roomId c;
     own_userId := own_userId c; isNegotiating := isNegotiating c;
     tracks := tracks c |}.

(** The callback of [this.remotePeers.forEach] in [disconnect]. *)
Definition close_session (peer : RemotePeer) : MX unit :=
  lift (effect (Engine (socketId peer) call_close));;
  match stream peer with
  | Some s => lift (forEach s stop_track)
  | None => mret tt
  end.

(** [disconnect], lines 569-596. *)
Definition disconnect : MX unit :=
  (* Close all peer connections *)
  c ← getX;
  forEachX (JsMap.values (remotePeers c)) close_session;;
  modify (set_remotePeers JsMap.empty);;
  (* Stop local stream *)
  c1 ← getX;
  match localStream c1 with
  | Some s => lift (forEach s stop_track);; modify clear_localStream
  | None => mret tt
  end;;
  (* Leave room and disconnect socket *)
  c2 ← getX;
  (if socket c2 then
     step (EmitLeaveRoom (roomId c2) (own_userId c2));;
     step SocketDisconnect;;
     modify clear_socket
   else mret tt);;
  lift (console console_log ["🔌 Disconnected from all peers"]).

(** A track after [track.stop()], and the heap after every track of a
    stream was stopped. *)
Definition stop (t : MediaStreamTrack) : MediaStreamTrack :=
  {| kind := kind t; enabled := enabled t; ended := true |}.

Definition stopped (s : MediaStream) (h : gmap TrackRef MediaStreamTrack)
    : gmap TrackRef MediaStreamTrack :=
  foldl (λ h r, alter stop r h) h s.

(** The tracks [disconnect] stops: those of the streams of the sessions,
    then those of the local stream. *)
Definition streams_of (c : State) : list TrackRef :=
  concat (omap stream (JsMap.values (remotePeers c))) ++
  default [] (localStream c).

(** The client after [disconnect]: no session, no local stream, no
    socket. *)
Definition torn_down (c : State) : State :=
  {| socket := false; localStream := None; remotePeers := JsMap.empty;
     roomId := roomId c; own_userId := own_userId c;
     isNegotiating := isNegotiating c;
     tracks := stopped (streams_of c) (tracks c) |}.

Definition is_close (s : Step) : bool :=
  match s with
  | Base (Engine _ call_close) => true
  | _ => false
  end.

(** What the hub receives of the steps of a client. *)
Definition to_hub (s : Step) : list Hub.ClientEvent :=
  match s with
  | Base (SocketEmit (emit_offer roomId offer targetPeerId)) =>
      [Hub.offer roomId offer targetPeerId]
  | Base (SocketEmit (emit_answer roomId answer targetPeerId)) =>
      [Hub.answer roomId answer targetPeerId]
  | Base (SocketEmit (emit_ice_candidate roomId candidate targetPeerId)) =>
      [Hub.ice_candidate roomId candidate targetPeerId]
  | EmitLeaveRoom roomId userId => [Hub.leave_room roomId userId]
  | SocketDisconnect => [Hub.disconnect]
  | _ => []
  end.

(** *** Starting up *)

(** What [navigator.mediaDevices.getUserMedia] does when it is asked:
    it is missing, its promise rejects with an error of the given name
    and message, or it resolves with a stream of new tracks, [made]. *)
Inductive MediaAnswer :=
| media_unsupported
| media_rejected (name message : string)
| media_granted (stream : MediaStream)
    (made : gmap TrackRef MediaStreamTrack).

Definition set_localStream (s : MediaStream)
    (made : gmap TrackRef MediaStreamTrack) (c : State) : State :=
  {| socket := socket c; localStream := Some s;
     remotePeers := remotePeers c; roomId := roomId c;
     own_userId := own_userId c; isNegotiating := isNegotiating c;
     tracks := made ∪ tracks c |}.

(** The [catch] of [getUserMedia], lines 132-137: the message for an
    error of the given name and message, reported and thrown. *)
Definition media_errorMessage (name message : string) : string :=
  if decide (name = "NotAllowedError")
  then "Camera/microphone permission denied. Please allow access."
  else if decide (message = "") then "Failed to access camera/microphone"
  else message.

Definition getUserMedia_failed {A} (name message : string) : MX A :=
  let errorMessage := media_errorMessage name message in
  lift (effect (OnError errorMessage));;
  throwX errorMessage.

(** [getUserMedia], lines 114-139. *)
Definition getUserMedia (media : MediaAnswer) : MX MediaStream :=
  match media with
  | media_unsupported =>
      getUserMedia_failed "Error"
        "getUserMedia is not supported in this browser"
  | media_rejected name message =>
      lift (console console_log ["📹 Requesting camera and microphone..."]);;
      getUserMedia_failed name message
  | media_granted stream made =>
      lift (console console_log ["📹 Requesting camera and microphone..."]);;
      modify (set_localStream stream made);;
      step (OnLocalStream stream);;
      lift (console console_log ["✅ Camera and microphone access granted"]);;
      mret stream
  end.

Section Initialize.

(** [connectToSignaling], lines 142-182, is the platform's and the
    network's; [error_string] as above. *)
Variable connectToSignaling : MX unit.
Variable error_string : string → string.

(** [initialize], lines 95-111. *)
Definition initialize (media : MediaAnswer) : MX unit :=
  try_catchX
    (lift (console console_log
             ["🚀 Starting multi-peer WebRTC initialization..."]);;
     (* Step 1: Get user media *)
     getUserMedia media;;
     (* Step 2: Connect to signaling server *)
     connectToSignaling;;
     lift (console console_log
             ["✅ Multi-peer WebRTC initialization complete"]))
    (λ error,
       lift (console console_error ["❌ Error initializing WebRTC:"; error]);;
       lift (effect (OnError ("Failed to initialize: " +:+
                              (if decide (error = "") then error_string error
                               else error))));;
       throwX error).

End Initialize.

(** *** Properties of the client's state *)

(** What a listener leaves as it is: the socket, the local stream, the
    room and the user, the set [isNegotiating] and the kind of every
    track. *)
Definition frame (c0 c : State) : Prop :=
  socket c = socket c0 ∧ localStream c = localStream c0 ∧
  roomId c = roomId c0 ∧ own_userId c = own_userId c0 ∧
  isNegotiating c = isNegotiating c0 ∧
  ∀ r, kind_of (tracks c) r = kind_of (tracks c0) r.

(** The senders of a connection hold the tracks of the stream, in its
    order: what [createPeerConnection] makes of a new connection. *)
Definition follows (L : option MediaStream) (pc : RTCPeerConnection) : Prop :=
  senders pc = (λ r, {| track := Some r |}) <$> default [] L.

Definition senders_follow_stream (c : State) : Prop :=
  Forall (λ e : string * RemotePeer,
            follows (localStream c) (peerConnection e.2))
    (remotePeers c).

(** The engine changes the signaling of a connection, not its senders. *)
Definition keeps_senders (E : ConnectionEngine) : Prop :=
  (∀ pc d pc', engine_setLocalDescription pc d = inr pc' →
               senders pc' = senders pc) ∧
  (∀ pc d pc', engine_setRemoteDescription pc d = inr pc' →
               senders pc' = senders pc) ∧
  (∀ pc i pc', engine_addIceCandidate pc i = inr pc' →
               senders pc' = senders pc).

(** The invariant of the sessions; with [strict], the engine keeps the
    senders and they follow the local stream. *)
Definition sessions_inv (E : ConnectionEngine) (strict : bool) (c : State)
    : Prop :=
  sessions_ok (remotePeers c) ∧
  (strict = true → keeps_senders E ∧ senders_follow_stream c).

(** *** Clients and calls to run the properties on *)

(** No variable of the environment is set. *)
Definition no_env : string → option string := λ _, None.

(** [toString()] of an [Error]. *)
Definition error_toString (message : string) : string :=
  "Error: " +:+ message.

(** [alice] after [initialize]: microphone [1] and camera [2], no
    session yet; [bob] in the same room, without a local stream. *)
Definition alone : State :=
  alice (Some [1; 2]) JsMap.empty {[1 := microphone true; 2 := camera true]}.

Definition bob_alone : State :=
  {| socket := true; localStream := None; remotePeers := JsMap.empty;
     roomId := "R1"; own_userId := "bob"; isNegotiating := ∅; tracks := ∅ |}.

(** [bob] joins, answers the offer and sends a track and a candidate;
    the user switches the camera off; [bob] leaves. *)
Definition a_call : list Input :=
  [socket_connect;
   from_hub (Hub.ev_user_joined "bob" "pb" "b");
   from_hub (Hub.ev_answer Hub.some_answer "b" (Some "pa"));
   track_event "bob" "b" video [[7; 8]];
   from_hub (Hub.ev_ice_candidate Hub.some_candidate "b" (Some "pa"));
   user_toggleCamera;
   from_hub (Hub.ev_user_joined "carol" "pc" "c")].

(** The members [room-joined] lists for a second tab of [alice]: [bob],
    and [alice] herself on her first socket. *)
Definition bob_and_alice : list Hub.Member :=
  [{| Hub.userId := "bob"; Hub.socketId := "b"; Hub.peerId := "pb" |};
   {| Hub.userId := "alice"; Hub.socketId := "a"; Hub.peerId := "pa" |}].

(** An engine for [createAnswer], for the examples. *)
Definition standard_answers : AnswerEngine :=
  {| engine_createAnswer pc :=
       match signalingState pc with
       | have_remote_offer | have_local_pranswer =>
           inr {| sdp_type := sdp_answer; sdp := Some "v=0" |}
       | s =>
           inl ("Failed to create answer: Called in wrong state: " +:+
                signalingState_string s)
       end |}.

End ClientMore.

(** * Part II: properties *)

(** ** Facts about insertion-ordered maps *)

Module JsMapFacts.
Import JsMap.

Section Facts.
Context {V : Type}.
Implicit Types (m : t V) (k : string) (v : V).

Lemma has_true k m : has k m = true ↔ is_Some (get k m).
Proof.
  unfold has. destruct (get k m) as [v|].
  - split; eauto.
  - split; [done | by intros [? ?]].
Qed.

Lemma has_false k m : has k m = false ↔ get k m = None.
Proof. unfold has. by destruct (get k m). Qed.

Lemma get_Some_elem k v m : get k m = Some v → (k, v) ∈ m.
Proof.
  induction m as [|[k' v'] m IH]; simpl; [done|].
  case_decide as Hk.
  - intros [= ->]. subst. left.
  - intros Hg. right. auto.
Qed.

Lemma get_None_keys k m : get k m = None ↔ k ∉ keys m.
Proof.
  unfold keys. induction m as [|[k' v'] m IH]; simpl.
  - split; [intros _; apply not_elem_of_nil | done].
  - rewrite not_elem_of_cons. case_decide as Hk.
    + split; [done | intros [Hne _]; by subst].
    + rewrite IH. split; [intros; split; [congruence | done] | tauto].
Qed.

Lemma elem_get k v m : wf m → (k, v) ∈ m → get k m = Some v.
Proof.
  unfold wf, keys. induction m as [|[k' v'] m IH]; simpl.
  - intros _ Hin. by apply elem_of_nil in Hin.
  - rewrite NoDup_cons. intros [Hnotin Hnd] Hin.
    apply elem_of_cons in Hin as [[= -> ->] | Hin].
    + by rewrite decide_True.
    + rewrite decide_False; [by apply IH|].
      intros ->. apply Hnotin. apply list_elem_of_fmap. by exists (k, v).
Qed.

Lemma get_set_eq k v m : get k (set k v m) = Some v.
Proof.
  induction m as [|[k' v'] m IH]; simpl.
  - by rewrite decide_True.
  - case_decide; simpl; [by rewrite decide_True | by rewrite decide_False].
Qed.

Lemma get_set_ne k k' v m : k ≠ k' → get k' (set k v m) = get k' m.
Proof.
  intros Hne. induction m as [|[k0 v0] m IH]; simpl.
  - by rewrite decide_False.
  - case_decide as H0; simpl.
    + subst k0. by rewrite !decide_False.
    + by rewrite IH.
Qed.

Lemma get_delete_eq k m : get k (delete k m) = None.
Proof.
  induction m as [|[k0 v0] m IH]; simpl; [done|].
  case_decide; simpl; [done | by rewrite decide_False].
Qed.

Lemma get_delete_ne k k' m : k ≠ k' → get k' (delete k m) = get k' m.
Proof.
  intros Hne. induction m as [|[k0 v0] m IH]; simpl; [done|].
  case_decide as H0; simpl.
  - subst k0. by rewrite decide_False.
  - by rewrite IH.
Qed.

Lemma keys_set k v m :
  keys (set k v m) = if has k m then keys m else keys m ++ [k].
Proof.
  unfold keys, has. induction m as [|[k0 v0] m IH]; csimpl; [done|].
  case_decide as H0; csimpl; [by subst|].
  rewrite IH. by destruct (get k m).
Qed.

Lemma size_set k v m :
  size (set k v m) = if has k m then size m else S (size m).
Proof.
  unfold size, has. induction m as [|[k0 v0] m IH]; simpl; [done|].
  case_decide as H0; simpl; [done|].
  rewrite IH. by destruct (get k m).
Qed.

Lemma keys_delete k m : keys (delete k m) = filter (λ x, x ≠ k) (keys m).
Proof.
  unfold keys. induction m as [|[k0 v0] m IH]; csimpl; [done|].
  rewrite filter_cons. csimpl. case_decide as H0.
  - rewrite decide_False; [done | by intros ?].
  - rewrite decide_True by done. csimpl. by rewrite IH.
Qed.

Lemma size_delete_le k m : size (delete k m) ≤ size m.
Proof.
  unfold size. induction m as [|[k0 v0] m IH]; simpl; [done|].
  case_decide; simpl; lia.
Qed.

Lemma delete_absent k m : get k m = None → delete k m = m.
Proof.
  induction m as [|[k0 v0] m IH]; simpl; [done|].
  case_decide; [done|]. intros Hg. by rewrite IH.
Qed.

Lemma size_delete_present k m :
  wf m → is_Some (get k m) → S (size (delete k m)) = size m.
Proof.
  unfold wf, keys, size. induction m as [|[k0 v0] m IH]; simpl.
  - by intros _ [? ?].
  - rewrite NoDup_cons. intros [Hnotin Hnd]. case_decide as H0.
    + subst k0. intros _. rewrite delete_absent; [done|].
      by apply get_None_keys.
    + intros Hs. simpl. f_equal. by apply IH.
Qed.

Lemma wf_set k v m : wf m → wf (set k v m).
Proof.
  unfold wf. rewrite keys_set. intros Hnd.
  destruct (has k m) eqn:Hh; [done|].
  apply NoDup_app. split; [done|]. split; [|apply NoDup_singleton].
  intros x Hx Hx'. apply list_elem_of_singleton in Hx'. subst x.
  apply has_false, get_None_keys in Hh. done.
Qed.

Lemma wf_delete k m : wf m → wf (delete k m).
Proof. unfold wf. rewrite keys_delete. apply NoDup_filter. Qed.

Lemma wf_empty : wf (@empty V).
Proof. apply NoDup_nil_2. Qed.

Lemma set_same k v m : get k m = Some v → set k v m = m.
Proof.
  induction m as [|[k0 v0] m IH]; simpl; [done|].
  case_decide as H0.
  - intros [= ->]. by subst.
  - intros Hg. by rewrite IH.
Qed.

Lemma Forall_set (P : string * V → Prop) k v m :
  Forall P m → P (k, v) → Forall P (set k v m).
Proof.
  intros Hm Hp. induction Hm as [|[k0 v0] m H0 Hm IH]; simpl.
  - by constructor.
  - case_decide; constructor; auto.
Qed.

Lemma Forall_delete (P : string * V → Prop) k m :
  Forall P m → Forall P (delete k m).
Proof.
  intros Hm. induction Hm as [|[k0 v0] m H0 Hm IH]; simpl; [done|].
  case_decide; [done | by constructor].
Qed.

Lemma set_app_r k v m1 m2 :
  k ∉ keys m1 → set k v (m1 ++ m2) = m1 ++ set k v m2.
Proof.
  unfold keys. induction m1 as [|[k0 v0] m1 IH]; simpl; [done|].
  rewrite not_elem_of_cons. intros [Hne Hnotin].
  rewrite decide_False by done. by rewrite IH.
Qed.

Lemma delete_app k m1 m2 : delete k (m1 ++ m2) = delete k m1 ++ delete k m2.
Proof.
  induction m1 as [|[k0 v0] m1 IH]; simpl; [done|].
  case_decide; simpl; by rewrite IH.
Qed.

Lemma delete_notin k m : k ∉ keys m → delete k m = m.
Proof. intros Hk. by apply delete_absent, get_None_keys. Qed.

Lemma set_set k v v' m : set k v (set k v' m) = set k v m.
Proof.
  induction m as [|[k0 v0] m IH]; simpl.
  - by rewrite decide_True.
  - case_decide as H0; simpl.
    + by rewrite decide_True.
    + rewrite decide_False by done. by rewrite IH.
Qed.

Lemma delete_set k v m : delete k (set k v m) = delete k m.
Proof.
  induction m as [|[k0 v0] m IH]; simpl.
  - by rewrite decide_True.
  - case_decide as H0; simpl.
    + by rewrite decide_True.
    + rewrite decide_False by done. by rewrite IH.
Qed.

Lemma size_set_pos k v m : 1 ≤ size (set k v m).
Proof.
  unfold size. destruct m as [|[k0 v0] m]; simpl; [lia|].
  case_decide; simpl; lia.
Qed.

Lemma size_set_le k v m : size (set k v m) ≤ S (size m).
Proof. rewrite size_set. destruct (has k m); lia. Qed.

Lemma keys_set_set k v m :
  list_to_set (C := gset string) (keys (set k v m))
  = {[k]} ∪ list_to_set (keys m).
Proof.
  rewrite keys_set. destruct (has k m) eqn:Hh.
  - apply has_true in Hh as [v' Hv']. apply get_Some_elem in Hv'.
    assert (k ∈ keys m) by (apply list_elem_of_fmap; by exists (k, v')).
    set_solver.
  - rewrite list_to_set_app_L. set_solver.
Qed.

Lemma keys_delete_set k m :
  list_to_set (C := gset string) (keys (delete k m))
  = list_to_set (keys m) ∖ {[k]}.
Proof.
  rewrite keys_delete. apply set_eq. intros x.
  rewrite elem_of_difference, !elem_of_list_to_set, list_elem_of_filter.
  set_solver.
Qed.

Lemma size_0_empty m : size m = 0 → m = empty.
Proof. by destruct m. Qed.

End Facts.
End JsMapFacts.

(** ** The hub *)

Module HubSpec.
Import Hub JsMapFacts.

(** *** The registry invariant *)

Lemma registry_ok_init : registry_ok (roomMembers init).
Proof. split; [apply wf_empty | constructor]. Qed.

Lemma get_room_ok m roomId users :
  registry_ok m → JsMap.get roomId m = Some users → room_ok (roomId, users).
Proof.
  intros [_ Hall] Hget. apply get_Some_elem in Hget.
  by eapply Forall_forall in Hall.
Qed.

Lemma join_registry_ok sid roomId uid uuid st :
  registry_ok (roomMembers st) →
  registry_ok (roomMembers (on_join_room sid roomId uid uuid st).1).
Proof.
  intros Hok. unfold on_join_room.
  destruct (JsMap.has roomId (roomMembers st)) eqn:Hhas.
  - apply has_true in Hhas as [users Husers]. rewrite Husers. simpl.
    case_decide as Hfull; simpl; [done|].
    destruct (get_room_ok _ _ _ Hok Husers) as [Hwf Hsize]. simpl in *.
    destruct Hok as [Hwfm Hall]. split; [by apply wf_set|].
    apply Forall_set; [done|]. split; simpl.
    + by apply wf_set.
    + set (member := {| userId := uid; socketId := sid; peerId := uuid |}).
      pose proof (size_set_pos sid member users).
      pose proof (size_set_le sid member users).
      lia.
  - rewrite get_set_eq. simpl. rewrite set_set. destruct Hok as [Hwfm Hall].
    split; [by apply wf_set|]. apply Forall_set; [done|].
    split; simpl; [|unfold JsMap.size; simpl; lia].
    apply (wf_set sid _ JsMap.empty), wf_empty.
Qed.

Lemma shrink_registry_ok sid roomId users m :
  registry_ok m → JsMap.wf users → JsMap.size users ≤ 10 →
  registry_ok
    (if decide (JsMap.size (JsMap.delete sid users) = 0)
     then JsMap.delete roomId (JsMap.set roomId (JsMap.delete sid users) m)
     else JsMap.set roomId (JsMap.delete sid users) m).
Proof.
  intros [Hwfm Hall] Hwf Hsize. case_decide as Hempty.
  - rewrite delete_set. split; [by apply wf_delete | by apply Forall_delete].
  - split; [by apply wf_set|]. apply Forall_set; [done|].
    split; simpl; [by apply wf_delete|].
    pose proof (size_delete_le sid users). lia.
Qed.

Lemma leave_registry_ok sid roomId uid st :
  registry_ok (roomMembers st) →
  registry_ok (roomMembers (on_leave_room sid roomId uid st).1).
Proof.
  intros Hok. unfold on_leave_room. simpl.
  destruct (JsMap.get roomId (roomMembers st)) as [users|] eqn:Husers; [|done].
  destruct (get_room_ok _ _ _ Hok Husers) as [Hwf Hsize]. simpl in *.
  apply shrink_registry_ok; [done | done | lia].
Qed.

Lemma disconnect_room_registry_ok sid a acc entry :
  registry_ok acc.1 → room_ok entry →
  registry_ok (disconnect_room sid a acc entry).1.
Proof.
  destruct acc as [m out], entry as [roomId users]. simpl.
  intros Hok [Hwf Hsize]. simpl in *.
  destruct (JsMap.has sid users); [|done].
  pose proof (shrink_registry_ok sid roomId users m Hok Hwf ltac:(lia)) as Hs.
  by case_decide.
Qed.

Lemma disconnect_registry_ok sid st :
  registry_ok (roomMembers st) →
  registry_ok (roomMembers (on_disconnect sid st).1).
Proof.
  intros Hok. unfold on_disconnect.
  set (a := adapter_leave_all sid (rooms st)).
  assert (Hgen : ∀ l acc, Forall room_ok l → registry_ok acc.1 →
            registry_ok (foldl (disconnect_room sid a) acc l).1).
  { induction l as [|e l IH]; intros acc Hl Hacc; simpl; [done|].
    inversion Hl; subst. apply IH; [done|].
    by apply disconnect_room_registry_ok. }
  specialize (Hgen (roomMembers st) (roomMembers st, []) (proj2 Hok) Hok).
  by destruct (foldl _ _ _).
Qed.

Lemma handle_registry_ok sid ev st :
  registry_ok (roomMembers st) →
  registry_ok (roomMembers (handle sid ev st).1).
Proof.
  intros Hok. destruct ev; cbn [handle]; try done.
  - by apply join_registry_ok.
  - by apply leave_registry_ok.
  - by apply disconnect_registry_ok.
Qed.

Lemma run_registry_ok evs st :
  registry_ok (roomMembers st) → registry_ok (roomMembers (run evs st).1).
Proof.
  revert st. induction evs as [|[sid ev] evs IH]; intros st Hok; simpl; [done|].
  pose proof (handle_registry_ok sid ev st Hok) as H1.
  destruct (handle sid ev st) as [st1 out1]. simpl in H1.
  specialize (IH st1 H1). by destruct (run evs st1).
Qed.

(** Claim C1.  Whatever events the server has handled ([join-room],
    [leave-room], [disconnect], and the relayed ones, which leave the
    registry alone), every room in the registry has distinct members, at
    least one and at most ten of them: a room is never over capacity, and
    a room that lost its last member is gone from the registry when the
    handler returns. *)
Theorem room_sizes_bounded (evs : list (string * ClientEvent)) :
  JsMap.wf (roomMembers (run evs init).1) ∧
  Forall (λ entry, JsMap.wf entry.2 ∧ 1 ≤ JsMap.size entry.2 ≤ 10)
    (roomMembers (run evs init).1).
Proof. apply (run_registry_ok evs init), registry_ok_init. Qed.

(** *** The loop of [disconnect] in closed form *)

Lemma get_omap {V} (f : string * V → option (string * V)) k (m : JsMap.t V) :
  (∀ e e', f e = Some e' → e'.1 = e.1) → JsMap.wf m →
  JsMap.get k (omap f m) = JsMap.get k m ≫= λ v, snd <$> f (k, v).
Proof.
  intros Hf. unfold JsMap.wf, JsMap.keys.
  induction m as [|[k0 v0] m IH]; csimpl; [done|].
  rewrite NoDup_cons. intros [Hnotin Hnd].
  destruct (f (k0, v0)) as [[k1 v1]|] eqn:Hfe; csimpl.
  - apply Hf in Hfe as Hk. simpl in Hk. subst k1.
    case_decide as H0; csimpl; [subst; by rewrite Hfe | by apply IH].
  - case_decide as H0; csimpl; [|by apply IH].
    subst k0. rewrite Hfe. csimpl.
    rewrite IH by done.
    assert (JsMap.get k m = None) as -> by by apply get_None_keys.
    done.
Qed.

Lemma swept_key sid e e' : swept sid e = Some e' → e'.1 = e.1.
Proof.
  unfold swept. destruct (JsMap.has sid e.2); [|by intros [= <-]].
  case_decide; [done | by intros [= <-]].
Qed.

Lemma keys_omap_swept sid (m : JsMap.t (JsMap.t Member)) :
  JsMap.keys (omap (swept sid) m) ⊆ JsMap.keys m.
Proof.
  unfold JsMap.keys. induction m as [|e m IH]; csimpl; [done|].
  destruct (swept sid e) as [e'|] eqn:He; csimpl.
  - apply swept_key in He as ->. set_solver.
  - set_solver.
Qed.

Lemma foldl_disconnect_room sid a rest : ∀ pre out,
  JsMap.wf (pre ++ rest) →
  foldl (disconnect_room sid a) (pre ++ rest, out) rest =
  (pre ++ omap (swept sid) rest,
   out ++ (user_left_notice sid a <$>
             filter (λ e, JsMap.has sid e.2 = true) rest)).
Proof.
  unfold JsMap.wf, JsMap.keys.
  induction rest as [|[roomId users] rest IH]; intros pre out Hnd; csimpl.
  - by rewrite !app_nil_r.
  - rewrite fmap_app, fmap_cons in Hnd. simpl in Hnd.
    apply NoDup_app in Hnd as (Hpre & Hdisj & Hrest).
    apply NoDup_cons in Hrest as [Hnotin Hrest].
    assert (roomId ∉ JsMap.keys pre) as Hnotpre.
    { intros Hin. eapply Hdisj; [exact Hin|]. rewrite elem_of_cons. by left. }
    rewrite filter_cons. unfold swept at 1. simpl.
    destruct (JsMap.has sid users) eqn:Hhas.
    + rewrite (decide_True (P := true = true)) by done.
      rewrite set_app_r by done. simpl.
      rewrite (decide_True (P := roomId = roomId)) by done.
      case_decide as Hempty.
      * rewrite delete_app. rewrite (delete_notin roomId pre) by done.
        simpl. rewrite (decide_True (P := roomId = roomId)) by done.
        rewrite (delete_notin roomId rest) by done.
        rewrite IH.
        -- by rewrite <- app_assoc.
        -- rewrite fmap_app. apply NoDup_app. split_and!; [done| |done].
           intros x Hx Hx'. eapply Hdisj; [exact Hx|].
           rewrite elem_of_cons. by right.
      * replace (pre ++ (roomId, JsMap.delete sid users) :: rest)
          with ((pre ++ [(roomId, JsMap.delete sid users)]) ++ rest)
          by by rewrite <- app_assoc.
        rewrite IH.
        -- by rewrite <- !app_assoc.
        -- rewrite !fmap_app. simpl. rewrite <- app_assoc. simpl.
           apply NoDup_app. split_and!; [done|done|].
           by apply NoDup_cons.
    + rewrite (decide_False (P := false = true)) by done.
      replace (pre ++ (roomId, users) :: rest)
        with ((pre ++ [(roomId, users)]) ++ rest)
        by by rewrite <- app_assoc.
      rewrite IH.
      * by rewrite <- !app_assoc.
      * rewrite !fmap_app. simpl. rewrite <- app_assoc. simpl.
        apply NoDup_app. split_and!; [done|done|].
        by apply NoDup_cons.
Qed.

Lemma on_disconnect_unfold sid st :
  JsMap.wf (roomMembers st) →
  on_disconnect sid st =
  ({| roomMembers := omap (swept sid) (roomMembers st);
      rooms := adapter_leave_all sid (rooms st) |},
   user_left_notice sid (adapter_leave_all sid (rooms st)) <$>
     filter (λ e, JsMap.has sid e.2 = true) (roomMembers st)).
Proof.
  intros Hwf. unfold on_disconnect.
  by rewrite (foldl_disconnect_room sid _ (roomMembers st) [] []).
Qed.

(** *** The handlers in closed form *)

Lemma on_join_room_unfold sid roomId uid uuid st :
  let users := default JsMap.empty (JsMap.get roomId (roomMembers st)) in
  let member := {| userId := uid; socketId := sid; peerId := uuid |} in
  on_join_room sid roomId uid uuid st =
  if decide (10 ≤ JsMap.size users) then
    (st, [Emit sid (ev_error "Room is full")])
  else
    ({| roomMembers :=
          JsMap.set roomId (JsMap.set sid member users) (roomMembers st);
        rooms := adapter_join sid roomId (rooms st) |}, []).
Proof.
  intros users member. unfold on_join_room.
  destruct (JsMap.has roomId (roomMembers st)) eqn:Hhas.
  - fold users. case_decide; [by destruct st | done].
  - apply has_false in Hhas. subst users. rewrite Hhas, get_set_eq. simpl.
    by rewrite set_set.
Qed.

Lemma on_leave_room_registry sid roomId uid st r :
  JsMap.get r (roomMembers (on_leave_room sid roomId uid st).1) =
  if decide (r = roomId) then
    match JsMap.get roomId (roomMembers st) with
    | Some users =>
        if decide (JsMap.size (JsMap.delete sid users) = 0) then None
        else Some (JsMap.delete sid users)
    | None => None
    end
  else JsMap.get r (roomMembers st).
Proof.
  unfold on_leave_room. simpl.
  destruct (JsMap.get roomId (roomMembers st)) as [users|] eqn:Husers.
  - destruct (decide (r = roomId)) as [->|Hr].
    + case_decide.
      * apply get_delete_eq.
      * apply get_set_eq.
    + case_decide.
      * rewrite get_delete_ne, get_set_ne by done. done.
      * by rewrite get_set_ne.
  - destruct (decide (r = roomId)) as [->|Hr]; done.
Qed.

Lemma on_disconnect_registry sid st r :
  JsMap.wf (roomMembers st) →
  JsMap.get r (roomMembers (on_disconnect sid st).1) =
  match JsMap.get r (roomMembers st) with
  | Some users =>
      if JsMap.has sid users then
        if decide (JsMap.size (JsMap.delete sid users) = 0) then None
        else Some (JsMap.delete sid users)
      else Some users
  | None => None
  end.
Proof.
  intros Hwf. rewrite on_disconnect_unfold by done. simpl.
  rewrite get_omap; [|apply swept_key|done].
  destruct (JsMap.get r (roomMembers st)) as [users|]; [|done].
  simpl. unfold swept. simpl.
  destruct (JsMap.has sid users); [|done]. by case_decide.
Qed.

(** *** The adapter's rooms hold the registry's rooms *)

Lemma without_default sid g : default ∅ (without sid g) = g ∖ {[sid]}.
Proof. unfold without. case_decide as He; simpl; [by rewrite He | done]. Qed.

Lemma adapter_join_lookup sid roomId a r :
  default ∅ (adapter_join sid roomId a !! r) =
  if decide (r = roomId) then {[sid]} ∪ default ∅ (a !! r)
  else default ∅ (a !! r).
Proof.
  unfold adapter_join. destruct (decide (r = roomId)) as [->|Hr].
  - by rewrite lookup_insert_eq.
  - by rewrite lookup_insert_ne.
Qed.

Lemma adapter_leave_lookup sid roomId a r :
  default ∅ (adapter_leave sid roomId a !! r) =
  if decide (r = roomId) then default ∅ (a !! r) ∖ {[sid]}
  else default ∅ (a !! r).
Proof.
  unfold adapter_leave.
  destruct (a !! roomId) as [g|] eqn:Hg.
  - pose proof (without_default sid g) as Hw.
    destruct (without sid g) as [g'|]; simpl in Hw.
    + destruct (decide (r = roomId)) as [->|Hr].
      * by rewrite lookup_insert_eq, Hg, Hw.
      * by rewrite lookup_insert_ne.
    + destruct (decide (r = roomId)) as [->|Hr].
      * by rewrite lookup_delete_eq, Hg, Hw.
      * by rewrite lookup_delete_ne.
  - destruct (decide (r = roomId)) as [->|Hr]; [|done].
    rewrite Hg. simpl. set_solver.
Qed.

Lemma adapter_leave_all_lookup sid a r :
  default ∅ (adapter_leave_all sid a !! r) = default ∅ (a !! r) ∖ {[sid]}.
Proof.
  unfold adapter_leave_all. rewrite lookup_omap.
  destruct (a !! r) as [g|]; simpl; [apply without_default | set_solver].
Qed.

Lemma members_of_eq roomId st :
  members_of roomId st =
  match JsMap.get roomId (roomMembers st) with
  | Some users => list_to_set (JsMap.keys users)
  | None => ∅
  end.
Proof. unfold members_of. by destruct (JsMap.get roomId (roomMembers st)). Qed.

Lemma shrunk_members sid (users : JsMap.t Member) :
  match (if decide (JsMap.size (JsMap.delete sid users) = 0) then None
         else Some (JsMap.delete sid users)) with
  | Some users' => list_to_set (JsMap.keys users')
  | None => ∅
  end = (list_to_set (JsMap.keys users) : gset string) ∖ {[sid]}.
Proof.
  rewrite <- keys_delete_set. case_decide as He; [|done].
  by rewrite (size_0_empty _ He).
Qed.

Lemma connection_adapter_ok sid st :
  adapter_ok st → adapter_ok (on_connection sid st).1.
Proof.
  intros Hok r. destruct (Hok r) as [Hlo Hhi]. unfold on_connection. simpl.
  rewrite adapter_join_lookup. unfold members_of in *. simpl.
  destruct (decide (r = sid)) as [->|Hr]; set_solver.
Qed.

Lemma join_adapter_ok sid roomId uid uuid st :
  adapter_ok st → adapter_ok (on_join_room sid roomId uid uuid st).1.
Proof.
  intros Hok r. destruct (Hok r) as [Hlo Hhi].
  rewrite on_join_room_unfold. simpl.
  case_decide; [done|]. simpl.
  rewrite adapter_join_lookup. unfold members_of in *. simpl.
  destruct (decide (r = roomId)) as [->|Hr].
  - rewrite get_set_eq. simpl. rewrite keys_set_set. set_solver.
  - by rewrite get_set_ne by done.
Qed.

Lemma leave_adapter_ok sid roomId uid st :
  adapter_ok st → adapter_ok (on_leave_room sid roomId uid st).1.
Proof.
  intros Hok r. destruct (Hok r) as [Hlo Hhi]. revert Hlo Hhi.
  rewrite !members_of_eq, on_leave_room_registry.
  unfold on_leave_room at 1 2. simpl. rewrite adapter_leave_lookup.
  destruct (decide (r = roomId)) as [->|Hr]; [|done].
  destruct (JsMap.get roomId (roomMembers st)) as [users|].
  - rewrite shrunk_members. set_solver.
  - set_solver.
Qed.

Lemma disconnect_adapter_ok sid st :
  JsMap.wf (roomMembers st) →
  adapter_ok st → adapter_ok (on_disconnect sid st).1.
Proof.
  intros Hwf Hok r. destruct (Hok r) as [Hlo Hhi]. revert Hlo Hhi.
  rewrite !members_of_eq, on_disconnect_registry by done.
  rewrite on_disconnect_unfold by done. simpl.
  rewrite adapter_leave_all_lookup.
  destruct (JsMap.get r (roomMembers st)) as [users|]; [|set_solver].
  destruct (JsMap.has sid users) eqn:Hhas.
  - rewrite shrunk_members. set_solver.
  - apply has_false, get_None_keys in Hhas.
    assert (sid ∉ (list_to_set (JsMap.keys users) : gset string))
      by by rewrite elem_of_list_to_set.
    set_solver.
Qed.

Lemma state_ok_init : state_ok init.
Proof. split; [apply registry_ok_init | by intros r] . Qed.

Lemma handle_state_ok sid ev st : state_ok st → state_ok (handle sid ev st).1.
Proof.
  intros [Hreg Had]. split; [by apply handle_registry_ok|].
  destruct ev; cbn [handle]; try done.
  - by apply connection_adapter_ok.
  - by apply join_adapter_ok.
  - by apply leave_adapter_ok.
  - apply disconnect_adapter_ok; [apply Hreg | done].
Qed.

Lemma run_state_ok evs st : state_ok st → state_ok (run evs st).1.
Proof.
  revert st. induction evs as [|[sid ev] evs IH]; intros st Hok; simpl; [done|].
  pose proof (handle_state_ok sid ev st Hok) as H1.
  destruct (handle sid ev st) as [st1 out1]. simpl in H1.
  specialize (IH st1 H1). by destruct (run evs st1).
Qed.

(** *** Joining a full room *)

(** Claim C2.  When the room has ten members and the socket is not one
    of them, [join-room] makes one delivery, the event [error] with the
    message "Room is full", to the joining socket, and the state of the
    server is the one before: the registry has no new member, the room
    keeps its ten, the socket is not put into the broadcast room of the
    adapter, and no [room-joined] or [user-joined] goes out. *)
Theorem join_full_room sid roomId uid uuid st users :
  JsMap.get roomId (roomMembers st) = Some users →
  JsMap.size users = 10 →
  JsMap.has sid users = false →
  on_join_room sid roomId uid uuid st =
  (st, [Emit sid (ev_error "Room is full")]).
Proof.
  intros Hget Hsize _. rewrite on_join_room_unfold. simpl.
  rewrite Hget. simpl. rewrite decide_True by lia. done.
Qed.

(** The eleventh join of Scenario B. *)
Lemma join_full_room_witness :
  JsMap.keys <$> JsMap.get "R2" (roomMembers full_room) =
    Some ["s0"; "s1"; "s2"; "s3"; "s4"; "s5"; "s6"; "s7"; "s8"; "s9"] ∧
  on_join_room "s10" "R2" "u10" "p10" full_room =
  (full_room, [Emit "s10" (ev_error "Room is full")]).
Proof.
  split; [reflexivity|].
  apply (join_full_room "s10" "R2" "u10" "p10" full_room
           (default JsMap.empty (JsMap.get "R2" (roomMembers full_room))));
    reflexivity.
Defined.

(** *** Relaying *)

Lemma recipients_bounds st roomId sid :
  adapter_ok st →
  members_of roomId st ∖ {[sid]} ⊆ recipients (rooms st) roomId sid ∧
  (sid ∉ recipients (rooms st) roomId sid) ∧
  recipients (rooms st) roomId sid ⊆ members_of roomId st ∪ {[roomId]}.
Proof.
  intros Hok. destruct (Hok roomId) as [Hlo Hhi]. unfold recipients.
  set_solver.
Qed.

(** Claim C5.  In every state the server reaches, an [offer], [answer]
    or [ice-candidate] sent by a member [sid] of the room [roomId] is
    forwarded in one broadcast to the room.  Its recipients hold every
    other member of the room and never the sender; the only socket they
    can hold that is not a member is the one whose id is the room's
    name, which Socket.IO keeps in the room of that name.  The recipients
    are the same for the three events, whatever the payload and
    [targetPeerId]; the event forwarded carries the payload as received,
    [from] is [sid], and [targetPeerId] is the one received. *)
Theorem relay_to_other_members evs sid roomId users :
  JsMap.get roomId (roomMembers (run evs init).1) = Some users →
  JsMap.has sid users = true →
  ∃ to : gset string,
    list_to_set (JsMap.keys users) ∖ {[sid]} ⊆ to ∧
    (sid ∉ to) ∧
    to ⊆ list_to_set (JsMap.keys users) ∪ {[roomId]} ∧
    ∀ target the_offer the_answer the_candidate,
      on_offer sid roomId the_offer target (run evs init).1 =
        ((run evs init).1,
         [Broadcast roomId sid to (ev_offer the_offer sid target)]) ∧
      on_answer sid roomId the_answer target (run evs init).1 =
        ((run evs init).1,
         [Broadcast roomId sid to (ev_answer the_answer sid target)]) ∧
      on_ice_candidate sid roomId the_candidate target (run evs init).1 =
        ((run evs init).1,
         [Broadcast roomId sid to
            (ev_ice_candidate the_candidate sid target)]).
Proof.
  intros Hget _.
  pose proof (run_state_ok evs init state_ok_init) as [_ Had].
  pose proof (recipients_bounds _ roomId sid Had) as Hb.
  rewrite members_of_eq, Hget in Hb. destruct Hb as (Hlo & Hsid & Hhi).
  exists (recipients (rooms (run evs init).1) roomId sid).
  by split_and!.
Qed.

(** [a] sends to the room it shares with [b] and [c]. *)
Lemma relay_to_other_members_witness :
  JsMap.get "R1" (roomMembers (run alice_bob_carol init).1) =
    Some [("a", {| userId := "alice"; socketId := "a"; peerId := "pa" |});
          ("b", {| userId := "bob"; socketId := "b"; peerId := "pb" |});
          ("c", {| userId := "carol"; socketId := "c"; peerId := "pc" |})] ∧
  ∃ to : gset string,
    list_to_set ["a"; "b"; "c"] ∖ {["a"]} ⊆ to ∧
    ("a" ∉ to) ∧
    to ⊆ list_to_set ["a"; "b"; "c"] ∪ {["R1"]} ∧
    ∀ target the_offer the_answer the_candidate,
      on_offer "a" "R1" the_offer target (run alice_bob_carol init).1 =
        ((run alice_bob_carol init).1,
         [Broadcast "R1" "a" to (ev_offer the_offer "a" target)]) ∧
      on_answer "a" "R1" the_answer target (run alice_bob_carol init).1 =
        ((run alice_bob_carol init).1,
         [Broadcast "R1" "a" to (ev_answer the_answer "a" target)]) ∧
      on_ice_candidate "a" "R1" the_candidate target
          (run alice_bob_carol init).1 =
        ((run alice_bob_carol init).1,
         [Broadcast "R1" "a" to (ev_ice_candidate the_candidate "a" target)]).
Proof.
  split; [reflexivity|].
  apply (relay_to_other_members alice_bob_carol "a" "R1"
           [("a", {| userId := "alice"; socketId := "a"; peerId := "pa" |});
            ("b", {| userId := "bob"; socketId := "b"; peerId := "pb" |});
            ("c", {| userId := "carol"; socketId := "c"; peerId := "pc" |})]);
    reflexivity.
Defined.

(** The room named by the id of a connected socket holds that socket:
    [a], the one member of the room [b], sends an offer to it and the
    socket [b], which never joined, is the recipient. *)
Example relay_reaches_the_socket_of_that_name :
  let st := (run ([("b", connection)] ++ joins "a" "b" "alice" "pa") init).1 in
  members_of "b" st = {["a"]} ∧
  on_offer "a" "b" some_offer None st =
    (st, [Broadcast "b" "a" {["b"]} (ev_offer some_offer "a" None)]).
Proof. by vm_compute. Qed.

(** *** Disconnecting *)

Lemma filter_key {V} k (m : JsMap.t V) :
  JsMap.wf m →
  filter (λ e, e.1 = k) m =
  match JsMap.get k m with Some v => [(k, v)] | None => [] end.
Proof.
  unfold JsMap.wf, JsMap.keys.
  induction m as [|[k0 v0] m IH]; [done|].
  rewrite fmap_cons, NoDup_cons, filter_cons. cbn [JsMap.get fst].
  intros [Hnotin Hnd].
  destruct (decide (k0 = k)) as [->|Hne].
  - rewrite IH by done.
    assert (JsMap.get k m = None) as -> by by apply get_None_keys.
    done.
  - by apply IH.
Qed.

Lemma count_user_left sid a roomId (m : JsMap.t (JsMap.t Member)) :
  length (filter (λ d, is_user_left_to roomId d = true)
            (user_left_notice sid a <$>
               filter (λ e, JsMap.has sid e.2 = true) m)) =
  length (filter (λ e, JsMap.has sid e.2 = true) (filter (λ e, e.1 = roomId) m)).
Proof.
  induction m as [|[r users] m IH]; [done|].
  rewrite (filter_cons (λ e, JsMap.has sid e.2 = true)).
  rewrite (filter_cons (λ e, e.1 = roomId)). simpl.
  destruct (JsMap.has sid users) eqn:Hhas.
  - rewrite (decide_True (P := true = true)) by done.
    rewrite fmap_cons, filter_cons. simpl.
    destruct (decide (r = roomId)) as [->|Hne].
    + rewrite bool_decide_eq_true_2 by done.
      rewrite (decide_True (P := true = true)) by done.
      rewrite filter_cons. simpl. rewrite Hhas.
      rewrite (decide_True (P := true = true)) by done. simpl. by rewrite IH.
    + rewrite bool_decide_eq_false_2 by done.
      rewrite (decide_False (P := false = true)) by done. done.
  - rewrite (decide_False (P := false = true)) by done.
    destruct (decide (r = roomId)) as [->|Hne]; [|done].
    rewrite filter_cons. simpl. rewrite Hhas.
    rewrite (decide_False (P := false = true)) by done. done.
Qed.

(** Claim C6.  The handler of [disconnect] of the socket [sid] makes
    one [user-left] broadcast for every room of the registry that holds
    [sid], in the order of the registry, and nothing else: for any room
    the number of [user-left] broadcasts to it is one when the room held
    [sid] and zero otherwise.  In the registry it leaves, a room that
    held [sid] has lost that member, and is gone when it was the last
    one; the other rooms are as before; no room holds [sid]. *)
Theorem disconnect_leaves_every_room sid st :
  JsMap.wf (roomMembers st) →
  (on_disconnect sid st).2 =
    (λ e, Broadcast e.1 sid
            (recipients (adapter_leave_all sid (rooms st)) e.1 sid)
            (ev_user_left (userId_or_unknown (JsMap.get sid e.2)) sid)) <$>
      filter (λ e, JsMap.has sid e.2 = true) (roomMembers st) ∧
  (∀ roomId,
     length (filter (λ d, is_user_left_to roomId d = true)
               (on_disconnect sid st).2) =
     match JsMap.get roomId (roomMembers st) with
     | Some users => if JsMap.has sid users then 1 else 0
     | None => 0
     end) ∧
  (∀ roomId,
     JsMap.get roomId (roomMembers (on_disconnect sid st).1) =
     match JsMap.get roomId (roomMembers st) with
     | Some users =>
         if JsMap.has sid users then
           if decide (JsMap.size (JsMap.delete sid users) = 0) then None
           else Some (JsMap.delete sid users)
         else Some users
     | None => None
     end) ∧
  (∀ roomId users,
     JsMap.get roomId (roomMembers (on_disconnect sid st).1) = Some users →
     JsMap.has sid users = false).
Proof.
  intros Hwf. split_and!.
  - by rewrite on_disconnect_unfold.
  - intros roomId. rewrite on_disconnect_unfold by done. simpl.
    rewrite count_user_left, filter_key by done.
    destruct (JsMap.get roomId (roomMembers st)) as [users|]; [|done].
    rewrite filter_cons. simpl.
    destruct (JsMap.has sid users); [|done].
    by rewrite (decide_True (P := true = true)).
  - intros roomId. by apply on_disconnect_registry.
  - intros roomId users. rewrite on_disconnect_registry by done.
    destruct (JsMap.get roomId (roomMembers st)) as [users0|]; [|done].
    destruct (JsMap.has sid users0) eqn:Hhas.
    + case_decide as He; [done|]. intros [= <-].
      apply has_false, get_delete_eq.
    + by intros [= <-].
Qed.

(** [b] is in [R1] with two others and alone in [R3]. *)
Lemma disconnect_leaves_every_room_witness :
  JsMap.wf (roomMembers three_in_R1) ∧
  (on_disconnect "b" three_in_R1).2 =
    [Broadcast "R1" "b" {["a"; "c"]} (ev_user_left "bob" "b");
     Broadcast "R3" "b" ∅ (ev_user_left "bob" "b")] ∧
  JsMap.get "R3" (roomMembers (on_disconnect "b" three_in_R1).1) = None.
Proof.
  assert (Hwf : JsMap.wf (roomMembers three_in_R1)).
  { apply (bool_decide_unpack _). vm_compute. exact I. }
  destruct (disconnect_leaves_every_room "b" three_in_R1 Hwf)
    as (Hout & _ & Hreg & _).
  split; [exact Hwf|]. split.
  - rewrite Hout. vm_compute. reflexivity.
  - rewrite Hreg. reflexivity.
Defined.

(** *** Leaving twice *)

(** A [leave-room] of a socket that is not in the room leaves the state
    as it is, and broadcasts all the same. *)
Lemma leave_room_absent sid roomId uid st :
  (∀ users, JsMap.get roomId (roomMembers st) = Some users →
            JsMap.get sid users = None ∧ JsMap.size users ≠ 0) →
  (∀ g, rooms st !! roomId = Some g → (sid ∉ g) ∧ g ≠ ∅) →
  on_leave_room sid roomId uid st =
  (st, [Broadcast roomId sid (recipients (rooms st) roomId sid)
          (ev_user_left uid sid)]).
Proof.
  intros Hreg Hrooms.
  assert (Ha : adapter_leave sid roomId (rooms st) = rooms st).
  { unfold adapter_leave. destruct (rooms st !! roomId) as [g|] eqn:Hg; [|done].
    destruct (Hrooms g eq_refl) as [Hnotin Hne].
    assert (Hsame : g ∖ {[sid]} = g) by set_solver.
    unfold without. rewrite Hsame, decide_False by done.
    by apply insert_id. }
  unfold on_leave_room. rewrite Ha.
  destruct (JsMap.get roomId (roomMembers st)) as [users|] eqn:Hget.
  - destruct (Hreg users eq_refl) as [Hnotin Hne].
    rewrite (delete_absent sid users) by done.
    rewrite decide_False by done. rewrite set_same by done. by destruct st.
  - by destruct st.
Qed.

(** So does a second [leave-room]: the state stays, the broadcast is
    made again. *)
Lemma leave_room_twice sid roomId uid st :
  on_leave_room sid roomId uid (on_leave_room sid roomId uid st).1 =
  ((on_leave_room sid roomId uid st).1,
   [Broadcast roomId sid
      (recipients (rooms (on_leave_room sid roomId uid st).1) roomId sid)
      (ev_user_left uid sid)]).
Proof.
  apply leave_room_absent.
  - intros users. rewrite on_leave_room_registry, decide_True by done.
    destruct (JsMap.get roomId (roomMembers st)) as [users0|]; [|done].
    case_decide; [done|]. intros [= <-]. split; [apply get_delete_eq | done].
  - intros g. unfold on_leave_room. simpl. unfold adapter_leave.
    destruct (rooms st !! roomId) as [g0|] eqn:Hg0.
    + unfold without. case_decide as He.
      * by rewrite lookup_delete_eq.
      * rewrite lookup_insert_eq. intros [= <-]. split; [set_solver | done].
    + by rewrite Hg0.
Qed.

(** Claim C4, on the code.  [a], [b] and [c] are in [R1].  The first
    [leave-room] of [a] for [R1] takes [a] out and broadcasts [user-left]
    to [b] and [c].  The second one leaves the state as it is, and
    broadcasts [user-left] for [a] to [b] and [c] a second time: line 268
    emits whether or not the socket was a member, where the handler of
    [disconnect] emits under [users.has(socket.id)] only. *)
Theorem second_leave_broadcasts_again :
  on_leave_room "a" "R1" "alice" three_in_R1 =
  (after_first_leave,
   [Broadcast "R1" "a" {["b"; "c"]} (ev_user_left "alice" "a")]) ∧
  JsMap.get "R1" (roomMembers after_first_leave) =
    Some [("b", {| userId := "bob"; socketId := "b"; peerId := "pb" |});
          ("c", {| userId := "carol"; socketId := "c"; peerId := "pc" |})] ∧
  on_leave_room "a" "R1" "alice" after_first_leave =
  (after_first_leave,
   [Broadcast "R1" "a" {["b"; "c"]} (ev_user_left "alice" "a")]).
Proof. split_and!; vm_compute; reflexivity. Qed.

(** *** Scenario A of the specification, on the hub *)

Example alice_then_bob :
  (run (joins "a" "R1" "alice" "pa" ++ joins "b" "R1" "bob" "pb") init).2 =
  [Broadcast "R1" "a" ∅ (ev_user_joined "alice" "pa" "a");
   Emit "a" (ev_room_joined "R1" []);
   Broadcast "R1" "b" {["a"]} (ev_user_joined "bob" "pb" "b");
   Emit "b"
     (ev_room_joined "R1"
        [{| userId := "alice"; socketId := "a"; peerId := "pa" |}])].
Proof. vm_compute. reflexivity. Qed.

(** The same two joins when the [join-room] of [b] arrives while the
    one of [a] waits for the database: each of the two is told of the
    other in both events. *)
Example bob_joins_while_alice_waits :
  (run [("a", connection); ("b", connection);
        ("a", join_room "R1" "alice" "pa"); ("b", join_room "R1" "bob" "pb");
        ("a", join_room_resumes "R1" "alice" "pa" true);
        ("b", join_room_resumes "R1" "bob" "pb" true)]
     init).2 =
  [Broadcast "R1" "a" {["b"]} (ev_user_joined "alice" "pa" "a");
   Emit "a"
     (ev_room_joined "R1"
        [{| userId := "bob"; socketId := "b"; peerId := "pb" |}]);
   Broadcast "R1" "b" {["a"]} (ev_user_joined "bob" "pb" "b");
   Emit "b"
     (ev_room_joined "R1"
        [{| userId := "alice"; socketId := "a"; peerId := "pa" |}])].
Proof. vm_compute. reflexivity. Qed.

End HubSpec.

(** ** The client *)

Module ClientSpec.
Import Client JsMapFacts.

Ltac run_M :=
  unfold mbind, mret, M_bind, M_ret, bind, ret, try_finally, try_catch,
    get_state, console, effect, isNegotiating_add,
    isNegotiating_delete, await_engine, await_createOffer in *.

(** *** Leaving peers *)

Lemma forEach_stop_track (s : MediaStream) (c : State) :
  ∃ h, forEach s stop_track c = (Normal tt, set_tracks h c, []).
Proof.
  revert c. induction s as [|r s IH]; intros c; simpl.
  - exists (tracks c). run_M. by destruct c.
  - run_M. unfold stop_track at 1.
    destruct (IH (set_tracks
                (alter (λ t, {| kind := kind t; enabled := enabled t;
                                ended := true |}) r (tracks c)) c))
      as [h ->].
    by exists h.
Qed.

Lemma find_first_match (uid : string) (before after : JsMap.t RemotePeer)
    (k : string) (p : RemotePeer) :
  Forall (λ e, userId e.2 ≠ uid) before → userId p = uid →
  find (λ p, userId p = uid) (JsMap.values (before ++ (k, p) :: after))
  = Some p.
Proof.
  intros Hb Hp. unfold find, JsMap.values.
  induction Hb as [|[k0 p0] before Hne Hb IH]; csimpl.
  - by rewrite bool_decide_eq_true_2.
  - by rewrite bool_decide_eq_false_2.
Qed.

Lemma find_no_match (uid : string) (m : JsMap.t RemotePeer) :
  Forall (λ e, userId e.2 ≠ uid) m →
  find (λ p, userId p = uid) (JsMap.values m) = None.
Proof.
  intros Hm. unfold find, JsMap.values.
  induction Hm as [|[k0 p0] m Hne Hm IH]; csimpl; [done|].
  by rewrite bool_decide_eq_false_2.
Qed.

Lemma find_Some_split (uid : string) (m : JsMap.t RemotePeer) p :
  find (λ p, userId p = uid) (JsMap.values m) = Some p →
  ∃ before k after,
    m = before ++ (k, p) :: after ∧
    Forall (λ e, userId e.2 ≠ uid) before ∧ userId p = uid.
Proof.
  unfold find, JsMap.values.
  induction m as [|[k0 p0] m IH]; csimpl; [done|].
  case_bool_decide as Hu.
  - intros [= ->]. by exists [], k0, m.
  - intros Hf. destruct (IH Hf) as (before & k & after & -> & Hb & Hp).
    exists ((k0, p0) :: before), k, after. split_and!; [done| |done].
    by constructor.
Qed.

Lemma delete_middle (before after : JsMap.t RemotePeer) p :
  JsMap.wf (before ++ (socketId p, p) :: after) →
  JsMap.delete (socketId p) (before ++ (socketId p, p) :: after)
  = before ++ after.
Proof.
  unfold JsMap.wf, JsMap.keys. rewrite fmap_app, fmap_cons. simpl.
  intros Hnd. apply NoDup_app in Hnd as (_ & Hdisj & Hnd).
  apply NoDup_cons in Hnd as [Hnotin _].
  rewrite delete_app. simpl. rewrite decide_True by done.
  rewrite !delete_notin; [done | done |].
  intros Hin. eapply Hdisj; [exact Hin|]. rewrite elem_of_cons. by left.
Qed.

Lemma removePeerConnection_unfold (uid : string) (c : State) :
  removePeerConnection uid c =
  match find (λ p, userId p = uid) (JsMap.values (remotePeers c)) with
  | Some peer =>
      let '(_, c1, _) :=
        match stream peer with
        | Some s => forEach s stop_track c
        | None => (Normal tt, c, [])
        end in
      (Normal tt,
       set_remotePeers (JsMap.delete (socketId peer) (remotePeers c)) c1,
       [Engine (socketId peer) call_close;
        Console console_log ["🗑️ Removed peer connection for " +:+ uid]])
  | None => (Normal tt, c, [])
  end.
Proof.
  unfold removePeerConnection. run_M.
  destruct (find _ _) as [peer|]; [|done]. simpl.
  destruct (stream peer) as [s|].
  - destruct (forEach_stop_track s c) as [h ->]. done.
  - done.
Qed.

(** Claim C8.  Handling [user-left{userId, socketId}] takes at most
    one session out of [remotePeers].  The result does not depend on the
    [socketId] of the event.  When no session has the [userId] nothing is
    removed and no connection is closed.  Otherwise the session removed
    (and closed) is the first one of the map with that [userId]; every
    other session stays, also a later session of the same user, whose
    socket may be the one that left. *)
Theorem user_left_removes_first_match (uid sid : string) (c : State) :
  sessions_ok (remotePeers c) →
  ∃ c' steps,
    on_user_left uid sid c = (Normal tt, c', steps) ∧
    (∀ sid', on_user_left uid sid' c = on_user_left uid sid c) ∧
    JsMap.size (remotePeers c') ≤ JsMap.size (remotePeers c) ∧
    JsMap.size (remotePeers c) ≤ S (JsMap.size (remotePeers c')) ∧
    (Forall (λ e, userId e.2 ≠ uid) (remotePeers c) →
       remotePeers c' = remotePeers c ∧
       ∀ s, Engine s call_close ∉ steps) ∧
    (∀ before p after,
       remotePeers c = before ++ (socketId p, p) :: after →
       Forall (λ e, userId e.2 ≠ uid) before → userId p = uid →
       remotePeers c' = before ++ after ∧
       (∀ s, Engine s call_close ∈ steps ↔ s = socketId p) ∧
       JsMap.get (socketId p) (remotePeers c') = None ∧
       (∀ s, s ≠ socketId p →
          JsMap.get s (remotePeers c') = JsMap.get s (remotePeers c))).
Proof.
  intros [Hwf Hkeys]. unfold on_user_left. run_M.
  rewrite removePeerConnection_unfold.
  destruct (find (λ p, userId p = uid) (JsMap.values (remotePeers c)))
    as [peer|] eqn:Hfind.
  - destruct (find_Some_split _ _ _ Hfind)
      as (before0 & k & after0 & Hsplit & Hbefore0 & Hpeer).
    assert (k = socketId peer) as ->.
    { rewrite Hsplit in Hkeys. apply Forall_app in Hkeys as [_ Hk].
      by inversion Hk. }
    assert (Hc1 : ∃ c1, match stream peer with
                        | Some s => forEach s stop_track c
                        | None => (Normal tt, c, [])
                        end = (Normal tt, c1, []) ∧
                        remotePeers c1 = remotePeers c).
    { destruct (stream peer) as [s0|].
      - destruct (forEach_stop_track s0 c) as [h ->]. by eexists.
      - by eexists. }
    destruct Hc1 as (c1 & -> & Hsame). simpl.
    eexists _, _. split; [reflexivity|]. simpl.
    assert (Hdel : JsMap.delete (socketId peer) (remotePeers c)
                   = before0 ++ after0).
    { rewrite Hsplit. apply (delete_middle before0 after0 peer).
      by rewrite <- Hsplit. }
    split_and!.
    + done.
    + rewrite Hdel, Hsplit. unfold JsMap.size. rewrite !length_app. simpl. lia.
    + rewrite Hdel, Hsplit. unfold JsMap.size. rewrite !length_app. simpl. lia.
    + intros Hnone. rewrite Hsplit in Hnone.
      apply Forall_app in Hnone as [_ Hnone].
      inversion Hnone; subst. done.
    + intros before p after Heq Hbefore Hp.
      assert (before = before0 ∧ p = peer ∧ after = after0) as (-> & -> & ->).
      { rewrite Hsplit in Heq.
        clear -Heq Hbefore Hp Hbefore0 Hpeer.
        revert before0 Heq Hbefore0.
        induction Hbefore as [|e before He Hbefore IH];
          intros before0 Heq Hbefore0.
        - destruct Hbefore0 as [|e0 before0 He0 Hbefore0];
            by simplify_eq/=.
        - destruct Hbefore0 as [|e0 before0 He0 Hbefore0];
            [by simplify_eq/=|].
          simpl in Heq. injection Heq as <- Heq.
          by destruct (IH _ Heq Hbefore0) as (-> & -> & ->). }
      split_and!.
      * done.
      * intros s. rewrite !elem_of_cons, elem_of_nil. naive_solver.
      * apply get_delete_eq.
      * intros s Hs. by apply get_delete_ne.
  - eexists _, _. split; [reflexivity|]. simpl. split_and!.
    + done.
    + done.
    + lia.
    + intros _. split; [done|]. intros s. set_solver.
    + intros before p after Heq Hbefore Hp.
      rewrite Heq, (find_first_match uid before after _ p) in Hfind by done.
      done.
Qed.

(** *** Negotiation *)

(** Claim C3, amended.  [createOffer] always returns.  When the
    session is being negotiated it changes nothing and makes no step but
    one console line.  Otherwise it first adds the socket id to
    [isNegotiating] and last deletes it, so that the set is afterwards as
    before; it asks the engine for an offer exactly when the signaling
    state is [stable] and the ICE connection state is [new]; it applies
    that offer locally when the engine made one; and it emits an
    [offer] exactly when both engine calls succeeded and the socket is
    set, for the room of the client, with [targetPeerId] the [peerId] of
    the session.  When both engine calls succeeded the session holds the
    connection as [setLocalDescription] left it, and the steps are the
    two calls, then the emit and its console line when the socket is
    set, between the two updates of [isNegotiating]; in every other case
    the client is as it was before the call, and when the guard fails no
    step is made between the two updates. *)
Theorem createOffer_guarded `{ConnectionEngine} (peer : RemotePeer)
    (c : State) :
  ∃ c' steps,
    createOffer peer c = (Normal tt, c', steps) ∧
    (socketId peer ∈ isNegotiating c →
       c' = c ∧
       steps = [Console console_log ["Already negotiating with:"; userId peer]]) ∧
    (socketId peer ∉ isNegotiating c →
       head steps = Some (NegotiatingAdd (socketId peer)) ∧
       last steps = Some (NegotiatingDelete (socketId peer)) ∧
       isNegotiating c' = isNegotiating c ∧
       (Engine (socketId peer) call_createOffer ∈ steps ↔
          signalingState (peerConnection peer) = stable ∧
          iceConnectionState (peerConnection peer) = ice_new) ∧
       (∀ d, Engine (socketId peer) (call_setLocalDescription d) ∈ steps ↔
          signalingState (peerConnection peer) = stable ∧
          iceConnectionState (peerConnection peer) = ice_new ∧
          engine_createOffer (peerConnection peer) = inr d) ∧
       (∀ m, SocketEmit m ∈ steps ↔
          ∃ offer pc',
            signalingState (peerConnection peer) = stable ∧
            iceConnectionState (peerConnection peer) = ice_new ∧
            engine_createOffer (peerConnection peer) = inr offer ∧
            engine_setLocalDescription (peerConnection peer) offer = inr pc' ∧
            socket c = true ∧
            m = emit_offer (roomId c) offer (Some (peerId peer))) ∧
       (∀ offer pc',
          signalingState (peerConnection peer) = stable →
          iceConnectionState (peerConnection peer) = ice_new →
          engine_createOffer (peerConnection peer) = inr offer →
          engine_setLocalDescription (peerConnection peer) offer = inr pc' →
          c' = store_peerConnection (socketId peer) pc' c ∧
          steps =
            [NegotiatingAdd (socketId peer);
             Engine (socketId peer) call_createOffer;
             Engine (socketId peer) (call_setLocalDescription offer)] ++
            (if socket c
             then [SocketEmit
                     (emit_offer (roomId c) offer (Some (peerId peer)));
                   Console console_log ["📤 Sent offer to " +:+ userId peer]]
             else []) ++
            [NegotiatingDelete (socketId peer)]) ∧
       (¬ (signalingState (peerConnection peer) = stable ∧
           iceConnectionState (peerConnection peer) = ice_new) →
          c' = c ∧
          steps = [NegotiatingAdd (socketId peer);
                   NegotiatingDelete (socketId peer)]) ∧
       (∀ e, engine_createOffer (peerConnection peer) = inl e → c' = c) ∧
       (∀ offer e,
          engine_createOffer (peerConnection peer) = inr offer →
          engine_setLocalDescription (peerConnection peer) offer = inl e →
          c' = c)).
Proof.
  unfold createOffer. run_M. simpl.
  destruct (decide (socketId peer ∈ isNegotiating c)) as [Hin|Hnotin].
  { eexists _, _. split; [reflexivity|]. split; [done|]. by intros ?. }
  assert (Hclear : ({[socketId peer]} ∪ isNegotiating c) ∖ {[socketId peer]}
                   = isNegotiating c) by set_solver.
  destruct (decide (signalingState (peerConnection peer) = stable ∧
                    iceConnectionState (peerConnection peer) = ice_new))
    as [[Hs Hi]|Hno]; simpl.
  2: { eexists _, _. split; [reflexivity|]. split; [done|]. intros _.
       simpl. split_and!; try done.
       - set_solver.
       - intros d. set_solver.
       - intros m. split; [set_solver|]. intros (? & ? & ? & ? & _). tauto.
       - intros offer pc' ? ?. tauto.
       - intros _. split; [|done]. rewrite Hclear. by destruct c.
       - intros e _. rewrite Hclear. by destruct c.
       - intros offer e _ _. rewrite Hclear. by destruct c. }
  destruct (engine_createOffer (peerConnection peer)) as [e|offer] eqn:Hoffer;
    simpl.
  { eexists _, _. split; [reflexivity|]. split; [done|]. intros _.
    simpl. split_and!; try done.
    - set_solver.
    - intros d. split; [set_solver|]. by intros (_ & _ & ?).
    - intros m. split; [set_solver|]. by intros (? & ? & _ & _ & ? & _).
    - intros []. done.
    - intros e' _. rewrite Hclear. by destruct c. }
  destruct (engine_setLocalDescription (peerConnection peer) offer)
    as [e|pc'] eqn:Hlocal; simpl.
  { eexists _, _. split; [reflexivity|]. split; [done|]. intros _.
    simpl. split_and!; try done.
    - set_solver.
    - intros d. split; [|intros (_ & _ & [= <-]); set_solver].
      rewrite !elem_of_cons, elem_of_nil. naive_solver.
    - intros m. split; [set_solver|].
      intros (? & ? & _ & _ & [= <-] & ? & _). congruence.
    - intros offer' pc' _ _ [= <-]. congruence.
    - intros []. done.
    - intros offer' e' _ _. rewrite Hclear. by destruct c. }
  destruct (socket c) eqn:Hsocket; simpl.
  - eexists _, _. split; [reflexivity|]. split; [done|]. intros _.
    simpl. split_and!; try done.
    + set_solver.
    + intros d. split; [|intros (_ & _ & [= <-]); set_solver].
      rewrite !elem_of_cons, elem_of_nil. naive_solver.
    + intros m. split.
      * rewrite !elem_of_cons, elem_of_nil. intros Hm.
        exists offer, pc'. naive_solver.
      * intros (? & ? & _ & _ & [= <-] & _ & _ & ->). set_solver.
    + intros offer' pc'' _ _ [= <-]. rewrite Hlocal. intros [= <-].
      split; [|done]. unfold store_peerConnection, set_remotePeers. simpl.
      by rewrite Hclear, Hsocket.
    + intros []. done.
    + intros offer' e' [= <-]. congruence.
  - eexists _, _. split; [reflexivity|]. split; [done|]. intros _.
    simpl. split_and!; try done.
    + set_solver.
    + intros d. split; [|intros (_ & _ & [= <-]); set_solver].
      rewrite !elem_of_cons, elem_of_nil. naive_solver.
    + intros m. split; [set_solver|].
      by intros (? & ? & _ & _ & _ & _ & ? & _).
    + intros offer' pc'' _ _ [= <-]. rewrite Hlocal. intros [= <-].
      split; [|done]. unfold store_peerConnection, set_remotePeers. simpl.
      by rewrite Hclear, Hsocket.
    + intros []. done.
    + intros offer' e' [= <-]. congruence.
Qed.


(** Claim C10.  An [ice-candidate] whose [from] has no session in
    [remotePeers] is dropped: the listener returns, the client is as
    before (no session is made), and no step is made, so nothing is
    emitted to the hub and no error callback runs.  When [from] has a
    session, it is the connection of that session, looked up by the
    sender's socket id, that is handed the candidate, and a failure of
    the engine is logged only. *)
Theorem ice_candidate_without_session `{ConnectionEngine}
    (candidate : option RTCIceCandidateInit) (from : string) (c : State) :
  (JsMap.get from (remotePeers c) = None →
     on_ice_candidate candidate from c = (Normal tt, c, [])) ∧
  (∀ peer cand,
     JsMap.get from (remotePeers c) = Some peer → candidate = Some cand →
     ∃ c' rest,
       on_ice_candidate candidate from c =
       (Normal tt, c',
        Engine (socketId peer) (call_addIceCandidate cand) :: rest) ∧
       (∀ m, OnError m ∉ rest) ∧ (∀ m, SocketEmit m ∉ rest)).
Proof.
  unfold on_ice_candidate. run_M. split.
  - intros ->. done.
  - intros peer cand -> ->.
    destruct (engine_addIceCandidate (peerConnection peer) cand); simpl.
    + eexists _, _. split; [reflexivity|]. split; intros m; set_solver.
    + eexists _, _. split; [reflexivity|]. split; intros m; set_solver.
Qed.

(** *** Muting *)

Implicit Types (h : gmap TrackRef MediaStreamTrack).

Lemma kind_of_alter b s h r :
  kind_of (alter (with_enabled b) s h) r = kind_of h r.
Proof.
  unfold kind_of. rewrite lookup_alter. case_decide; [|done].
  subst. by destruct (h !! r).
Qed.

Lemma getTracksOfKind_ext k h h' (s : MediaStream) :
  (∀ r, kind_of h' r = kind_of h r) →
  getTracksOfKind k h' s = getTracksOfKind k h s.
Proof.
  intros Hk. unfold getTracksOfKind.
  apply list_filter_iff. intros r. by rewrite Hk.
Qed.

Lemma sender_track_ext k h h' peer :
  (∀ r, kind_of h' r = kind_of h r) →
  sender_track k h' peer = sender_track k h peer.
Proof.
  intros Hk. unfold sender_track, find.
  assert (∀ l : list RTCRtpSender,
            List.find (λ x, bool_decide (track x ≫= kind_of h' = Some k)) l =
            List.find (λ x, bool_decide (track x ≫= kind_of h = Some k)) l) as ->.
  { induction l as [|x l IH]; simpl; [done|].
    rewrite IH. destruct (track x) as [r|]; simpl; [by rewrite Hk | done]. }
  done.
Qed.

Lemma mirrored_ext k h' h (peers : list RemotePeer) :
  (∀ r, kind_of h' r = kind_of h r) →
  omap (sender_track k h') peers = omap (sender_track k h) peers.
Proof.
  intros Hk. induction peers as [|p peers IH]; csimpl; [done|].
  by rewrite IH, (sender_track_ext k h h').
Qed.

Lemma sender_track_in_heap k h peer s :
  sender_track k h peer = Some s → is_Some (h !! s).
Proof.
  unfold sender_track, find. intros Hs.
  apply bind_Some in Hs as (sender & Hfind & Htrack).
  apply find_some in Hfind as [_ Hkind].
  apply bool_decide_eq_true in Hkind. rewrite Htrack in Hkind. simpl in Hkind.
  unfold kind_of in Hkind. by destruct (h !! s).
Qed.

Lemma local_track_in_heap k c t :
  local_track k c = Some t → kind_of (tracks c) t = Some k.
Proof.
  unfold local_track. intros Ht.
  apply bind_Some in Ht as (s & _ & Hhead).
  apply head_Some_elem_of in Hhead.
  unfold getTracksOfKind in Hhead.
  by apply list_elem_of_filter in Hhead as [? _].
Qed.

Lemma enabled_of_alter b s h r :
  is_Some (h !! r) →
  enabled_of (alter (with_enabled b) s h) r =
  if decide (s = r) then b else enabled_of h r.
Proof.
  intros [t Ht]. unfold enabled_of. rewrite lookup_alter, Ht.
  destruct (decide (s = r)) as [->|]; [by rewrite Ht | done].
Qed.

Lemma mirror_enabled_run k t peer c :
  mirror_enabled k t peer c =
  (Normal tt,
   match sender_track k (tracks c) peer with
   | Some s =>
       set_tracks
         (alter (with_enabled (enabled_of (tracks c) t)) s (tracks c)) c
   | None => c
   end, []).
Proof.
  unfold mirror_enabled. run_M.
  by destruct (sender_track k (tracks c) peer).
Qed.

Lemma forEach_mirror k t b (peers : list RemotePeer) : ∀ c,
  is_Some (tracks c !! t) → enabled_of (tracks c) t = b →
  ∃ h',
    forEach peers (mirror_enabled k t) c = (Normal tt, set_tracks h' c, []) ∧
    (∀ r, h' !! r =
          if decide (r ∈ omap (sender_track k (tracks c)) peers)
          then with_enabled b <$> tracks c !! r else tracks c !! r).
Proof.
  induction peers as [|peer peers IH]; intros c Hin Hb.
  - exists (tracks c). split; [by destruct c | done].
  - cbn [forEach]. run_M. rewrite mirror_enabled_run. cbn [omap list_omap].
    destruct (sender_track k (tracks c) peer) as [s|] eqn:Hs.
    + assert (Hk : ∀ r, kind_of (alter (with_enabled b) s (tracks c)) r
                        = kind_of (tracks c) r)
        by (intros r; apply kind_of_alter).
      destruct (IH (set_tracks (alter (with_enabled (enabled_of (tracks c) t))
                                  s (tracks c)) c))
        as (h' & Hrun & Hh').
      { simpl. rewrite lookup_alter. case_decide; [|done].
        subst. destruct Hin as [x ->]. by eexists. }
      { simpl. rewrite enabled_of_alter by done.
        by case_decide. }
      rewrite Hrun. simpl. exists h'. split; [by destruct c|].
      intros r. rewrite Hh'. simpl. rewrite Hb.
      rewrite (mirrored_ext k _ (tracks c) peers) by done.
      rewrite lookup_alter.
      destruct (decide (s = r)) as [->|Hne].
      * rewrite (decide_True (P := r ∈ r :: _))
          by (rewrite elem_of_cons; by left).
        case_decide; [|done].
        destruct (tracks c !! r); done.
      * destruct (decide (r ∈ omap (sender_track k (tracks c)) peers)).
        -- by rewrite decide_True by (rewrite elem_of_cons; by right).
        -- rewrite decide_False; [done|]. rewrite elem_of_cons. naive_solver.
    + destruct (IH c Hin Hb) as (h' & Hrun & Hh').
      rewrite Hrun. simpl. by exists h'.
Qed.

Lemma toggleTrack_unfold k c t :
  local_track k c = Some t →
  ∃ h',
    toggleTrack k c =
      (Normal (negb (enabled_of (tracks c) t)), set_tracks h' c, []) ∧
    (∀ r, h' !! r =
          if decide (r = t ∨ r ∈ mirrored k c)
          then with_enabled (negb (enabled_of (tracks c) t)) <$> tracks c !! r
          else tracks c !! r).
Proof.
  intros Ht. pose proof (local_track_in_heap k c t Ht) as Hkind.
  assert (Hin : is_Some (tracks c !! t)).
  { unfold kind_of in Hkind. by destruct (tracks c !! t). }
  destruct Hin as [x Hx].
  set (b := negb (enabled_of (tracks c) t)).
  set (c1 := set_tracks (alter (with_enabled b) t (tracks c)) c).
  assert (Hc1t : tracks c1 !! t = Some (with_enabled b x)).
  { simpl. by rewrite lookup_alter, decide_True, Hx by done. }
  destruct (forEach_mirror k t b (JsMap.values (remotePeers c)) c1)
    as (h' & Hrun & Hh').
  { by eexists. }
  { unfold enabled_of. by rewrite Hc1t. }
  exists h'. split.
  - unfold toggleTrack. run_M. rewrite Ht. unfold set_enabled at 1.
    fold b. fold c1. unfold c1 at 1. simpl. fold c1. rewrite Hrun. simpl.
    assert (enabled_of h' t = b) as ->.
    { unfold enabled_of. rewrite Hh', Hc1t. by case_decide. }
    by destruct c.
  - intros r. rewrite Hh'. simpl. unfold mirrored.
    rewrite (mirrored_ext k _ (tracks c)) by (intros; apply kind_of_alter).
    rewrite lookup_alter.
    destruct (decide (t = r)) as [->|Hne].
    + rewrite (decide_True (P := r = r ∨ _)) by by left.
      case_decide; [|done]. by destruct (tracks c !! r).
    + destruct (decide (r ∈ omap (sender_track k (tracks c))
                          (JsMap.values (remotePeers c)))).
      * by rewrite decide_True by by right.
      * rewrite decide_False; [done|]. naive_solver.
Qed.

Lemma mirrored_elem k c peer s :
  peer ∈ JsMap.values (remotePeers c) →
  sender_track k (tracks c) peer = Some s → s ∈ mirrored k c.
Proof. intros Hp Hs. unfold mirrored. apply list_elem_of_omap. eauto. Qed.

(** Claim C9, amended.  Let [t] be the local track of the kind, the
    first one of the local stream.  [toggleTrack] returns the negation
    of its [enabled] bit, which is the bit of [t] afterwards, and of the
    track of the first sender of that kind of every session.  A second
    [toggleTrack] returns the first bit and leaves [t] as it was at the
    start; every mirrored sender track then has the bit [t] had at the
    start, so it is as it was at the start when its bit agreed with that
    of [t], as it does when it is the track [t] itself.  Tracks that are
    neither [t] nor mirrored are untouched. *)
Theorem toggle_twice (k : TrackKind) (c : State) (t : TrackRef) :
  local_track k c = Some t →
  ∃ c1 c2,
    toggleTrack k c = (Normal (negb (enabled_of (tracks c) t)), c1, []) ∧
    toggleTrack k c1 = (Normal (enabled_of (tracks c) t), c2, []) ∧
    enabled_of (tracks c1) t = negb (enabled_of (tracks c) t) ∧
    (∀ peer s,
       peer ∈ JsMap.values (remotePeers c) →
       sender_track k (tracks c) peer = Some s →
       enabled_of (tracks c1) s = negb (enabled_of (tracks c) t)) ∧
    tracks c2 !! t = tracks c !! t ∧
    (∀ peer s,
       peer ∈ JsMap.values (remotePeers c) →
       sender_track k (tracks c) peer = Some s →
       enabled_of (tracks c2) s = enabled_of (tracks c) t ∧
       (enabled_of (tracks c) s = enabled_of (tracks c) t →
        tracks c2 !! s = tracks c !! s)) ∧
    (∀ r, r ≠ t → r ∉ mirrored k c → tracks c2 !! r = tracks c !! r).
Proof.
  intros Ht.
  destruct (toggleTrack_unfold k c t Ht) as (h1 & Hrun1 & Hh1).
  set (e := enabled_of (tracks c) t) in *.
  set (c1 := set_tracks h1 c) in *.
  assert (Hkind1 : ∀ r, kind_of (tracks c1) r = kind_of (tracks c) r).
  { intros r. unfold kind_of. simpl. rewrite Hh1.
    case_decide; [|done]. by destruct (tracks c !! r). }
  assert (Ht1 : local_track k c1 = Some t).
  { unfold local_track in *. simpl.
    destruct (localStream c) as [s|]; [|done]. simpl in *.
    by rewrite (getTracksOfKind_ext k (tracks c) h1 s Hkind1). }
  assert (Hm1 : mirrored k c1 = mirrored k c).
  { unfold mirrored. simpl. by apply mirrored_ext. }
  pose proof (local_track_in_heap k c t Ht) as Hkind.
  assert (Hin : ∃ x, tracks c !! t = Some x ∧ enabled x = e).
  { unfold e, enabled_of. unfold kind_of in Hkind.
    destruct (tracks c !! t); [by eexists | done]. }
  destruct Hin as (x & Hx & Hxe).
  assert (He1 : enabled_of (tracks c1) t = negb e).
  { unfold enabled_of. simpl. rewrite Hh1, decide_True by by left.
    by rewrite Hx. }
  destruct (toggleTrack_unfold k c1 t Ht1) as (h2 & Hrun2 & Hh2).
  rewrite He1, negb_involutive in Hrun2, Hh2. rewrite Hm1 in Hh2.
  exists c1, (set_tracks h2 c1). split_and!; try done.
  - intros peer s Hp Hs. unfold enabled_of. simpl.
    rewrite Hh1, decide_True by (right; by eapply mirrored_elem).
    destruct (sender_track_in_heap _ _ _ _ Hs) as [y ->]. done.
  - simpl. rewrite Hh2, decide_True by by left.
    simpl. rewrite Hh1, decide_True by by left.
    rewrite Hx. simpl. unfold with_enabled. simpl. rewrite <- Hxe.
    by destruct x.
  - intros peer s Hp Hs.
    destruct (sender_track_in_heap _ _ _ _ Hs) as [y Hy].
    assert (Hs2 : tracks (set_tracks h2 c1) !! s = Some (with_enabled e y)).
    { simpl. rewrite Hh2, decide_True by (right; by eapply mirrored_elem).
      simpl. rewrite Hh1, decide_True by (right; by eapply mirrored_elem).
      by rewrite Hy. }
    split.
    + unfold enabled_of at 1. by rewrite Hs2.
    + unfold enabled_of at 1. rewrite Hy, Hs2. intros <-. by destruct y.
  - intros r Hr Hnm. simpl. rewrite Hh2, decide_False by naive_solver.
    simpl. by rewrite Hh1, decide_False by naive_solver.
Qed.

(** *** The claims on concrete clients *)

(** A new session: the offer is made, applied and sent to the peer id of
    the session, between the two updates of [isNegotiating]. *)
Example createOffer_sends_offer :
  createOffer (H := standard_engine) bob_new (alice None [("b", bob_new)] ∅) =
  (Normal tt,
   alice None
     [("b", session "bob" "pb" "b"
              (with_signaling have_local_offer (Some Hub.some_offer) None
                 (fresh_connection [])))] ∅,
   [NegotiatingAdd "b";
    Engine "b" call_createOffer;
    Engine "b" (call_setLocalDescription Hub.some_offer);
    SocketEmit (emit_offer "R1" Hub.some_offer (Some "pb"));
    Console console_log ["📤 Sent offer to bob"];
    NegotiatingDelete "b"]).
Proof. vm_compute. reflexivity. Qed.

Lemma createOffer_guarded_witness :
  ∃ c' steps,
    createOffer (H := standard_engine) bob_new
      (alice None [("b", bob_new)] ∅) = (Normal tt, c', steps) ∧
    SocketEmit (emit_offer "R1" Hub.some_offer (Some "pb")) ∈ steps ∧
    c' =
      store_peerConnection "b"
        (with_signaling have_local_offer (Some Hub.some_offer) None
           (fresh_connection []))
        (alice None [("b", bob_new)] ∅).
Proof.
  destruct (createOffer_guarded (H := standard_engine) bob_new
              (alice None [("b", bob_new)] ∅))
    as (c' & steps & Hrun & _ & Hfree).
  exists c', steps. split; [exact Hrun|].
  destruct Hfree as (_ & _ & _ & _ & _ & Hemit & Hdone & _);
    [apply not_elem_of_empty|].
  split.
  - apply Hemit. exists Hub.some_offer.
    exists (with_signaling have_local_offer (Some Hub.some_offer) None
              (fresh_connection [])).
    split_and!; reflexivity.
  - apply (Hdone Hub.some_offer); reflexivity.
Defined.

(** Claim C3 as stated fails.  The client is [hung_up]: not being
    negotiated, the new session of [bob] is handed to [createOffer] with
    its signaling state [stable].  The offer is made and applied, the
    session is left in the state [have-local-offer], and nothing is sent
    to the hub: [this.socket] is [null] at line 349. *)
Lemma createOffer_after_disconnect :
  isNegotiating hung_up = ∅ ∧
  signalingState (peerConnection bob_new) = stable ∧
  iceConnectionState (peerConnection bob_new) = ice_new ∧
  createOffer (H := standard_engine) bob_new hung_up =
  (Normal tt,
   store_peerConnection "b"
     (with_signaling have_local_offer (Some Hub.some_offer) None
        (fresh_connection []))
     hung_up,
   [NegotiatingAdd "b";
    Engine "b" call_createOffer;
    Engine "b" (call_setLocalDescription Hub.some_offer);
    NegotiatingDelete "b"]).
Proof. split_and!; vm_compute; reflexivity. Qed.

Example includes_stable :
  includes "stable" (wrong_state "remote answer" stable) = true ∧
  includes "stable" "Failed to parse SessionDescription." = false.
Proof. split; reflexivity. Qed.

(** An answer in the state [stable] is dropped with a warning; after an
    offer of ours it is applied and the state is [stable] again. *)
Example handleAnswer_drops_in_stable :
  handleAnswer (H := standard_engine) bob_new Hub.some_answer
    (alice None [("b", bob_new)] ∅) =
  (Normal tt, alice None [("b", bob_new)] ∅,
   [Console console_warn
      ["Cannot handle answer from bob, signaling state: stable"]]).
Proof. vm_compute. reflexivity. Qed.

Example offer_then_answer :
  ∃ c1 steps1 bob1 c2,
    createOffer (H := standard_engine) bob_new (alice None [("b", bob_new)] ∅)
      = (Normal tt, c1, steps1) ∧
    JsMap.get "b" (remotePeers c1) = Some bob1 ∧
    signalingState (peerConnection bob1) = have_local_offer ∧
    on_answer (H := standard_engine) Hub.some_answer "b" c1 =
      (Normal tt, c2,
       [Console console_log ["📥 Received answer from:"; "b"];
        Engine "b" (call_setRemoteDescription Hub.some_answer);
        Console console_log ["✅ Set remote description from bob"]]) ∧
    signalingState <$> (peerConnection <$> JsMap.get "b" (remotePeers c2))
      = Some stable.
Proof. do 4 eexists. split_and!; vm_compute; reflexivity. Qed.

Lemma ice_candidate_without_session_witness :
  JsMap.get "z" (remotePeers (alice None [("b", bob_new)] ∅)) = None ∧
  on_ice_candidate (H := standard_engine) (Some Hub.some_candidate) "z"
    (alice None [("b", bob_new)] ∅) =
  (Normal tt, alice None [("b", bob_new)] ∅, []).
Proof.
  split; [reflexivity|].
  apply (ice_candidate_without_session (H := standard_engine)
           (Some Hub.some_candidate) "z" (alice None [("b", bob_new)] ∅)).
  reflexivity.
Defined.

(** [bob] is in the room on two sockets and the one on [b2] leaves: the
    session of [b1] is the one taken out. *)
Lemma user_left_removes_first_match_witness :
  sessions_ok (remotePeers two_bobs) ∧
  ∃ c' steps,
    on_user_left "bob" "b2" two_bobs = (Normal tt, c', steps) ∧
    remotePeers c' =
      [("b2", session "bob" "p2" "b2" (connected_connection []));
       ("c", session "carol" "pc" "c" (connected_connection []))].
Proof.
  assert (Hok : sessions_ok (remotePeers two_bobs)).
  { split.
    - apply (bool_decide_unpack _). vm_compute. exact I.
    - repeat constructor. }
  split; [exact Hok|].
  destruct (user_left_removes_first_match "bob" "b2" two_bobs Hok)
    as (c' & steps & Hrun & _ & _ & _ & _ & Hfirst).
  exists c', steps. split; [exact Hrun|].
  apply (Hfirst [] (session "bob" "p1" "b1" (connected_connection []))
           [("b2", session "bob" "p2" "b2" (connected_connection []));
            ("c", session "carol" "pc" "c" (connected_connection []))]);
    [reflexivity | constructor | reflexivity].
Defined.

(** In the usual call the senders hold the local tracks, and two toggles
    leave every track as it was. *)
Lemma toggle_twice_witness :
  local_track video in_call = Some 2 ∧
  ∃ c1 c2,
    toggleCamera in_call = (Normal false, c1, []) ∧
    toggleCamera c1 = (Normal true, c2, []) ∧
    tracks c2 !! 2 = tracks in_call !! 2.
Proof.
  split; [reflexivity|].
  destruct (toggle_twice video in_call 2 eq_refl)
    as (c1 & c2 & H1 & H2 & _ & _ & H3 & _).
  exists c1, c2. split_and!; [exact H1 | exact H2 | exact H3].
Defined.

(** Claim C9 as stated fails.  In [out_of_step] the camera track of the
    local stream is [4], switched on, and the sender of [bob] holds the
    camera track [2], switched off.  Two calls of [toggleCamera] leave
    the local track switched on, as it was, and the sender's track
    switched on, which it was not. *)
Lemma out_of_step_sender_not_restored :
  local_track video out_of_step = Some 4 ∧
  mirrored video out_of_step = [2] ∧
  enabled_of (tracks out_of_step) 4 = true ∧
  enabled_of (tracks out_of_step) 2 = false ∧
  (toggleCamera out_of_step).1.1 = Normal false ∧
  (toggleCamera (toggleCamera out_of_step).1.2).1.1 = Normal true ∧
  enabled_of (tracks (toggleCamera (toggleCamera out_of_step).1.2).1.2) 4
    = true ∧
  enabled_of (tracks (toggleCamera (toggleCamera out_of_step).1.2).1.2) 2
    = true.
Proof. split_and!; vm_compute; reflexivity. Qed.

End ClientSpec.

(** ** More of the hub *)

Module HubMoreSpec.
Import Hub HubMore JsMapFacts HubSpec.

(** *** CORS *)

(** Property X1.  The CORS policy lets a request without an origin
    pass, and tests an origin by its first characters only: whatever
    follows [http://localhost], [http://127.0.0.1] or [http://10.0.5.43]
    (a port, a path, or more of a host name) is allowed, and an [https]
    origin is blocked with the error [Not allowed by CORS]. *)
Theorem cors_is_a_prefix_test (rest : string) :
  cors_origin None = cors_allow ∧
  cors_origin (Some ("http://localhost" +:+ rest)) = cors_allow ∧
  cors_origin (Some ("http://127.0.0.1" +:+ rest)) = cors_allow ∧
  cors_origin (Some ("http://10.0.5.43" +:+ rest)) = cors_allow ∧
  cors_origin (Some ("https://" +:+ rest)) = cors_block "Not allowed by CORS".
Proof. split_and!; reflexivity. Qed.

(** *** Members are keyed by their socket, the adapter is tidy *)

Lemma members_keyed_shrink sid roomId users m :
  members_keyed m → Forall (λ e : string * Member, socketId e.2 = e.1) users →
  members_keyed
    (if decide (JsMap.size (JsMap.delete sid users) = 0)
     then JsMap.delete roomId (JsMap.set roomId (JsMap.delete sid users) m)
     else JsMap.set roomId (JsMap.delete sid users) m).
Proof.
  intros Hm Hu. case_decide.
  - rewrite delete_set. by apply Forall_delete.
  - apply Forall_set; [done|]. by apply Forall_delete.
Qed.

Lemma get_keyed m roomId users :
  members_keyed m → JsMap.get roomId m = Some users →
  Forall (λ e : string * Member, socketId e.2 = e.1) users.
Proof.
  intros Hm Hget. apply get_Some_elem in Hget.
  by eapply Forall_forall in Hm; [|exact Hget].
Qed.

Lemma join_members_keyed sid roomId uid uuid st :
  members_keyed (roomMembers st) →
  members_keyed (roomMembers (on_join_room sid roomId uid uuid st).1).
Proof.
  intros Hm. rewrite on_join_room_unfold. simpl.
  case_decide; [done|]. simpl.
  apply Forall_set; [done|]. simpl.
  apply Forall_set; [|done].
  destruct (JsMap.get roomId (roomMembers st)) as [users|] eqn:Hget; simpl.
  - by eapply get_keyed.
  - constructor.
Qed.

Lemma leave_members_keyed sid roomId uid st :
  members_keyed (roomMembers st) →
  members_keyed (roomMembers (on_leave_room sid roomId uid st).1).
Proof.
  intros Hm. unfold on_leave_room. simpl.
  destruct (JsMap.get roomId (roomMembers st)) as [users|] eqn:Hget; [|done].
  apply members_keyed_shrink; [done|]. by eapply get_keyed.
Qed.

Lemma disconnect_members_keyed sid st :
  members_keyed (roomMembers st) →
  members_keyed (roomMembers (on_disconnect sid st).1).
Proof.
  intros Hm. unfold on_disconnect.
  set (a := adapter_leave_all sid (rooms st)).
  assert (Hgen : ∀ l acc,
            members_keyed l → members_keyed acc.1 →
            members_keyed (foldl (disconnect_room sid a) acc l).1).
  { induction l as [|[r users] l IH]; intros [m out] Hl Hacc; simpl; [done|].
    inversion Hl as [|? ? Hu Hl']; subst. apply IH; [done|].
    simpl in *. destruct (JsMap.has sid users); [|done].
    pose proof (members_keyed_shrink sid r users m Hacc Hu) as Hs.
    by case_decide. }
  specialize (Hgen (roomMembers st) (roomMembers st, []) Hm Hm).
  by destruct (foldl _ _ _).
Qed.

Lemma join_adapter_tidy sid roomId a :
  adapter_tidy a → adapter_tidy (adapter_join sid roomId a).
Proof.
  intros Ha r g. unfold adapter_join.
  destruct (decide (r = roomId)) as [->|Hne].
  - rewrite lookup_insert_eq. intros [= <-]. set_solver.
  - rewrite lookup_insert_ne by done. apply Ha.
Qed.

Lemma leave_adapter_tidy sid roomId a :
  adapter_tidy a → adapter_tidy (adapter_leave sid roomId a).
Proof.
  intros Ha r g. unfold adapter_leave.
  destruct (a !! roomId) as [g0|] eqn:Hg0; [|apply Ha].
  unfold without. case_decide as He.
  - destruct (decide (r = roomId)) as [->|Hne].
    + by rewrite lookup_delete_eq.
    + rewrite lookup_delete_ne by done. apply Ha.
  - destruct (decide (r = roomId)) as [->|Hne].
    + rewrite lookup_insert_eq. by intros [= <-].
    + rewrite lookup_insert_ne by done. apply Ha.
Qed.

Lemma leave_all_adapter_tidy sid a : adapter_tidy (adapter_leave_all sid a).
Proof.
  intros r g. unfold adapter_leave_all. rewrite lookup_omap.
  destruct (a !! r) as [g0|]; simpl; [|done].
  unfold without. case_decide; [done|]. by intros [= <-].
Qed.

Lemma handle_state_tidy sid ev st :
  state_tidy st → state_tidy (handle sid ev st).1.
Proof.
  intros [Hm Ha]. destruct ev; cbn [handle]; try done.
  - split; [done|]. by apply join_adapter_tidy.
  - split; [by apply join_members_keyed|].
    rewrite on_join_room_unfold. simpl. case_decide; [done|].
    by apply join_adapter_tidy.
  - split; [by apply leave_members_keyed|]. by apply leave_adapter_tidy.
  - split; [by apply disconnect_members_keyed|].
    unfold on_disconnect. destruct (foldl _ _ _). apply leave_all_adapter_tidy.
Qed.

Lemma run_state_tidy evs st : state_tidy st → state_tidy (run evs st).1.
Proof.
  revert st. induction evs as [|[sid ev] evs IH]; intros st Hok; simpl; [done|].
  pose proof (handle_state_tidy sid ev st Hok) as H1.
  destruct (handle sid ev st) as [st1 out1]. simpl in H1.
  specialize (IH st1 H1). by destruct (run evs st1).
Qed.

Lemma state_tidy_init : state_tidy init.
Proof. split; [constructor | done]. Qed.

(** Property X2.  In every state the server reaches, the two tables
    of membership agree and are tidy: the room of the Socket.IO adapter
    holds every socket id the registry has for the room; a socket in the
    adapter's room that the registry does not have for it is the socket
    the room is named after, which Socket.IO put there; the adapter has
    no empty room; and a member found under a socket id has that socket
    id. *)
Theorem reachable_state_consistent (evs : list (string * ClientEvent)) :
  (∀ roomId sid,
     sid ∈ JsMap.keys
             (default JsMap.empty
                (JsMap.get roomId (roomMembers (run evs init).1))) →
     sid ∈ default ∅ (rooms (run evs init).1 !! roomId)) ∧
  (∀ roomId sid,
     sid ∈ default ∅ (rooms (run evs init).1 !! roomId) →
     sid ∈ JsMap.keys
             (default JsMap.empty
                (JsMap.get roomId (roomMembers (run evs init).1))) ∨
     sid = roomId) ∧
  (∀ roomId g, rooms (run evs init).1 !! roomId = Some g → g ≠ ∅) ∧
  (∀ roomId users sid member,
     JsMap.get roomId (roomMembers (run evs init).1) = Some users →
     JsMap.get sid users = Some member → socketId member = sid).
Proof.
  pose proof (run_state_ok evs init state_ok_init) as [_ Had].
  pose proof (run_state_tidy evs init state_tidy_init) as [Hm Ha].
  split_and!.
  - intros roomId sid Hin. destruct (Had roomId) as [Hlo _].
    apply Hlo. unfold members_of. by rewrite elem_of_list_to_set.
  - intros roomId sid Hin. destruct (Had roomId) as [_ Hhi].
    apply Hhi in Hin. unfold members_of in Hin.
    rewrite elem_of_union, elem_of_list_to_set, elem_of_singleton in Hin.
    done.
  - apply Ha.
  - intros roomId users sid member Hget Hmem.
    pose proof (get_keyed _ _ _ Hm Hget) as Hu.
    apply get_Some_elem in Hmem.
    by eapply Forall_forall in Hu; [|exact Hmem].
Qed.

(** The socket [b] is connected and [a] joins the room named [b]: the
    adapter's room holds both, the registry's room holds [a]. *)
Example room_named_by_a_socket :
  let st := (run ([("b", connection)] ++ joins "a" "b" "alice" "pa") init).1 in
  default ∅ (rooms st !! "b") = {["a"; "b"]} ∧
  JsMap.keys (default JsMap.empty (JsMap.get "b" (roomMembers st))) = ["a"].
Proof. by vm_compute. Qed.

(** *** Joining *)

Lemma others_of_keyed sid (users : JsMap.t Member) :
  Forall (λ e : string * Member, socketId e.2 = e.1) users →
  filter (λ u, socketId u ≠ sid) (JsMap.values users) =
  JsMap.values (filter (λ e, e.1 ≠ sid) users).
Proof.
  unfold JsMap.values.
  induction 1 as [|[k u] users Hk Hu IH]; [done|].
  rewrite fmap_cons, !filter_cons. simpl in *. rewrite Hk.
  destruct (decide (k ≠ sid)); [by rewrite fmap_cons, IH | done].
Qed.

Lemma keys_filter_set sid (users : JsMap.t Member) :
  list_to_set (C := gset string) (JsMap.keys (filter (λ e, e.1 ≠ sid) users))
  = list_to_set (JsMap.keys users) ∖ {[sid]}.
Proof.
  apply set_eq. intros x. unfold JsMap.keys.
  rewrite elem_of_difference, !elem_of_list_to_set, !list_elem_of_fmap.
  split.
  - intros ([k u] & -> & Hin). apply list_elem_of_filter in Hin as [Hne Hin].
    simpl in *. split; [by exists (k, u) | set_solver].
  - intros [([k u] & -> & Hin) Hne]. exists (k, u). split; [done|].
    apply list_elem_of_filter. split; [set_solver | done].
Qed.

Lemma ids_of_others sid (users : JsMap.t Member) :
  Forall (λ e : string * Member, socketId e.2 = e.1) users →
  socketId <$> JsMap.values (filter (λ e, e.1 ≠ sid) users)
  = JsMap.keys (filter (λ e, e.1 ≠ sid) users).
Proof.
  intros Hu. unfold JsMap.values, JsMap.keys.
  assert (Hf : Forall (λ e : string * Member, socketId e.2 = e.1)
                 (filter (λ e, e.1 ≠ sid) users))
    by (apply Forall_forall; intros e He;
        apply list_elem_of_filter in He as [_ He];
        by eapply Forall_forall in Hu; [|exact He]).
  induction Hf as [|[k u] l Hk Hl IH]; [done|].
  rewrite !fmap_cons. simpl in *. by rewrite Hk, IH.
Qed.

Lemma captured_keyed roomId attached st :
  members_keyed (roomMembers st) →
  Forall (λ e : string * Member, socketId e.2 = e.1)
    (captured_roomUsers roomId attached st).
Proof.
  intros Hm. unfold captured_roomUsers. destruct attached; [|constructor].
  destruct (JsMap.get roomId (roomMembers st)) eqn:Hget; simpl.
  - by eapply get_keyed.
  - constructor.
Qed.

(** What a resuming [join-room] delivers, in a consistent state. *)
Lemma resume_deliveries st sid roomId uid peerId attached :
  adapter_ok st → members_keyed (roomMembers st) →
  ∃ (to : gset string) others,
    on_join_room_resumes sid roomId uid peerId attached st =
      (st,
       [Broadcast roomId sid to (ev_user_joined uid peerId sid);
        Emit sid (ev_room_joined roomId others)]) ∧
    others =
      JsMap.values
        (filter (λ e, e.1 ≠ sid) (captured_roomUsers roomId attached st)) ∧
    (sid ∉ to) ∧
    (sid ∉ socketId <$> others) ∧
    members_of roomId st ∖ {[sid]} ⊆ to ∧
    to ⊆ members_of roomId st ∪ {[roomId]} ∧
    (if attached
     then list_to_set (socketId <$> others) = members_of roomId st ∖ {[sid]}
     else others = []).
Proof.
  intros Had Hm.
  pose proof (captured_keyed roomId attached st Hm) as Hu.
  pose proof (recipients_bounds st roomId sid Had) as (Hlo & Hsid & Hhi).
  eexists (recipients (rooms st) roomId sid), _.
  split; [|split; [reflexivity|]].
  { unfold on_join_room_resumes. by rewrite others_of_keyed. }
  rewrite ids_of_others by done.
  split_and!; try done.
  - unfold JsMap.keys. rewrite list_elem_of_fmap.
    intros ([k u] & -> & Hin). apply list_elem_of_filter in Hin as [Hne _].
    done.
  - destruct attached.
    + by rewrite keys_filter_set.
    + done.
Qed.

(** Property X3.  In every state the server reaches, a [join-room]
    that resumes after its database calls makes two deliveries, in this
    order, and leaves the state alone: [user-joined], with the peer id
    made for the newcomer, to the room, and [room-joined] to the
    newcomer.  Both are made from the tables as they are when the handler
    resumes, not as they were when the event arrived.  [user-joined]
    reaches every socket that is a member of the room then, but for the
    newcomer, and no other socket but, possibly, the one the room is
    named after.  [room-joined] lists the members the captured map has
    then, but for the newcomer, in the order they joined: the members of
    the room at that time while the registry still holds the map, none
    when the room was deleted meanwhile.  The newcomer is neither a
    recipient of the first nor listed in the second. *)
Theorem join_introduces_both_sides evs sid roomId uid peerId attached :
  ∃ (to : gset string) others,
    on_join_room_resumes sid roomId uid peerId attached (run evs init).1 =
      ((run evs init).1,
       [Broadcast roomId sid to (ev_user_joined uid peerId sid);
        Emit sid (ev_room_joined roomId others)]) ∧
    others =
      JsMap.values
        (filter (λ e, e.1 ≠ sid)
           (captured_roomUsers roomId attached (run evs init).1)) ∧
    (sid ∉ to) ∧
    (sid ∉ socketId <$> others) ∧
    list_to_set
      (JsMap.keys
         (default JsMap.empty
            (JsMap.get roomId (roomMembers (run evs init).1)))) ∖ {[sid]}
      ⊆ to ∧
    to ⊆
      list_to_set
        (JsMap.keys
           (default JsMap.empty
              (JsMap.get roomId (roomMembers (run evs init).1))))
      ∪ {[roomId]} ∧
    (if attached
     then list_to_set (socketId <$> others) =
          (list_to_set
             (JsMap.keys
                (default JsMap.empty
                   (JsMap.get roomId (roomMembers (run evs init).1))))
           : gset string) ∖ {[sid]}
     else others = []).
Proof.
  pose proof (run_state_ok evs init state_ok_init) as [_ Had].
  pose proof (run_state_tidy evs init state_tidy_init) as [Hm _].
  apply resume_deliveries; done.
Qed.

(** [alice] leaves while her [join-room] waits for the database; the
    room is deleted, and made anew by the join of [bob].  When the
    handler of [alice] resumes it reads the map it took, now empty, and
    broadcasts to the room of the adapter, where [bob] is. *)
Example join_resumes_after_the_room_was_deleted :
  (run [("a", connection); ("b", connection);
        ("a", join_room "R1" "alice" "pa"); ("a", leave_room "R1" "alice");
        ("b", join_room "R1" "bob" "pb");
        ("a", join_room_resumes "R1" "alice" "pa" false)]
     init).2 =
  [Broadcast "R1" "a" ∅ (ev_user_left "alice" "a");
   Broadcast "R1" "a" {["b"]} (ev_user_joined "alice" "pa" "a");
   Emit "a" (ev_room_joined "R1" [])].
Proof. by vm_compute. Qed.

(** Property X4.  After a join of a room that is not full the registry
    has the room, with the newcomer under its socket id, user id and the
    new peer id; the other members are as they were; a socket that was
    already a member keeps its place in the order and a new one comes
    last; the other rooms are as they were. *)
Theorem join_registers_member sid roomId uid uuid st :
  JsMap.size (default JsMap.empty (JsMap.get roomId (roomMembers st))) < 10 →
  ∃ users',
    JsMap.get roomId (roomMembers (on_join_room sid roomId uid uuid st).1)
      = Some users' ∧
    JsMap.get sid users' =
      Some {| userId := uid; socketId := sid; peerId := uuid |} ∧
    (∀ k, k ≠ sid →
       JsMap.get k users' =
       JsMap.get k (default JsMap.empty (JsMap.get roomId (roomMembers st)))) ∧
    JsMap.keys users' =
      (if JsMap.has sid (default JsMap.empty (JsMap.get roomId (roomMembers st)))
       then JsMap.keys (default JsMap.empty (JsMap.get roomId (roomMembers st)))
       else JsMap.keys (default JsMap.empty (JsMap.get roomId (roomMembers st)))
              ++ [sid]) ∧
    (∀ r, r ≠ roomId →
       JsMap.get r (roomMembers (on_join_room sid roomId uid uuid st).1) =
       JsMap.get r (roomMembers st)).
Proof.
  intros Hsize. rewrite on_join_room_unfold. simpl.
  rewrite decide_False by lia. simpl.
  eexists. split_and!.
  - apply get_set_eq.
  - apply get_set_eq.
  - intros k Hk. by apply get_set_ne.
  - apply keys_set.
  - intros r Hr. by apply get_set_ne.
Qed.


(** *** Join, then leave *)

(** Property X5.  In every state the server reaches, a socket that is
    not a member of a room that is not full, and whose id is not the
    room's name, and that joins the room and leaves it again before
    another event is handled leaves the whole state, registry and
    adapter, as it was: a room made for the join is removed again.  The
    user id sent with [leave-room] plays no part.  (A socket that joins
    and leaves the room of its own id is taken out of the room Socket.IO
    had put it in.) *)
Theorem join_leave_round_trip evs sid roomId uid uuid uid' :
  roomId ≠ sid →
  JsMap.size
    (default JsMap.empty (JsMap.get roomId (roomMembers (run evs init).1)))
    < 10 →
  JsMap.get sid
    (default JsMap.empty (JsMap.get roomId (roomMembers (run evs init).1)))
    = None →
  (on_leave_room sid roomId uid'
     (on_join_room sid roomId uid uuid (run evs init).1).1).1
  = (run evs init).1.
Proof.
  intros Hname Hsize Hnew.
  pose proof (run_state_ok evs init state_ok_init) as [Hreg Had].
  pose proof (run_state_tidy evs init state_tidy_init) as [_ Hty].
  set (st := (run evs init).1) in *.
  rewrite on_join_room_unfold. simpl. rewrite decide_False by lia.
  unfold on_leave_room. simpl. rewrite get_set_eq.
  set (users := default JsMap.empty (JsMap.get roomId (roomMembers st))) in *.
  rewrite delete_set, (delete_absent sid users) by done.
  rewrite set_set.
  assert (Hg : default ∅ (rooms st !! roomId)
               ⊆ list_to_set (JsMap.keys users) ∪ {[roomId]})
    by apply Had.
  assert (Hnotin : sid ∉ (list_to_set (JsMap.keys users) : gset string)).
  { rewrite elem_of_list_to_set. by apply get_None_keys. }
  assert (Hrooms : adapter_leave sid roomId (adapter_join sid roomId (rooms st))
                   = rooms st).
  { unfold adapter_leave, adapter_join. rewrite lookup_insert_eq.
    unfold without.
    assert (Hsame : ({[sid]} ∪ default ∅ (rooms st !! roomId)) ∖ {[sid]}
                    = default ∅ (rooms st !! roomId))
      by set_solver.
    rewrite Hsame.
    destruct (rooms st !! roomId) as [g|] eqn:Hlook; simpl.
    - destruct (decide (g = ∅)) as [->|Hne]; [by destruct (Hty _ _ Hlook)|].
      rewrite insert_insert_eq. by apply insert_id.
    - destruct (decide (∅ = ∅)) as [_|Hne]; [|done].
      rewrite delete_insert_eq. by apply delete_id. }
  rewrite Hrooms.
  assert (Hregistry :
            (if decide (JsMap.size users = 0)
             then JsMap.delete roomId (JsMap.set roomId users (roomMembers st))
             else JsMap.set roomId users (roomMembers st)) = roomMembers st).
  { unfold users in *.
    destruct (JsMap.get roomId (roomMembers st)) as [users0|] eqn:Hget;
      unfold default; cbn [from_option id].
    - destruct (get_room_ok _ _ _ Hreg Hget) as [_ Hpos]. simpl in Hpos.
      destruct (decide (JsMap.size users0 = 0)); [lia|]. by apply set_same.
    - destruct (decide (JsMap.size (@JsMap.empty Member) = 0)); [|done].
      rewrite delete_set. by apply delete_absent. }
  rewrite Hregistry. by destruct st.
Qed.

(** The socket [d] joins the room of its own id and leaves it: it is
    no longer in the room Socket.IO had put it in. *)
Example leaving_the_room_of_its_own_id :
  let st := (run [("d", connection)] init).1 in
  default ∅ (rooms st !! "d") = {["d"]} ∧
  rooms (on_leave_room "d" "d" "dave"
           (on_join_room "d" "d" "dave" "pd" st).1).1 !! "d" = None.
Proof. by vm_compute. Qed.

(** *** Leaving, then disconnecting *)

Lemma leave_registry_wf sid roomId uid st :
  JsMap.wf (roomMembers st) →
  JsMap.wf (roomMembers (on_leave_room sid roomId uid st).1).
Proof.
  intros Hwf. unfold on_leave_room. simpl.
  destruct (JsMap.get roomId (roomMembers st)); [|done].
  case_decide; [apply wf_delete|]; by apply wf_set.
Qed.

Lemma leave_then_disconnect_filter sid roomId uid st :
  JsMap.wf (roomMembers st) →
  filter (λ d, is_user_left_to roomId d = true)
    (run [(sid, leave_room roomId uid); (sid, disconnect)] st).2 =
    [Broadcast roomId sid
       (recipients (adapter_leave sid roomId (rooms st)) roomId sid)
       (ev_user_left uid sid)] ∧
  filter (λ d, is_user_left_to roomId d = true)
    (on_disconnect sid (on_leave_room sid roomId uid st).1).2 = [].
Proof.
  intros Hwf.
  pose proof (leave_registry_wf sid roomId uid st Hwf) as Hwf1.
  assert (Hquiet :
    filter (λ d, is_user_left_to roomId d = true)
      (on_disconnect sid (on_leave_room sid roomId uid st).1).2 = []).
  { apply nil_length_inv.
    rewrite on_disconnect_unfold by done. cbn [snd].
    rewrite count_user_left, filter_key by done.
    rewrite on_leave_room_registry, decide_True by done.
    destruct (JsMap.get roomId (roomMembers st)) as [users|]; [|done].
    case_decide; [done|].
    rewrite filter_cons. cbn [snd].
    assert (JsMap.has sid (JsMap.delete sid users) = false) as ->
      by apply has_false, get_delete_eq.
    by rewrite (decide_False (P := false = true)). }
  split; [|done].
  cbn [run handle].
  destruct (on_leave_room sid roomId uid st) as [st1 out1] eqn:Hleave.
  assert (Hout1 : out1 = [Broadcast roomId sid
                            (recipients (adapter_leave sid roomId (rooms st))
                               roomId sid)
                            (ev_user_left uid sid)]).
  { unfold on_leave_room in Hleave. by injection Hleave as <- <-. }
  cbn [fst] in Hquiet.
  destruct (on_disconnect sid st1) as [st2 out2]. cbn [fst snd] in *.
  rewrite Hout1, app_nil_r. cbn [app]. rewrite filter_cons.
  cbn [is_user_left_to].
  rewrite bool_decide_eq_true_2 by done.
  rewrite (decide_True (P := true = true)) by done.
  by rewrite Hquiet.
Qed.

(** Property X6.  In a registry that has every room once, a
    [leave-room] followed by the [disconnect] of the same socket tells
    the room once that the user left: the [disconnect] handler finds the
    socket gone from the room and makes no [user-left] broadcast for
    it. *)
Theorem leave_then_disconnect_notifies_once sid roomId uid st :
  JsMap.wf (roomMembers st) →
  length
    (filter (λ d, is_user_left_to roomId d = true)
       (run [(sid, leave_room roomId uid); (sid, disconnect)] st).2) = 1 ∧
  length
    (filter (λ d, is_user_left_to roomId d = true)
       (on_disconnect sid (on_leave_room sid roomId uid st).1).2) = 0.
Proof.
  intros Hwf.
  destruct (leave_then_disconnect_filter sid roomId uid st Hwf) as [-> ->].
  done.
Qed.

(** *** Disconnecting twice *)

Lemma keys_swept_sublist sid (m : JsMap.t (JsMap.t Member)) :
  JsMap.keys (omap (swept sid) m) `sublist_of` JsMap.keys m.
Proof.
  unfold JsMap.keys. induction m as [|e m IH]; csimpl; [done|].
  destruct (swept sid e) as [e'|] eqn:He; csimpl.
  - apply swept_key in He as ->. by constructor.
  - by constructor.
Qed.

Lemma swept_wf sid (m : JsMap.t (JsMap.t Member)) :
  JsMap.wf m → JsMap.wf (omap (swept sid) m).
Proof.
  unfold JsMap.wf. intros Hnd.
  eapply sublist_NoDup; [exact Hnd | apply keys_swept_sublist].
Qed.

Lemma swept_clean sid (m : JsMap.t (JsMap.t Member)) :
  Forall (λ e, JsMap.has sid e.2 = false) (omap (swept sid) m).
Proof.
  induction m as [|e m IH]; csimpl; [constructor|].
  destruct (swept sid e) as [e'|] eqn:He; csimpl; [|done].
  constructor; [|done]. unfold swept in He.
  destruct (JsMap.has sid e.2) eqn:Hhas.
  - case_decide; [done|]. injection He as <-. simpl.
    apply has_false, get_delete_eq.
  - by injection He as <-.
Qed.

(** Property X7.  In a registry that has every room once,
    [disconnect] is idempotent: handled a second time for the same socket
    it changes nothing and delivers nothing. *)
Theorem disconnect_twice sid st :
  JsMap.wf (roomMembers st) →
  on_disconnect sid (on_disconnect sid st).1 = ((on_disconnect sid st).1, []).
Proof.
  intros Hwf. rewrite (on_disconnect_unfold sid st) by done. cbn [fst].
  rewrite on_disconnect_unfold by (cbn [roomMembers]; by apply swept_wf).
  cbn [roomMembers rooms].
  pose proof (swept_clean sid (roomMembers st)) as Hclean.
  assert (Hagain : adapter_leave_all sid (adapter_leave_all sid (rooms st))
                   = adapter_leave_all sid (rooms st)).
  { apply map_eq. intros r. unfold adapter_leave_all. rewrite !lookup_omap.
    destruct (rooms st !! r) as [g|]; simpl; [|done].
    destruct (without sid g) as [g'|] eqn:Hw; simpl; [|done].
    unfold without in Hw. case_decide as He; [done|]. injection Hw as <-.
    unfold without.
    assert (Hsame : g ∖ {[sid]} ∖ {[sid]} = g ∖ {[sid]}) by set_solver.
    rewrite Hsame. by destruct (decide (g ∖ {[sid]} = ∅)). }
  rewrite Hagain.
  induction Hclean as [|e l He Hl IH]; [done|].
  csimpl. rewrite filter_cons. unfold swept at 1. rewrite He.
  rewrite (decide_False (P := false = true)) by done.
  csimpl. injection IH as IH1 IH2. by rewrite IH1, IH2.
Qed.

(** *** Rooms do not touch each other *)

(** Property X8.  An event that names a room touches no other room:
    the members the registry has for another room and the sockets the
    adapter has for it are the same before and after. *)
Theorem rooms_are_independent sid roomId r ev st :
  event_room ev = Some roomId → r ≠ roomId →
  JsMap.get r (roomMembers (handle sid ev st).1) = JsMap.get r (roomMembers st)
  ∧ rooms (handle sid ev st).1 !! r = rooms st !! r.
Proof.
  intros Hev Hr.
  destruct ev as [|room uid uuid|room uid pid att|room o t|room a t|room i t
                 |room uid|];
    cbn [handle event_room] in *; try done; injection Hev as ->.
  - rewrite on_join_room_unfold. simpl. case_decide; [done|]. simpl.
    rewrite get_set_ne by done. unfold adapter_join.
    by rewrite lookup_insert_ne.
  - rewrite on_leave_room_registry, decide_False by done.
    split; [done|]. unfold on_leave_room. simpl. unfold adapter_leave.
    destruct (rooms st !! roomId) as [g|]; [|done].
    destruct (without sid g).
    + by rewrite lookup_insert_ne.
    + by rewrite lookup_delete_ne.
Qed.

(** *** Chat *)

(** Property X9.  In every state the server reaches when the
    database call of [send-message] has settled, the chat message is
    delivered once, to the room of the adapter: to every member the
    registry has for the room then, the sender included if it is one,
    and to no other socket but, possibly, the one the room is named
    after.  The recipients are the same whether the database stored the
    message or not; when it did not, the payload is made of the fields
    received, with the type [TEXT].  The server's state does not
    change. *)
Theorem send_message_reaches_room {StoredMessage : Type} evs roomId :
  ∃ to : gset string,
    list_to_set
      (JsMap.keys
         (default JsMap.empty
            (JsMap.get roomId (roomMembers (run evs init).1)))) ⊆ to ∧
    to ⊆
      list_to_set
        (JsMap.keys
           (default JsMap.empty
              (JsMap.get roomId (roomMembers (run evs init).1))))
      ∪ {[roomId]} ∧
    ∀ (saved : option StoredMessage) now sid uid content,
      on_send_message saved now sid roomId uid content (run evs init).1 =
      ((run evs init).1,
       [ToRoom roomId to
          (match saved with
           | Some message => stored message
           | None => unsaved uid roomId content "TEXT" now
           end)]).
Proof.
  pose proof (run_state_ok evs init state_ok_init) as [_ Had].
  destruct (Had roomId) as [Hlo Hhi].
  exists (default ∅ (rooms (run evs init).1 !! roomId)).
  split_and!; [done | done |].
  intros saved now sid uid content. unfold on_send_message. by destruct saved.
Qed.

(** A message to the room [R1] of [alice], [bob] and [carol]. *)
Example send_message_to_R1 :
  on_send_message (StoredMessage := unit) None 7 "a" "R1" "alice" "hello"
    three_in_R1 =
  (three_in_R1,
   [ToRoom "R1" {["a"; "b"; "c"]} (unsaved "alice" "R1" "hello" "TEXT" 7)]).
Proof. by vm_compute. Qed.

(** *** The properties on the room [R1] of [alice], [bob] and [carol] *)

(** The [join-room] of [b] arrives while the one of [a] waits for the
    database: when [a] resumes, [b] is told of [alice] and [alice] is
    sent [bob]. *)
Lemma join_introduces_both_sides_witness :
  ∃ (to : gset string) others,
    on_join_room_resumes "a" "R1" "alice" "pa" true
      (run [("a", connection); ("b", connection);
            ("a", join_room "R1" "alice" "pa");
            ("b", join_room "R1" "bob" "pb")] init).1 =
      ((run [("a", connection); ("b", connection);
             ("a", join_room "R1" "alice" "pa");
             ("b", join_room "R1" "bob" "pb")] init).1,
       [Broadcast "R1" "a" to (ev_user_joined "alice" "pa" "a");
        Emit "a" (ev_room_joined "R1" others)]) ∧
    others = [{| userId := "bob"; socketId := "b"; peerId := "pb" |}] ∧
    "b" ∈ to.
Proof.
  destruct (join_introduces_both_sides
              [("a", connection); ("b", connection);
               ("a", join_room "R1" "alice" "pa");
               ("b", join_room "R1" "bob" "pb")]
              "a" "R1" "alice" "pa" true)
    as (to & others & Hrun & Hothers & _ & _ & Hlo & _).
  exists to, others. split; [exact Hrun|]. split; [exact Hothers|].
  apply Hlo. vm_compute. reflexivity.
Defined.

Lemma join_registers_member_witness :
  JsMap.size
    (default JsMap.empty (JsMap.get "R1" (roomMembers three_in_R1))) < 10 ∧
  ∃ users',
    JsMap.get "R1"
      (roomMembers (on_join_room "d" "R1" "dave" "pd" three_in_R1).1)
      = Some users' ∧
    JsMap.get "d" users' =
      Some {| userId := "dave"; socketId := "d"; peerId := "pd" |} ∧
    JsMap.keys users' = ["a"; "b"; "c"; "d"].
Proof.
  assert (Hsize : JsMap.size
            (default JsMap.empty (JsMap.get "R1" (roomMembers three_in_R1)))
            < 10) by (vm_compute; lia).
  split; [exact Hsize|].
  destruct (join_registers_member "d" "R1" "dave" "pd" three_in_R1 Hsize)
    as (users' & Hget & Hd & _ & Hkeys & _).
  exists users'. split; [exact Hget|]. split; [exact Hd|].
  rewrite Hkeys. reflexivity.
Defined.

Lemma join_leave_round_trip_witness :
  "R4" ≠ "d" ∧
  JsMap.size
    (default JsMap.empty
       (JsMap.get "R4" (roomMembers (run alice_bob_carol init).1))) < 10 ∧
  JsMap.get "d"
    (default JsMap.empty
       (JsMap.get "R4" (roomMembers (run alice_bob_carol init).1))) = None ∧
  (on_leave_room "d" "R4" "someone"
     (on_join_room "d" "R4" "dave" "pd" (run alice_bob_carol init).1).1).1
  = (run alice_bob_carol init).1.
Proof.
  split; [discriminate|]. split; [vm_compute; lia|]. split; [reflexivity|].
  apply (join_leave_round_trip alice_bob_carol "d" "R4" "dave" "pd" "someone");
    [discriminate | vm_compute; lia | reflexivity].
Defined.

Lemma leave_then_disconnect_notifies_once_witness :
  JsMap.wf (roomMembers three_in_R1) ∧
  length
    (filter (λ d, is_user_left_to "R1" d = true)
       (run [("b", leave_room "R1" "bob"); ("b", disconnect)] three_in_R1).2)
    = 1.
Proof.
  assert (Hwf : JsMap.wf (roomMembers three_in_R1)).
  { apply (bool_decide_unpack _). vm_compute. exact I. }
  split; [exact Hwf|].
  apply (leave_then_disconnect_notifies_once "b" "R1" "bob" three_in_R1 Hwf).
Defined.

Lemma disconnect_twice_witness :
  JsMap.wf (roomMembers three_in_R1) ∧
  on_disconnect "b" (on_disconnect "b" three_in_R1).1 =
    ((on_disconnect "b" three_in_R1).1, []).
Proof.
  assert (Hwf : JsMap.wf (roomMembers three_in_R1)).
  { apply (bool_decide_unpack _). vm_compute. exact I. }
  split; [exact Hwf|].
  apply (disconnect_twice "b" three_in_R1 Hwf).
Defined.

(** [bob] is in [R1] and in [R3]; [alice] leaves [R1]. *)
Lemma rooms_are_independent_witness :
  event_room (leave_room "R1" "alice") = Some "R1" ∧ "R3" ≠ "R1" ∧
  JsMap.get "R3"
    (roomMembers (handle "a" (leave_room "R1" "alice") three_in_R1).1)
  = JsMap.get "R3" (roomMembers three_in_R1).
Proof.
  split; [reflexivity|]. split; [discriminate|].
  apply (rooms_are_independent "a" "R1" "R3" (leave_room "R1" "alice")
           three_in_R1); [reflexivity | discriminate].
Defined.

End HubMoreSpec.

(** ** More of the client *)

Module ClientMoreSpec.
Import Client ClientMore JsMapFacts ClientSpec.
Import JsString.

(** *** Configuration *)

Lemma replace_prefix pattern replacement s :
  startsWith pattern s = true →
  replace pattern replacement s =
  replacement +:+ string_drop (String.length pattern) s.
Proof. intros Hp. destruct s; simpl; by rewrite Hp. Qed.

Lemma getEnv_unset env key d :
  env key = None ∨ env key = Some "" → getEnv env key d = d.
Proof. unfold getEnv. by intros [-> | ->]. Qed.

Lemma getEnv_set env key d v :
  env key = Some v → v ≠ "" → getEnv env key d = v.
Proof. unfold getEnv. intros -> Hv. by rewrite decide_False. Qed.

(** Property X10.  The signaling URL [getConfig] returns never starts
    with [ws://] or [wss://]: a [ws://] URL becomes an [http://] one and
    a [wss://] URL an [https://] one, with the rest unchanged; any other
    URL is returned as it is, with no warning; a variable that is unset
    or empty gives [http://localhost:3001]. *)
Theorem getConfig_signaling_url (env : string → option string) :
  let key := "NEXT_PUBLIC_SIGNALING_URL" in
  let url := signalingUrl (getConfig env).1 in
  startsWith "ws://" url = false ∧ startsWith "wss://" url = false ∧
  (env key = None ∨ env key = Some "" → url = "http://localhost:3001") ∧
  (∀ rest, env key = Some ("ws://" +:+ rest) → url = "http://" +:+ rest) ∧
  (∀ rest, env key = Some ("wss://" +:+ rest) → url = "https://" +:+ rest) ∧
  (∀ v, env key = Some v → v ≠ "" →
        startsWith "ws://" v = false → startsWith "wss://" v = false →
        url = v ∧ (getConfig env).2 = []).
Proof.
  intros key url.
  assert (Hcases :
    ∀ url0, getEnv env key "http://localhost:3001" = url0 →
      (startsWith "ws://" url0 = true ∧
       url = "http://" +:+ string_drop 5 url0) ∨
      (startsWith "ws://" url0 = false ∧ startsWith "wss://" url0 = true ∧
       url = "https://" +:+ string_drop 6 url0) ∨
      (startsWith "ws://" url0 = false ∧ startsWith "wss://" url0 = false ∧
       url = url0 ∧ (getConfig env).2 = [])).
  { intros url0 Hurl0. unfold url, getConfig. fold key. rewrite Hurl0.
    destruct (startsWith "ws://" url0) eqn:Hws.
    - left. split; [done|]. rewrite (replace_prefix _ _ _ Hws). done.
    - right. destruct (startsWith "wss://" url0) eqn:Hwss.
      + left. split_and!; try done. simpl.
        by rewrite (replace_prefix _ _ _ Hwss).
      + right. done. }
  split_and!.
  - destruct (Hcases _ eq_refl) as [[_ ->]|[(_ & _ & ->)|(? & _ & -> & _)]];
      done.
  - destruct (Hcases _ eq_refl) as [[_ ->]|[(_ & _ & ->)|(_ & ? & -> & _)]];
      done.
  - intros Hunset.
    destruct (Hcases _ (getEnv_unset env key _ Hunset))
      as [[? _]|[(_ & ? & _)|(_ & _ & -> & _)]]; done.
  - intros rest Hset.
    destruct (Hcases _ (getEnv_set env key _ _ Hset ltac:(done)))
      as [[_ ->]|[(? & _)|(? & _)]]; done.
  - intros rest Hset.
    destruct (Hcases _ (getEnv_set env key _ _ Hset ltac:(done)))
      as [[? _]|[(_ & _ & ->)|(_ & ? & _)]]; done.
  - intros v Hset Hv Hws Hwss.
    destruct (Hcases _ (getEnv_set env key _ _ Hset Hv))
      as [[? _]|[(_ & ? & _)|(_ & _ & Hu & Hw)]];
      [congruence | congruence | done].
Qed.

Section IceServers.
Variable trim : string → string.

Lemma filled_empty : filled trim "" = false.
Proof. done. Qed.

(** Property X11.  The ICE servers always start with the two STUN
    servers of Google, and there are at most two more.  A STUN server
    configured on Google's host is not added again: an entry after the
    first two that names that host can only be the TURN server.  With no
    STUN and no TURN server configured the list is those two; with no
    TURN server configured no entry has a user name or a credential,
    whatever [NEXT_PUBLIC_TURN_USERNAME] and [NEXT_PUBLIC_TURN_PASSWORD]
    hold. *)
Theorem ice_servers_google_first_turn_optional
    (env : string → option string) :
  let servers := getRTCConfiguration trim env in
  take 2 servers =
    [stun "stun:stun.l.google.com:19302";
     stun "stun:stun1.l.google.com:19302"] ∧
  2 ≤ length servers ≤ 4 ∧
  (∀ s, s ∈ drop 2 servers → includes "stun.l.google.com" (urls s) = true →
        urls s = turnServer (getConfig env).1) ∧
  ((env "NEXT_PUBLIC_STUN_SERVER" = None ∨
    env "NEXT_PUBLIC_STUN_SERVER" = Some "") →
   (env "NEXT_PUBLIC_TURN_SERVER" = None ∨
    env "NEXT_PUBLIC_TURN_SERVER" = Some "") →
   servers =
     [stun "stun:stun.l.google.com:19302";
      stun "stun:stun1.l.google.com:19302"]) ∧
  ((env "NEXT_PUBLIC_TURN_SERVER" = None ∨
    env "NEXT_PUBLIC_TURN_SERVER" = Some "") →
   ∀ s, s ∈ servers → username s = None ∧ credential s = None).
Proof.
  intros servers. unfold servers, getRTCConfiguration.
  set (config := (getConfig env).1).
  assert (Hturn : (env "NEXT_PUBLIC_TURN_SERVER" = None ∨
                   env "NEXT_PUBLIC_TURN_SERVER" = Some "") →
                  turnServer config = "").
  { intros Hu. unfold config, getConfig.
    repeat match goal with |- context [if ?b then _ else _] => destruct b end;
      simpl; by apply getEnv_unset. }
  assert (Hstun : (env "NEXT_PUBLIC_STUN_SERVER" = None ∨
                   env "NEXT_PUBLIC_STUN_SERVER" = Some "") →
                  stunServer config = "stun:stun.l.google.com:19302").
  { intros Hu. unfold config, getConfig.
    repeat match goal with |- context [if ?b then _ else _] => destruct b end;
      simpl; by apply getEnv_unset. }
  split; [done|]. split; [|split; [|split]].
  - simpl. repeat case_match; simpl; lia.
  - simpl. clear Hturn Hstun.
    destruct (filled trim (stunServer config) &&
              negb (includes "stun.l.google.com" (stunServer config)))
      eqn:Hc; destruct (filled trim (turnServer config)); simpl;
      intros s Hs Hg; rewrite ?elem_of_cons, ?elem_of_nil in Hs.
    + destruct Hs as [->| [->|[]]]; [|done]. simpl in Hg.
      apply andb_true_iff in Hc as [_ Hc]. by rewrite Hg in Hc.
    + destruct Hs as [->|[]]. simpl in Hg.
      apply andb_true_iff in Hc as [_ Hc]. by rewrite Hg in Hc.
    + by destruct Hs as [->|[]].
    + done.
  - intros Hs Ht. rewrite (Hturn Ht), (Hstun Hs), filled_empty.
    by destruct (filled trim _).
  - intros Ht. rewrite (Hturn Ht), filled_empty, app_nil_r. simpl.
    intros s Hs. case_match; rewrite ?elem_of_cons, ?elem_of_nil in Hs;
      naive_solver.
Qed.

End IceServers.

Ltac run_MX :=
  unfold mbind, mret, MX_bind, MX_ret, bindX, retX, try_finallyX, try_catchX,
    getX, step, modify, lift, throwX, await_createAnswer in *;
  run_M.

(** *** The sessions in a running client *)

Lemma frame_refl c : frame c c.
Proof. by repeat split. Qed.

Lemma frame_trans c0 c1 c2 : frame c0 c1 → frame c1 c2 → frame c0 c2.
Proof.
  intros (?&?&?&?&?&?) (?&?&?&?&?&?). repeat split; try congruence.
Qed.

Lemma keys_map_entry (f : RemotePeer → RemotePeer) sid
    (m : JsMap.t RemotePeer) :
  JsMap.keys (map (λ kv : string * RemotePeer,
                     if decide (kv.1 = sid) then (kv.1, f kv.2) else kv) m)
  = JsMap.keys m.
Proof.
  unfold JsMap.keys. induction m as [|[k p] m IH]; [done|].
  cbn [map fmap list_fmap]. cbn [map fmap list_fmap] in IH.
  rewrite IH. by case_decide.
Qed.

Lemma sessions_ok_map (f : RemotePeer → RemotePeer) sid
    (m : JsMap.t RemotePeer) :
  (∀ p, socketId (f p) = socketId p) →
  sessions_ok m →
  sessions_ok (map (λ kv : string * RemotePeer,
                      if decide (kv.1 = sid) then (kv.1, f kv.2) else kv) m).
Proof.
  intros Hf [Hwf Hk]. split.
  - unfold JsMap.wf. by rewrite keys_map_entry.
  - clear Hwf. induction Hk as [|[k p] m Hkp Hk IH]; simpl; constructor; auto.
    case_decide; simpl in *; by rewrite ?Hf.
Qed.

Lemma inv_map E strict (f : RemotePeer → RemotePeer) sid c c' :
  sessions_inv E strict c →
  remotePeers c' =
    map (λ kv : string * RemotePeer,
           if decide (kv.1 = sid) then (kv.1, f kv.2) else kv)
      (remotePeers c) →
  localStream c' = localStream c →
  (∀ p, socketId (f p) = socketId p) →
  (strict = true → keeps_senders E →
   ∀ p, follows (localStream c) (peerConnection p) →
        follows (localStream c) (peerConnection (f p))) →
  sessions_inv E strict c'.
Proof.
  intros [Hs Hf] Hm HL Hsid Hfol. split.
  - rewrite Hm. by apply sessions_ok_map.
  - intros Hstrict. destruct (Hf Hstrict) as [Hk Hfs]. split; [done|].
    unfold senders_follow_stream. rewrite Hm, HL.
    specialize (Hfol Hstrict Hk). clear -Hfol Hfs.
    unfold senders_follow_stream in Hfs.
    induction Hfs as [|[k p] m Hkp Hm IH]; simpl; constructor; auto.
    case_decide; simpl; auto.
Qed.

Lemma inv_same E strict c c' :
  sessions_inv E strict c →
  remotePeers c' = remotePeers c → localStream c' = localStream c →
  sessions_inv E strict c'.
Proof.
  intros [Hs Hf] Hm HL. unfold sessions_inv, senders_follow_stream.
  by rewrite Hm, HL.
Qed.

Lemma forEach_stop_run (s : MediaStream) : ∀ c,
  forEach s stop_track c = (Normal tt, set_tracks (stopped s (tracks c)) c, []).
Proof.
  induction s as [|r s IH]; intros c; simpl.
  - run_M. by destruct c.
  - run_M. unfold stop_track at 1. by rewrite IH.
Qed.

Lemma stopped_lookup (s : MediaStream) : ∀ h r,
  stopped s h !! r = if decide (r ∈ s) then stop <$> h !! r else h !! r.
Proof.
  induction s as [|x s IH]; intros h r.
  - unfold stopped. cbn [foldl].
    case_decide as Hr; [by apply elem_of_nil in Hr|done].
  - unfold stopped in *. cbn [foldl]. rewrite IH, lookup_alter.
    repeat case_decide; subst; try done; try (by destruct (h !! r)).
    all: exfalso; set_solver.
Qed.

Lemma kind_of_stopped s h r : kind_of (stopped s h) r = kind_of h r.
Proof.
  unfold kind_of. rewrite stopped_lookup. case_decide; [|done].
  by destruct (h !! r).
Qed.

Lemma warn_config_run env c :
  warn_config env c =
  (Normal tt, c, (λ w, Console console_warn [w]) <$> (getConfig env).2).
Proof.
  unfold warn_config. generalize (getConfig env).2. intros l.
  induction l as [|w l IH]; [done|].
  cbn [forEach]. run_M. by rewrite IH.
Qed.

Lemma createPeerConnection_unfold `{ConnectionEngine} env userId peerId sid
    initiator c :
  createPeerConnection env userId peerId sid initiator c =
  if JsMap.has sid (remotePeers c) then
    (Normal tt, c,
     [Console console_log ["Peer connection already exists for:"; sid]])
  else
    let peer :=
      {| userId := userId; peerId := peerId; socketId := sid;
         peerConnection := fresh_connection (default [] (localStream c));
         stream := None; isInitiator := initiator |} in
    let c1 := set_remotePeers (JsMap.set sid peer (remotePeers c)) c in
    let '(r, c', steps) :=
      if initiator then createOffer peer c1 else (Normal tt, c1, []) in
    (r, c',
     Console console_log
       ["🔗 Creating peer connection for " +:+ userId +:+ " (initiator: " +:+
        bool_string initiator +:+ ")"]
     :: ((λ w, Console console_warn [w]) <$> (getConfig env).2) ++ steps).
Proof.
  unfold createPeerConnection. run_M.
  destruct (JsMap.has sid (remotePeers c)); [done|].
  rewrite warn_config_run. cbv zeta.
  destruct initiator.
  - destruct (createOffer _ _) as [[[] ?] ?]; reflexivity.
  - reflexivity.
Qed.

Section Run.
Context {E : ConnectionEngine} {AE : AnswerEngine}.
Variable strict : bool.
Variable env : string → option string.

Lemma createOffer_inv peer c :
  sessions_inv E strict c →
  (strict = true → follows (localStream c) (peerConnection peer)) →
  ∃ c' steps, createOffer peer c = (Normal tt, c', steps) ∧
              frame c c' ∧ sessions_inv E strict c' ∧
              JsMap.keys (remotePeers c') = JsMap.keys (remotePeers c).
Proof.
  intros Hinv Hpeer. unfold createOffer. run_M. simpl.
  destruct (decide (socketId peer ∈ isNegotiating c)) as [Hin|Hnotin].
  { eexists _, _. split; [reflexivity|]. split; [apply frame_refl|done]. }
  assert (Hclear : ({[socketId peer]} ∪ isNegotiating c) ∖ {[socketId peer]}
                   = isNegotiating c) by set_solver.
  assert (Hsame : ∀ c', remotePeers c' = remotePeers c →
                        localStream c' = localStream c →
                        sessions_inv E strict c' ∧
                        JsMap.keys (remotePeers c') = JsMap.keys (remotePeers c)).
  { intros c' Hm HL. split; [by eapply inv_same|by rewrite Hm]. }
  destruct (decide (signalingState (peerConnection peer) = stable ∧
                    iceConnectionState (peerConnection peer) = ice_new))
    as [[Hs Hi]|Hno]; simpl.
  2: { eexists _, _. split; [reflexivity|]. split; [by repeat split|].
       by apply Hsame. }
  destruct (engine_createOffer (peerConnection peer)) as [e|offer] eqn:Hoffer;
    simpl.
  { eexists _, _. split; [reflexivity|]. split; [by repeat split|].
    by apply Hsame. }
  destruct (engine_setLocalDescription (peerConnection peer) offer)
    as [e|pc'] eqn:Hlocal; simpl.
  { eexists _, _. split; [reflexivity|]. split; [by repeat split|].
    by apply Hsame. }
  assert (Hstored : ∀ c',
            remotePeers c' =
              map (λ kv : string * RemotePeer,
                     if decide (kv.1 = socketId peer)
                     then (kv.1, with_peerConnection pc' kv.2) else kv)
                (remotePeers c) →
            localStream c' = localStream c →
            sessions_inv E strict c' ∧
            JsMap.keys (remotePeers c') = JsMap.keys (remotePeers c)).
  { intros c' Hm HL. split.
    - eapply (inv_map E strict (with_peerConnection pc')); eauto.
      intros Hstrict (Hk & _ & _) p _. unfold follows. simpl.
      rewrite (Hk _ _ _ Hlocal). by apply Hpeer.
    - rewrite Hm. apply (keys_map_entry (with_peerConnection pc')). }
  destruct (socket c) eqn:Hsocket; simpl.
  - eexists _, _. split; [reflexivity|]. split; [by repeat split|].
    by apply Hstored.
  - eexists _, _. split; [reflexivity|]. split; [by repeat split|].
    by apply Hstored.
Qed.


Lemma createPeerConnection_inv userId peerId sid initiator c :
  sessions_inv E strict c →
  ∃ c' steps,
    createPeerConnection env userId peerId sid initiator c
      = (Normal tt, c', steps) ∧
    frame c c' ∧ sessions_inv E strict c' ∧
    JsMap.keys (remotePeers c') =
      (if JsMap.has sid (remotePeers c) then JsMap.keys (remotePeers c)
       else JsMap.keys (remotePeers c) ++ [sid]) ∧
    (JsMap.has sid (remotePeers c) = true →
     c' = c ∧
     steps = [Console console_log ["Peer connection already exists for:"; sid]]).
Proof.
  intros Hinv. rewrite createPeerConnection_unfold.
  destruct (JsMap.has sid (remotePeers c)) eqn:Hhas.
  { eexists _, _. split; [reflexivity|]. split; [apply frame_refl|]. done. }
  cbv zeta.
  set (peer := {| userId := userId; peerId := peerId; socketId := sid;
                  peerConnection := fresh_connection (default [] (localStream c));
                  stream := None; isInitiator := initiator |}).
  set (c1 := set_remotePeers (JsMap.set sid peer (remotePeers c)) c).
  assert (Hinv1 : sessions_inv E strict c1).
  { destruct Hinv as [[Hwf Hk] Hf]. split; [split|].
    - by apply wf_set.
    - by apply Forall_set.
    - intros Hs. destruct (Hf Hs) as [Hkeep Hfs]. split; [done|].
      unfold senders_follow_stream. simpl. by apply Forall_set. }
  assert (Hkeys1 : JsMap.keys (remotePeers c1)
                   = JsMap.keys (remotePeers c) ++ [sid]).
  { simpl. by rewrite keys_set, Hhas. }
  destruct initiator.
  - destruct (createOffer_inv peer c1 Hinv1)
      as (c' & steps & Hrun & Hfr & Hinv' & Hkeys).
    { intros _. done. }
    rewrite Hrun. eexists _, _. split; [reflexivity|].
    split; [|split; [done|split; [by rewrite Hkeys|done]]].
    eapply frame_trans; [|exact Hfr]. by repeat split.
  - eexists _, _. split; [reflexivity|].
    split; [by repeat split|]. done.
Qed.

Lemma handleOffer_inv error_string peer offer c :
  sessions_inv E strict c →
  (strict = true → follows (localStream c) (peerConnection peer)) →
  ∃ c' steps, handleOffer error_string peer offer c = (Normal tt, c', steps) ∧
              frame c c' ∧ sessions_inv E strict c' ∧
              JsMap.keys (remotePeers c') = JsMap.keys (remotePeers c).
Proof.
  intros Hinv Hpeer. unfold handleOffer. run_MX. simpl.
  destruct (decide (socketId peer ∈ isNegotiating c)) as [Hin|Hnotin].
  { eexists _, _. split; [reflexivity|]. split; [apply frame_refl|done]. }
  assert (Hclear : ({[socketId peer]} ∪ isNegotiating c) ∖ {[socketId peer]}
                   = isNegotiating c) by set_solver.
  assert (Hsame : ∀ c', remotePeers c' = remotePeers c →
                        localStream c' = localStream c →
                        sessions_inv E strict c' ∧
                        JsMap.keys (remotePeers c') = JsMap.keys (remotePeers c)).
  { intros c' Hm HL. split; [by eapply inv_same|by rewrite Hm]. }
  destruct (decide (signalingState (peerConnection peer) = stable ∨
                    signalingState (peerConnection peer) = have_local_offer))
    as [Hs|Hno]; simpl.
  2: { eexists _, _. split; [reflexivity|]. split; [by repeat split|].
       by apply Hsame. }
  destruct (engine_setRemoteDescription (peerConnection peer) offer)
    as [e|pc1] eqn:Hremote; simpl.
  { eexists _, _. split; [reflexivity|]. split; [by repeat split|].
    by apply Hsame. }
  set (c1 := store_peerConnection (socketId peer) pc1 c).
  assert (Hc1 : sessions_inv E strict c1 ∧
                JsMap.keys (remotePeers c1) = JsMap.keys (remotePeers c) ∧
                (strict = true → follows (localStream c) pc1)).
  { assert (Hpc1 : strict = true → follows (localStream c) pc1).
    { intros Hstrict. destruct Hinv as [_ Hf].
      destruct (Hf Hstrict) as [(_ & Hk & _) _]. unfold follows.
      rewrite (Hk _ _ _ Hremote). by apply Hpeer. }
    split; [|split; [apply (keys_map_entry (with_peerConnection pc1))|done]].
    eapply (inv_map E strict (with_peerConnection pc1)); eauto. }
  destruct Hc1 as (Hinv1 & Hkeys1 & Hpc1).
  assert (Hsame1 : ∀ c', remotePeers c' = remotePeers c1 →
                         localStream c' = localStream c →
                         sessions_inv E strict c' ∧
                         JsMap.keys (remotePeers c') = JsMap.keys (remotePeers c)).
  { intros c' Hm HL. split; [by eapply inv_same|by rewrite Hm]. }
  destruct (engine_createAnswer pc1) as [e|answer] eqn:Hanswer; simpl.
  { eexists _, _. split; [reflexivity|]. split; [by repeat split|].
    by apply Hsame1. }
  destruct (engine_setLocalDescription pc1 answer) as [e|pc2] eqn:Hlocal; simpl.
  { eexists _, _. split; [reflexivity|]. split; [by repeat split|].
    by apply Hsame1. }
  assert (Hstored : ∀ c',
            remotePeers c' =
              map (λ kv : string * RemotePeer,
                     if decide (kv.1 = socketId peer)
                     then (kv.1, with_peerConnection pc2 kv.2) else kv)
                (remotePeers c1) →
            localStream c' = localStream c →
            sessions_inv E strict c' ∧
            JsMap.keys (remotePeers c') = JsMap.keys (remotePeers c)).
  { intros c' Hm HL. split.
    - eapply (inv_map E strict (with_peerConnection pc2)); eauto.
      intros Hstrict (Hk & _ & _) p _. unfold follows. simpl.
      rewrite (Hk _ _ _ Hlocal). by apply Hpc1.
    - rewrite Hm, <- Hkeys1. apply (keys_map_entry (with_peerConnection pc2)). }
  destruct (socket c) eqn:Hsocket; simpl.
  - eexists _, _. split; [reflexivity|]. split; [by repeat split|].
    by apply Hstored.
  - eexists _, _. split; [reflexivity|]. split; [by repeat split|].
    by apply Hstored.
Qed.

Lemma handleAnswer_inv peer answer c :
  sessions_inv E strict c →
  (strict = true → follows (localStream c) (peerConnection peer)) →
  ∃ c' steps, handleAnswer peer answer c = (Normal tt, c', steps) ∧
              frame c c' ∧ sessions_inv E strict c' ∧
              JsMap.keys (remotePeers c') = JsMap.keys (remotePeers c).
Proof.
  intros Hinv Hpeer. unfold handleAnswer. run_M. simpl.
  destruct (decide (signalingState (peerConnection peer) = have_local_offer))
    as [Hs|Hno]; simpl.
  2: { eexists _, _. split; [reflexivity|]. split; [apply frame_refl|done]. }
  destruct (engine_setRemoteDescription (peerConnection peer) answer)
    as [e|pc1] eqn:Hremote; simpl.
  { destruct (includes "stable" e); simpl;
      (eexists _, _; split; [reflexivity|]; split; [apply frame_refl|done]). }
  eexists _, _. split; [reflexivity|]. split; [by repeat split|]. split.
  - eapply (inv_map E strict (with_peerConnection pc1)); eauto.
    intros Hstrict (_ & Hk & _) p _. unfold follows. simpl.
    rewrite (Hk _ _ _ Hremote). by apply Hpeer.
  - apply (keys_map_entry (with_peerConnection pc1)).
Qed.

Lemma inv_get c sid peer :
  sessions_inv E strict c → JsMap.get sid (remotePeers c) = Some peer →
  socketId peer = sid ∧
  (strict = true → follows (localStream c) (peerConnection peer)).
Proof.
  intros [[_ Hk] Hf] Hget. apply get_Some_elem in Hget. split.
  - rewrite Forall_forall in Hk. by apply (Hk _ Hget).
  - intros Hstrict. destruct (Hf Hstrict) as [_ Hfs].
    unfold senders_follow_stream in Hfs. rewrite Forall_forall in Hfs.
    by apply (Hfs _ Hget).
Qed.

Lemma on_answer_inv answer from c :
  sessions_inv E strict c →
  ∃ c' steps, on_answer answer from c = (Normal tt, c', steps) ∧
              frame c c' ∧ sessions_inv E strict c' ∧
              JsMap.keys (remotePeers c') = JsMap.keys (remotePeers c).
Proof.
  intros Hinv. unfold on_answer. run_M.
  destruct (JsMap.get from (remotePeers c)) as [peer|] eqn:Hget.
  - destruct (handleAnswer_inv peer answer c Hinv) as (c' & steps & Hrun & ?).
    { by apply (inv_get c from). }
    rewrite Hrun. eexists _, _. split; [reflexivity|]. done.
  - eexists _, _. split; [reflexivity|]. split; [apply frame_refl|done].
Qed.

Lemma on_offer_inv error_string offer from c :
  sessions_inv E strict c →
  ∃ c' steps, on_offer error_string offer from c = (Normal tt, c', steps) ∧
              frame c c' ∧ sessions_inv E strict c' ∧
              JsMap.keys (remotePeers c') = JsMap.keys (remotePeers c).
Proof.
  intros Hinv. unfold on_offer.
  unfold mbind, MX_bind, bindX at 1. unfold lift at 1. simpl.
  unfold bindX at 1. unfold getX at 1.
  destruct (JsMap.get from (remotePeers c)) as [peer|] eqn:Hget.
  - destruct (handleOffer_inv error_string peer offer c Hinv)
      as (c' & steps & Hrun & ?).
    { by apply (inv_get c from). }
    rewrite Hrun. eexists _, _. split; [reflexivity|]. done.
  - eexists _, _. split; [reflexivity|]. split; [apply frame_refl|done].
Qed.

Lemma on_ice_candidate_inv candidate from c :
  sessions_inv E strict c →
  ∃ c' steps, on_ice_candidate candidate from c = (Normal tt, c', steps) ∧
              frame c c' ∧ sessions_inv E strict c' ∧
              JsMap.keys (remotePeers c') = JsMap.keys (remotePeers c).
Proof.
  intros Hinv. unfold on_ice_candidate. run_M. simpl.
  destruct (JsMap.get from (remotePeers c)) as [peer|] eqn:Hget.
  2: { eexists _, _. split; [reflexivity|]. split; [apply frame_refl|done]. }
  destruct candidate as [candidate|].
  2: { eexists _, _. split; [reflexivity|]. split; [apply frame_refl|done]. }
  destruct (engine_addIceCandidate (peerConnection peer) candidate)
    as [e|pc1] eqn:Hadd; simpl.
  { eexists _, _. split; [reflexivity|]. split; [apply frame_refl|done]. }
  eexists _, _. split; [reflexivity|]. split; [by repeat split|]. split.
  - eapply (inv_map E strict (with_peerConnection pc1)); eauto.
    intros Hstrict (_ & _ & Hk) p _. unfold follows. simpl.
    rewrite (Hk _ _ _ Hadd). by apply (inv_get c from).
  - apply (keys_map_entry (with_peerConnection pc1)).
Qed.


Lemma removePeerConnection_inv uid c :
  sessions_inv E strict c →
  ∃ c' steps, removePeerConnection uid c = (Normal tt, c', steps) ∧
              frame c c' ∧ sessions_inv E strict c'.
Proof.
  intros Hinv. rewrite removePeerConnection_unfold.
  destruct (find _ _) as [peer|].
  2: { eexists _, _. split; [reflexivity|]. split; [apply frame_refl|done]. }
  assert (Hdel : ∀ c1, localStream c1 = localStream c →
            sessions_inv E strict
              (set_remotePeers (JsMap.delete (socketId peer) (remotePeers c)) c1)).
  { intros c1 HL. destruct Hinv as [[Hwf Hk] Hf]. split; [split|].
    - by apply wf_delete.
    - by apply Forall_delete.
    - intros Hs. destruct (Hf Hs) as [Hkeep Hfs]. split; [done|].
      unfold senders_follow_stream in *. simpl. rewrite HL.
      by apply Forall_delete. }
  destruct (stream peer) as [s|].
  - rewrite forEach_stop_run. eexists _, _. split; [reflexivity|]. split.
    + repeat split. intros r. simpl. apply kind_of_stopped.
    + by apply Hdel.
  - eexists _, _. split; [reflexivity|]. split; [by repeat split|].
    by apply Hdel.
Qed.

Lemma on_user_left_inv uid sid c :
  sessions_inv E strict c →
  ∃ c' steps, on_user_left uid sid c = (Normal tt, c', steps) ∧
              frame c c' ∧ sessions_inv E strict c'.
Proof.
  intros Hinv. unfold on_user_left. run_M.
  destruct (removePeerConnection_inv uid c Hinv) as (c' & steps & Hrun & ?).
  rewrite Hrun. eexists _, _. split; [reflexivity|]. done.
Qed.

Lemma toggleTrack_inv k c :
  sessions_inv E strict c →
  ∃ b c', toggleTrack k c = (Normal b, c', []) ∧
          frame c c' ∧ sessions_inv E strict c'.
Proof.
  intros Hinv. destruct (local_track k c) as [t|] eqn:Ht.
  - destruct (toggleTrack_unfold k c t Ht) as (h' & Hrun & Hh').
    rewrite Hrun. eexists _, _. split; [reflexivity|]. split.
    + repeat split. intros r. unfold kind_of. simpl. rewrite Hh'.
      case_decide; [|done]. by destruct (tracks c !! r).
    + by eapply inv_same.
  - unfold toggleTrack. run_M. rewrite Ht.
    eexists _, _. split; [reflexivity|]. split; [apply frame_refl|done].
Qed.

Lemma on_track_inv uid sid k streams c :
  sessions_inv E strict c →
  ∃ c' steps, on_track uid sid k streams c = (Normal tt, c', steps) ∧
              frame c c' ∧ sessions_inv E strict c'.
Proof.
  intros Hinv. unfold on_track. run_MX. simpl.
  destruct (JsMap.get sid (remotePeers c)) as [peer|] eqn:Hget.
  2: { eexists _, _. split; [reflexivity|]. split; [apply frame_refl|done]. }
  destruct (head streams) as [s|].
  2: { eexists _, _. split; [reflexivity|]. split; [apply frame_refl|done]. }
  eexists _, _. split; [reflexivity|]. split; [by repeat split|].
  eapply (inv_map E strict
            (λ p, {| userId := userId p; peerId := peerId p;
                     socketId := socketId p;
                     peerConnection := peerConnection p;
                     stream := Some s; isInitiator := isInitiator p |}));
    eauto.
Qed.

Lemma on_icecandidate_inv pid candidate c :
  ∃ steps, on_icecandidate pid candidate c = (Normal tt, c, steps).
Proof.
  unfold on_icecandidate. run_MX. simpl.
  destruct candidate; [destruct (socket c)|]; by eexists.
Qed.

Lemma on_connectionstatechange_inv uid sid state c :
  ∃ steps, on_connectionstatechange uid sid state c = (Normal tt, c, steps).
Proof.
  unfold on_connectionstatechange. run_MX. simpl.
  case_decide; [|by eexists].
  destruct (JsMap.get sid (remotePeers c)) as [peer|]; [|by eexists].
  destruct (stream peer); by eexists.
Qed.

Lemma on_user_joined_inv uid pid sid c :
  sessions_inv E strict c →
  ∃ c' steps, on_user_joined env uid pid sid c = (Normal tt, c', steps) ∧
              frame c c' ∧ sessions_inv E strict c' ∧
              JsMap.keys (remotePeers c') =
                (if JsMap.has sid (remotePeers c) then JsMap.keys (remotePeers c)
                 else JsMap.keys (remotePeers c) ++ [sid]).
Proof.
  intros Hinv. unfold on_user_joined. run_MX.
  destruct (createPeerConnection_inv uid pid sid true c Hinv)
    as (c' & steps & Hrun & Hfr & Hinv' & Hkeys & _).
  simpl. rewrite Hrun. eexists _, _. split; [reflexivity|]. done.
Qed.

Lemma forEachX_cons {A} (x : A) l (f : A → MX unit) c :
  forEachX (x :: l) f c =
  match f x c with
  | (Normal _, c1, t1) =>
      let '(r, c2, t2) := forEachX l f c1 in (r, c2, t1 ++ t2)
  | (Throw e, c1, t1) => (Throw e, c1, t1)
  end.
Proof. done. Qed.

Lemma connect_to_user_run u c :
  connect_to_user env u c =
  if decide (Hub.userId u ≠ own_userId c) then
    lift (createPeerConnection env (Hub.userId u) (Hub.peerId u)
            (Hub.socketId u) true) c
  else (Normal tt, c, []).
Proof.
  unfold connect_to_user, mbind, MX_bind, bindX, getX.
  case_decide; [by destruct (lift _ c) as [[? ?] ?]|done].
Qed.

Lemma on_room_joined_loop (users : list Hub.Member) : ∀ c,
  sessions_inv E strict c →
  ∃ c' steps,
    forEachX users (connect_to_user env) c = (Normal tt, c', steps) ∧
    frame c c' ∧ sessions_inv E strict c' ∧
    (∀ sid, sid ∈ JsMap.keys (remotePeers c') ↔
            sid ∈ JsMap.keys (remotePeers c) ∨
            ∃ u, u ∈ users ∧ Hub.socketId u = sid ∧
                 Hub.userId u ≠ own_userId c).
Proof.
  induction users as [|u users IH]; intros c Hinv.
  - eexists _, _. split; [reflexivity|]. split; [apply frame_refl|].
    split; [done|]. intros sid. split; [by left|].
    intros [?|(u & Hu & _)]; [done|]. by apply elem_of_nil in Hu.
  - rewrite forEachX_cons, connect_to_user_run.
    destruct (decide (Hub.userId u ≠ own_userId c)) as [Hne|Heq].
    + destruct (createPeerConnection_inv (Hub.userId u) (Hub.peerId u)
                  (Hub.socketId u) true c Hinv)
        as (c1 & steps1 & Hrun1 & Hfr1 & Hinv1 & Hkeys1 & _).
      unfold lift. rewrite Hrun1.
      destruct (IH c1 Hinv1) as (c' & steps & Hrun & Hfr & Hinv' & Hkeys).
      rewrite Hrun.
      eexists _, _. split; [reflexivity|].
      split; [by eapply frame_trans|]. split; [done|].
      intros sid. rewrite Hkeys, Hkeys1.
      destruct Hfr1 as (_ & _ & _ & -> & _).
      destruct (JsMap.has (Hub.socketId u) (remotePeers c)) eqn:Hhas.
      * split.
        -- intros [?|(u' & Hu' & ?)]; [by left|]. right. exists u'.
           split; [by right|done].
        -- intros [?|(u' & Hu' & Hsid & Hown)]; [by left|].
           apply elem_of_cons in Hu' as [->|Hu'].
           ++ left. apply has_true in Hhas as [p Hp].
              apply get_Some_elem in Hp. rewrite <- Hsid.
              apply list_elem_of_fmap. by exists (Hub.socketId u, p).
           ++ right. by exists u'.
      * rewrite elem_of_app, list_elem_of_singleton. split.
        -- intros [[?| ->]|(u' & Hu' & ?)].
           ++ by left.
           ++ right. exists u. split; [by left|done].
           ++ right. exists u'. split; [by right|done].
        -- intros [?|(u' & Hu' & Hsid & Hown)].
           { by left; left. }
           apply elem_of_cons in Hu' as [->|Hu'].
           ++ left. by right.
           ++ right. by exists u'.
    + destruct (IH c Hinv) as (c' & steps & Hrun & Hfr & Hinv' & Hkeys).
      rewrite Hrun.
      eexists _, _. split; [reflexivity|]. split; [done|]. split; [done|].
      intros sid. rewrite Hkeys. split.
      * intros [?|(u' & Hu' & ?)]; [by left|]. right. exists u'.
        split; [by right|done].
      * intros [?|(u' & Hu' & Hsid & Hown)]; [by left|].
        apply elem_of_cons in Hu' as [->|Hu']; [by destruct Heq|].
        right. by exists u'.
Qed.

Lemma lift_run {A} (m : M A) c r c' steps :
  m c = (r, c', steps) → lift m c = (r, c', Base <$> steps).
Proof. unfold lift. by intros ->. Qed.

Lemma on_room_joined_inv users c :
  sessions_inv E strict c →
  ∃ c' steps,
    on_room_joined env users c = (Normal tt, c', steps) ∧
    frame c c' ∧ sessions_inv E strict c' ∧
    (∀ sid, sid ∈ JsMap.keys (remotePeers c') ↔
            sid ∈ JsMap.keys (remotePeers c) ∨
            ∃ u, u ∈ users ∧ Hub.socketId u = sid ∧
                 Hub.userId u ≠ own_userId c).
Proof.
  intros Hinv.
  destruct (on_room_joined_loop users c Hinv) as (c' & steps & Hrun & ?).
  unfold on_room_joined, mbind, MX_bind, bindX, step. rewrite Hrun.
  eexists _, _. split; [reflexivity|]. done.
Qed.

Variable error_string : string → string.

Lemma listen_inv ev c :
  sessions_inv E strict c →
  frame c (listen env error_string ev c).1.2 ∧
  sessions_inv E strict (listen env error_string ev c).1.2.
Proof.
  intros Hinv.
  destruct ev as [message|uid pid sid|room users|uid sid|offer from target
                 |answer from target|candidate from target]; cbn [listen].
  - split; [apply frame_refl|done].
  - destruct (on_user_joined_inv uid pid sid c Hinv)
      as (c' & steps & -> & ? & ? & _). done.
  - destruct (on_room_joined_inv users c Hinv)
      as (c' & steps & -> & ? & ? & _). done.
  - destruct (on_user_left_inv uid sid c Hinv)
      as (c' & steps & Hrun & ? & ?).
    by rewrite (lift_run _ _ _ _ _ Hrun).
  - destruct (on_offer_inv error_string offer from c Hinv)
      as (c' & steps & -> & ? & ? & _). done.
  - destruct (on_answer_inv answer from c Hinv)
      as (c' & steps & Hrun & ? & ? & _).
    by rewrite (lift_run _ _ _ _ _ Hrun).
  - destruct (on_ice_candidate_inv (Some candidate) from c Hinv)
      as (c' & steps & Hrun & ? & ? & _).
    by rewrite (lift_run _ _ _ _ _ Hrun).
Qed.

Lemma react_inv i c :
  sessions_inv E strict c →
  frame c (react env error_string i c).1.2 ∧
  sessions_inv E strict (react env error_string i c).1.2.
Proof.
  intros Hinv.
  destruct i as [| |ev|uid sid k streams|pid candidate|uid sid state| |];
    cbn [react].
  - split; [apply frame_refl|done].
  - split; [apply frame_refl|done].
  - by apply listen_inv.
  - destruct (on_track_inv uid sid k streams c Hinv)
      as (c' & steps & -> & ? & ?). done.
  - destruct (on_icecandidate_inv pid candidate c) as (steps & ->).
    split; [apply frame_refl|done].
  - destruct (on_connectionstatechange_inv uid sid state c)
      as (steps & ->).
    split; [apply frame_refl|done].
  - destruct (toggleTrack_inv video c Hinv) as (b & c' & Hrun & ? & ?).
    unfold toggleCamera, lift, mbind, M_bind, bind. by rewrite Hrun.
  - destruct (toggleTrack_inv audio c Hinv) as (b & c' & Hrun & ? & ?).
    unfold toggleMicrophone, lift, mbind, M_bind, bind. by rewrite Hrun.
Qed.

Lemma run_inv inputs : ∀ c,
  sessions_inv E strict c →
  frame c (run env error_string inputs c).1 ∧
  sessions_inv E strict (run env error_string inputs c).1.
Proof.
  induction inputs as [|i inputs IH]; intros c Hinv; cbn [run].
  - split; [apply frame_refl|done].
  - destruct (react_inv i c Hinv) as [Hfr1 Hinv1].
    destruct (react env error_string i c) as [[r c1] t1]. cbn [fst snd] in *.
    destruct (IH c1 Hinv1) as [Hfr Hinv'].
    destruct (run env error_string inputs c1) as [c2 t2]. cbn [fst snd] in *.
    split; [by eapply frame_trans|done].
Qed.

End Run.

(** *** Muting in a running call *)

Lemma find_sender_follow k h (l : list TrackRef) :
  find (λ s : RTCRtpSender, track s ≫= kind_of h = Some k)
    ((λ r, {| track := Some r |}) <$> l) ≫= track
  = head (getTracksOfKind k h l).
Proof.
  unfold find, getTracksOfKind.
  unfold MediaStream.
  induction l as [|r l IH]; [done|].
  rewrite filter_cons. cbn [fmap list_fmap List.find track mbind option_bind].
  destruct (decide (kind_of h r = Some k)) as [Hk|Hk].
  - by rewrite bool_decide_eq_true_2.
  - by rewrite bool_decide_eq_false_2.
Qed.

Lemma sender_track_follow k c peer :
  follows (localStream c) (peerConnection peer) →
  sender_track k (tracks c) peer = local_track k c.
Proof.
  unfold follows, sender_track, local_track. intros ->.
  rewrite find_sender_follow. by destruct (localStream c).
Qed.

Lemma mirrored_follow k c t r :
  senders_follow_stream c → local_track k c = Some t →
  r ∈ mirrored k c → r = t.
Proof.
  intros Hf Ht Hr. unfold mirrored in Hr.
  apply list_elem_of_omap in Hr as (peer & Hpeer & Hs).
  unfold JsMap.values in Hpeer.
  apply list_elem_of_fmap in Hpeer as ([sid p] & -> & Hin).
  unfold senders_follow_stream in Hf. rewrite Forall_forall in Hf.
  specialize (Hf _ Hin). cbn [snd] in *.
  rewrite (sender_track_follow k c p Hf), Ht in Hs. by injection Hs.
Qed.

Lemma toggle_involution k c t :
  senders_follow_stream c → local_track k c = Some t →
  ∃ c1,
    toggleTrack k c = (Normal (negb (enabled_of (tracks c) t)), c1, []) ∧
    toggleTrack k c1 = (Normal (enabled_of (tracks c) t), c, []).
Proof.
  intros Hf Ht.
  destruct (toggleTrack_unfold k c t Ht) as (h1 & Hrun1 & Hh1).
  set (e := enabled_of (tracks c) t) in *.
  set (c1 := set_tracks h1 c) in *.
  assert (Hkind1 : ∀ r, kind_of (tracks c1) r = kind_of (tracks c) r).
  { intros r. unfold kind_of. simpl. rewrite Hh1.
    case_decide; [|done]. by destruct (tracks c !! r). }
  assert (Ht1 : local_track k c1 = Some t).
  { unfold local_track in *. simpl.
    destruct (localStream c) as [s|]; [|done]. simpl in *.
    by rewrite (getTracksOfKind_ext k (tracks c) h1 s Hkind1). }
  assert (Hm1 : mirrored k c1 = mirrored k c).
  { unfold mirrored. simpl. by apply mirrored_ext. }
  pose proof (local_track_in_heap k c t Ht) as Hkind.
  assert (Hin : ∃ x, tracks c !! t = Some x ∧ enabled x = e).
  { unfold e, enabled_of. unfold kind_of in Hkind.
    destruct (tracks c !! t); [by eexists | done]. }
  destruct Hin as (x & Hx & Hxe).
  assert (He1 : enabled_of (tracks c1) t = negb e).
  { unfold enabled_of. simpl. rewrite Hh1, decide_True by by left.
    by rewrite Hx. }
  destruct (toggleTrack_unfold k c1 t Ht1) as (h2 & Hrun2 & Hh2).
  rewrite He1, negb_involutive in Hrun2, Hh2. rewrite Hm1 in Hh2.
  assert (Hback : h2 = tracks c).
  { apply map_eq. intros r. rewrite Hh2. simpl. rewrite Hh1.
    destruct (decide (r = t ∨ r ∈ mirrored k c)) as [Hr|Hr]; [|done].
    assert (r = t) as -> by (destruct Hr; [done|by eapply mirrored_follow]).
    rewrite Hx. simpl. unfold with_enabled. simpl. rewrite <- Hxe.
    by destruct x. }
  exists c1. split; [done|]. rewrite Hrun2, Hback. by destruct c.
Qed.

Section Reachable.
Context {E : ConnectionEngine} {AE : AnswerEngine}.
Variable env : string → option string.
Variable error_string : string → string.

(** Property X12.  Whatever the hub delivers, the connections fire
    and the user toggles, in any order and with any outcome of the
    engine's calls, the sessions stay as [createPeerConnection] files
    them: one session for a socket id, stored under it.  The listeners
    leave the socket, the local stream, the room, the user and the kind
    of every track alone, and [isNegotiating] is back to what it was
    after every one of them: no flag is left behind by a failure. *)
Theorem sessions_stay_keyed (inputs : list Input) (c0 : State) :
  sessions_ok (remotePeers c0) →
  sessions_ok (remotePeers (run env error_string inputs c0).1) ∧
  frame c0 (run env error_string inputs c0).1.
Proof.
  intros Hok.
  destruct (run_inv false env error_string inputs c0) as [Hfr [Hs _]]; [|done].
  by split.
Qed.

(** Property X13.  When the engine leaves the senders of a connection
    alone and every session was created under the current local stream,
    as after [initialize], then in every state the client reaches two
    calls of [toggleCamera] (or [toggleMicrophone]) give back the very
    state they started from: the senders hold the local tracks
    themselves. *)
Theorem toggle_twice_restores_call (inputs : list Input) (c0 : State)
    (k : TrackKind) (t : TrackRef) :
  keeps_senders E →
  sessions_ok (remotePeers c0) → senders_follow_stream c0 →
  let c := (run env error_string inputs c0).1 in
  local_track k c = Some t →
  ∃ c1,
    toggleTrack k c = (Normal (negb (enabled_of (tracks c) t)), c1, []) ∧
    toggleTrack k c1 = (Normal (enabled_of (tracks c) t), c, []).
Proof.
  intros Hkeep Hok Hfol c Ht.
  destruct (run_inv true env error_string inputs c0) as [_ [_ Hf]]; [by split|].
  destruct (Hf eq_refl) as [_ Hfs]. by apply toggle_involution.
Qed.

End Reachable.


(** *** One session for a socket *)

Lemma has_keys {V} k (m : JsMap.t V) :
  JsMap.has k m = true ↔ k ∈ JsMap.keys m.
Proof.
  destruct (JsMap.has k m) eqn:Hh.
  - split; [intros _|done]. apply has_true in Hh as [v Hv].
    apply get_Some_elem in Hv. apply list_elem_of_fmap. by exists (k, v).
  - split; [done|]. intros Hin. apply has_false, get_None_keys in Hh. done.
Qed.

Lemma createOffer_offers `{ConnectionEngine} peer c :
  socketId peer ∉ isNegotiating c →
  signalingState (peerConnection peer) = stable →
  iceConnectionState (peerConnection peer) = ice_new →
  Engine (socketId peer) call_createOffer ∈ (createOffer peer c).2.
Proof.
  intros Hn Hs Hi. unfold createOffer. run_M. simpl.
  rewrite decide_False by done.
  rewrite decide_True by done. simpl.
  destruct (engine_createOffer (peerConnection peer)) as [e|offer]; simpl.
  { set_solver. }
  destruct (engine_setLocalDescription (peerConnection peer) offer)
    as [e|pc']; simpl.
  { set_solver. }
  destruct (socket c); simpl; set_solver.
Qed.

Lemma createOffer_keys `{ConnectionEngine} peer c :
  ∃ c' steps, createOffer peer c = (Normal tt, c', steps) ∧
              JsMap.keys (remotePeers c') = JsMap.keys (remotePeers c).
Proof.
  unfold createOffer. run_M. simpl.
  destruct (decide (socketId peer ∈ isNegotiating c)); [by eexists _, _|].
  destruct (decide (signalingState (peerConnection peer) = stable ∧
                    iceConnectionState (peerConnection peer) = ice_new));
    simpl; [|by eexists _, _].
  destruct (engine_createOffer (peerConnection peer)) as [e|offer]; simpl;
    [by eexists _, _|].
  destruct (engine_setLocalDescription (peerConnection peer) offer)
    as [e|pc']; simpl; [by eexists _, _|].
  destruct (socket c); simpl;
    (eexists _, _; split; [reflexivity|];
     apply (keys_map_entry (with_peerConnection pc'))).
Qed.

(** Property X14.  After [user-joined] the client has a session for
    the socket.  A second [user-joined] for the same socket, with any
    user id and peer id, makes no second session and calls nothing on a
    connection: the client's state stays as it is, the callback is told
    that the user joined, and the console notes that the connection
    exists. *)
Theorem user_joined_twice `{ConnectionEngine} (env : string → option string)
    (uid pid uid' pid' sid : string) (c : State) :
  ∃ c1 steps,
    on_user_joined env uid pid sid c = (Normal tt, c1, steps) ∧
    JsMap.has sid (remotePeers c1) = true ∧
    on_user_joined env uid' pid' sid c1 =
      (Normal tt, c1,
       [Base (Console console_log ["👤 User joined:"; uid']);
        OnUserJoined uid';
        Base (Console console_log ["Peer connection already exists for:"; sid])]).
Proof.
  assert (Hfirst : ∃ c1 steps,
            createPeerConnection env uid pid sid true c = (Normal tt, c1, steps) ∧
            JsMap.has sid (remotePeers c1) = true).
  { rewrite createPeerConnection_unfold.
    destruct (JsMap.has sid (remotePeers c)) eqn:Hhas.
    { by eexists _, _. }
    cbv zeta.
    match goal with
    | |- context [createOffer ?p ?c1] =>
        destruct (createOffer_keys p c1) as (c' & steps & Hrun & Hkeys)
    end.
    rewrite Hrun. eexists _, _. split; [reflexivity|].
    apply has_keys. rewrite Hkeys. simpl. rewrite keys_set, Hhas.
    apply elem_of_app. right. by apply list_elem_of_singleton. }
  destruct Hfirst as (c1 & steps & Hrun & Hhas).
  exists c1. eexists. split; [|split; [exact Hhas|]].
  - unfold on_user_joined. run_MX. simpl. by rewrite Hrun.
  - unfold on_user_joined. run_MX. simpl.
    by rewrite createPeerConnection_unfold, Hhas.
Qed.

(** *** A peer that comes and goes *)

Lemma createOffer_shape `{ConnectionEngine} peer c :
  ∃ steps m',
    createOffer peer c = (Normal tt, set_remotePeers m' c, steps) ∧
    (m' = remotePeers c ∨
     ∃ pc', m' = map (λ kv : string * RemotePeer,
                        if decide (kv.1 = socketId peer)
                        then (kv.1, with_peerConnection pc' kv.2) else kv)
                   (remotePeers c)).
Proof.
  unfold createOffer. run_M. simpl.
  destruct (decide (socketId peer ∈ isNegotiating c)) as [Hin|Hnotin].
  { eexists _, (remotePeers c). split; [|by left]. by destruct c. }
  assert (Hclear : ({[socketId peer]} ∪ isNegotiating c) ∖ {[socketId peer]}
                   = isNegotiating c) by set_solver.
  destruct (decide (signalingState (peerConnection peer) = stable ∧
                    iceConnectionState (peerConnection peer) = ice_new));
    simpl.
  2: { eexists _, (remotePeers c). split; [|by left].
       rewrite Hclear. by destruct c. }
  destruct (engine_createOffer (peerConnection peer)) as [e|offer]; simpl.
  { eexists _, (remotePeers c). split; [|by left].
    rewrite Hclear. by destruct c. }
  destruct (engine_setLocalDescription (peerConnection peer) offer)
    as [e|pc']; simpl.
  { eexists _, (remotePeers c). split; [|by left].
    rewrite Hclear. by destruct c. }
  destruct (socket c) eqn:Hsocket; simpl;
    (eexists _, _; split; [|right; by exists pc']);
    rewrite Hclear; unfold set_remotePeers; simpl; by rewrite Hsocket.
Qed.

Lemma map_entry_notin (f : RemotePeer → RemotePeer) sid
    (m : JsMap.t RemotePeer) :
  sid ∉ JsMap.keys m →
  map (λ kv : string * RemotePeer,
         if decide (kv.1 = sid) then (kv.1, f kv.2) else kv) m = m.
Proof.
  unfold JsMap.keys. induction m as [|[k p] m IH]; [done|].
  rewrite fmap_cons, not_elem_of_cons. intros [Hne Hm]. cbn [map fst].
  rewrite decide_False by done. by rewrite IH.
Qed.

(** Property X21.  A peer that comes and goes leaves no trace.  When
    the client has no session for the socket and none for the user,
    [user-joined] followed by [user-left] for that user closes the
    connection that was made and gives back the very state the client
    started from, whatever the engine did with the offer in between. *)
Theorem user_joined_then_left_round_trip `{ConnectionEngine}
    (env : string → option string) (uid pid sid sid' : string) (c : State) :
  JsMap.get sid (remotePeers c) = None →
  Forall (λ e : string * RemotePeer, userId e.2 ≠ uid) (remotePeers c) →
  ∃ c1 steps1 steps2,
    on_user_joined env uid pid sid c = (Normal tt, c1, steps1) ∧
    JsMap.keys (remotePeers c1) = JsMap.keys (remotePeers c) ++ [sid] ∧
    lift (on_user_left uid sid') c1 = (Normal tt, c, steps2) ∧
    Base (Engine sid call_close) ∈ steps2.
Proof.
  intros Hnew Huser.
  pose proof (proj1 (get_None_keys _ _) Hnew) as Hnotin.
  assert (Hfirst : ∃ p' steps,
            createPeerConnection env uid pid sid true c =
              (Normal tt,
               set_remotePeers (remotePeers c ++ [(sid, p')]) c, steps) ∧
            userId p' = uid ∧ socketId p' = sid ∧ stream p' = None).
  { rewrite createPeerConnection_unfold.
    rewrite (proj2 (has_false _ _) Hnew). cbv zeta.
    match goal with
    | |- context [createOffer ?p ?c1] =>
        destruct (createOffer_shape p c1) as (steps & m' & Hrun & Hm');
        set (peer := p) in *
    end.
    rewrite Hrun.
    assert (Hset : JsMap.set sid peer (remotePeers c)
                   = remotePeers c ++ [(sid, peer)]).
    { rewrite <- (app_nil_r (remotePeers c)) at 1.
      by rewrite set_app_r. }
    destruct Hm' as [->| [pc' ->]].
    - exists peer. eexists. split; [|done].
      cbn [remotePeers set_remotePeers]. rewrite Hset. by destruct c.
    - exists (with_peerConnection pc' peer). eexists. split; [|done].
      cbn [remotePeers set_remotePeers socketId peer]. rewrite Hset.
      rewrite map_app, map_entry_notin by done.
      cbn [map fst snd]. rewrite decide_True by done. by destruct c. }
  destruct Hfirst as (p' & steps & Hrun & Hu & Hs & Hstream).
  eexists _, _, _. split_and!.
  - unfold on_user_joined. run_MX. simpl. by rewrite Hrun.
  - cbn [remotePeers set_remotePeers]. unfold JsMap.keys.
    by rewrite fmap_app.
  - unfold lift, on_user_left. run_M.
    rewrite removePeerConnection_unfold. cbn [remotePeers set_remotePeers].
    rewrite (find_first_match uid (remotePeers c) [] sid p' Huser Hu).
    rewrite Hstream, Hs. cbn.
    rewrite delete_app, delete_notin by done. cbn.
    rewrite decide_True by done. rewrite app_nil_r.
    by destruct c.
  - set_solver.
Qed.

(** *** Answering an offer *)

(** Property X15.  [handleOffer] always returns and leaves
    [isNegotiating] as it found it.  With the flag of the socket up it
    only logs.  Otherwise it runs between raising and lowering the flag;
    it hands the offer to [setRemoteDescription] exactly in the states
    [stable] and [have-local-offer]; it sends an [answer], to the peer id
    of the session and for the room of the client, exactly when the
    three calls of the engine succeeded and the socket is set; and it
    calls the error callback exactly when one of the three calls failed,
    with the text of that error. *)
Theorem handleOffer_guarded `{ConnectionEngine} `{AnswerEngine}
    (error_string : string → string) (peer : RemotePeer)
    (offer : RTCSessionDescriptionInit) (c : State) :
  let pc := peerConnection peer in
  let accepted := signalingState pc = stable ∨
                  signalingState pc = have_local_offer in
  ∃ c' steps,
    handleOffer error_string peer offer c = (Normal tt, c', steps) ∧
    isNegotiating c' = isNegotiating c ∧
    (socketId peer ∈ isNegotiating c →
       c' = c ∧
       steps = [Base (Console console_log
                        ["Already handling offer from:"; userId peer])]) ∧
    (socketId peer ∉ isNegotiating c →
       head steps = Some (Base (NegotiatingAdd (socketId peer))) ∧
       last steps = Some (Base (NegotiatingDelete (socketId peer))) ∧
       (∀ d, Base (Engine (socketId peer) (call_setRemoteDescription d)) ∈ steps
             ↔ d = offer ∧ accepted) ∧
       (∀ m, Base (SocketEmit m) ∈ steps ↔
          ∃ pc1 answer pc2,
            accepted ∧
            engine_setRemoteDescription pc offer = inr pc1 ∧
            engine_createAnswer pc1 = inr answer ∧
            engine_setLocalDescription pc1 answer = inr pc2 ∧
            socket c = true ∧
            m = emit_answer (roomId c) answer (Some (peerId peer))) ∧
       (∀ message, Base (OnError message) ∈ steps ↔
          ∃ e,
            message = "Connection error with " +:+ userId peer +:+ ": " +:+
                      error_string e ∧
            accepted ∧
            (engine_setRemoteDescription pc offer = inl e ∨
             ∃ pc1, engine_setRemoteDescription pc offer = inr pc1 ∧
                    (engine_createAnswer pc1 = inl e ∨
                     ∃ answer, engine_createAnswer pc1 = inr answer ∧
                               engine_setLocalDescription pc1 answer = inl e)))).
Proof.
  intros pc accepted. unfold accepted, pc. clear accepted pc.
  unfold handleOffer. run_MX. simpl.
  destruct (decide (socketId peer ∈ isNegotiating c)) as [Hin|Hnotin].
  { eexists _, _. split; [reflexivity|]. split; [done|]. split; [done|].
    by intros ?. }
  assert (Hclear : ({[socketId peer]} ∪ isNegotiating c) ∖ {[socketId peer]}
                   = isNegotiating c) by set_solver.
  destruct (decide (signalingState (peerConnection peer) = stable ∨
                    signalingState (peerConnection peer) = have_local_offer))
    as [Hs|Hno]; simpl.
  2: { eexists _, _. split; [reflexivity|]. split; [done|]. split; [done|].
       intros _. simpl. split_and!; try done.
       - intros d. split; [set_solver|]. tauto.
       - intros m. split; [set_solver|]. intros (? & ? & ? & ? & _). tauto.
       - intros m. split; [set_solver|]. intros (? & _ & ? & _). tauto. }
  destruct (engine_setRemoteDescription (peerConnection peer) offer)
    as [e|pc1] eqn:Hremote; simpl.
  { eexists _, _. split; [reflexivity|]. split; [done|]. split; [done|].
    intros _. simpl. split_and!; try done.
    - intros d. rewrite !elem_of_cons, elem_of_nil. naive_solver.
    - intros m. split; [set_solver|]. by intros (? & ? & ? & _ & ? & _).
    - intros m. rewrite !elem_of_cons, elem_of_nil. naive_solver. }
  destruct (engine_createAnswer pc1) as [e|answer] eqn:Hanswer; simpl.
  { eexists _, _. split; [reflexivity|]. split; [done|]. split; [done|].
    intros _. simpl. split_and!; try done.
    - intros d. rewrite !elem_of_cons, elem_of_nil. naive_solver.
    - intros m. split; [set_solver|].
      intros (? & ? & ? & _ & [= <-] & ? & _). congruence.
    - intros m. split.
      + intros Hm. exists e. split; [set_solver|]. split; [done|].
        right. exists pc1. split; [done|]. by left.
      + intros (e0 & -> & _ & [?|(pc1' & [= <-] & [Hc|(a & Ha & _)])]);
          [done| |congruence].
        rewrite Hanswer in Hc. injection Hc as <-. set_solver. }
  destruct (engine_setLocalDescription pc1 answer) as [e|pc2] eqn:Hlocal;
    simpl.
  { eexists _, _. split; [reflexivity|]. split; [done|]. split; [done|].
    intros _. simpl. split_and!; try done.
    - intros d. rewrite !elem_of_cons, elem_of_nil. naive_solver.
    - intros m. split; [set_solver|].
      intros (? & ? & ? & _ & [= <-] & Ha & Hl & _).
      rewrite Hanswer in Ha. injection Ha as <-. congruence.
    - intros m. split.
      + intros Hm. exists e. split; [set_solver|]. split; [done|].
        right. exists pc1. split; [done|]. right. by exists answer.
      + intros (e0 & -> & _ & [?|(pc1' & [= <-] & [Hc|(a & Ha & Hl)])]);
          [done|congruence|].
        rewrite Hanswer in Ha. injection Ha as <-.
        rewrite Hlocal in Hl. injection Hl as <-. set_solver. }
  assert (Hnoerr : ∀ e0,
            ¬ (engine_setRemoteDescription (peerConnection peer) offer = inl e0 ∨
               ∃ pc1', engine_setRemoteDescription (peerConnection peer) offer
                       = inr pc1' ∧
                  (engine_createAnswer pc1' = inl e0 ∨
                   ∃ a, engine_createAnswer pc1' = inr a ∧
                        engine_setLocalDescription pc1' a = inl e0))).
  { intros e0. rewrite Hremote.
    intros [?|(pc1' & [= <-] & [Hc|(a & Ha & Hl)])]; [done|congruence|].
    rewrite Hanswer in Ha. injection Ha as <-. congruence. }
  rewrite Hremote in Hnoerr.
  destruct (socket c) eqn:Hsocket; simpl.
  - eexists _, _. split; [reflexivity|]. split; [done|]. split; [done|].
    intros _. simpl. split_and!; try done.
    + intros d. rewrite !elem_of_cons, elem_of_nil. naive_solver.
    + intros m. split.
      * intros Hm. exists pc1, answer, pc2. split_and!; try done. set_solver.
      * intros (? & ? & ? & _ & [= <-] & Ha & _ & _ & ->).
        rewrite Hanswer in Ha. injection Ha as <-. set_solver.
    + intros m. split; [set_solver|].
      intros (e0 & _ & _ & Herr). by destruct (Hnoerr e0).
  - eexists _, _. split; [reflexivity|]. split; [done|]. split; [done|].
    intros _. simpl. split_and!; try done.
    + intros d. rewrite !elem_of_cons, elem_of_nil. naive_solver.
    + intros m. split; [set_solver|].
      by intros (? & ? & ? & _ & _ & _ & _ & ? & _).
    + intros m. split; [set_solver|].
      intros (e0 & _ & _ & Herr). by destruct (Hnoerr e0).
Qed.


(** *** Joining a room *)

Lemma createPeerConnection_offers `{ConnectionEngine} env uid pid sid c :
  JsMap.has sid (remotePeers c) = false → sid ∉ isNegotiating c →
  Engine sid call_createOffer
    ∈ (createPeerConnection env uid pid sid true c).2.
Proof.
  intros Hhas Hn. rewrite createPeerConnection_unfold, Hhas. cbv zeta.
  match goal with
  | |- context [createOffer ?p ?c1] =>
      pose proof (createOffer_offers p c1 Hn eq_refl eq_refl) as Hoffer;
      destruct (createOffer p c1) as [[r c'] t]
  end.
  cbn [snd] in *. rewrite elem_of_cons, elem_of_app. auto.
Qed.

Lemma room_joined_loop_offers `{ConnectionEngine} env
    (users : list Hub.Member) :
  ∀ c sid,
    sessions_ok (remotePeers c) →
    sid ∈ JsMap.keys
            (remotePeers (forEachX users (connect_to_user env) c).1.2) →
    sid ∉ JsMap.keys (remotePeers c) → sid ∉ isNegotiating c →
    Base (Engine sid call_createOffer)
      ∈ (forEachX users (connect_to_user env) c).2.
Proof.
  induction users as [|u users IH]; intros c sid Hok Hin Hnew Hneg.
  - done.
  - assert (Hinv : sessions_inv _ false c) by done.
    rewrite forEachX_cons, connect_to_user_run in Hin |- *.
    destruct (decide (Hub.userId u ≠ own_userId c)) as [Hne|Heq].
    + destruct (createPeerConnection_inv false env (Hub.userId u) (Hub.peerId u)
                  (Hub.socketId u) true c Hinv)
        as (c1 & steps1 & Hrun1 & Hfr1 & Hinv1 & Hkeys1 & _).
      pose proof (createPeerConnection_offers env (Hub.userId u) (Hub.peerId u)
                    (Hub.socketId u) c) as Hoff.
      rewrite Hrun1 in Hoff. cbn [snd] in Hoff.
      unfold lift in Hin |- *. rewrite Hrun1 in Hin |- *.
      specialize (IH c1 sid).
      destruct (forEachX users (connect_to_user env) c1) as [[r c'] t].
      cbn [fst snd] in *. apply elem_of_app.
      destruct (decide (sid = Hub.socketId u)) as [->|Hsid].
      * left. apply list_elem_of_fmap. eexists. split; [done|].
        apply Hoff; [|done]. apply not_true_iff_false. by rewrite has_keys.
      * right. apply IH; [by destruct Hinv1|done| |].
        -- rewrite Hkeys1. destruct (JsMap.has _ _); [done|].
           rewrite elem_of_app, list_elem_of_singleton. tauto.
        -- by destruct Hfr1 as (_ & _ & _ & _ & -> & _).
    + specialize (IH c sid Hok).
      destruct (forEachX users (connect_to_user env) c) as [[r c'] t].
      cbn [fst snd] in *. by apply IH.
Qed.

(** Property X16.  After [room-joined] the client has a session for a
    socket exactly when it had one before or the list names the socket
    with a user id other than the client's own: the client's own user,
    on any socket, gets no session.  Every session so made starts with an
    offer of this side, unless the flag of the socket was up.  An offer
    that then comes from a socket without a session is dropped: the
    listener logs it and does nothing else. *)
Theorem room_joined_connects_other_users `{ConnectionEngine} `{AnswerEngine}
    (env : string → option string) (error_string : string → string)
    (users : list Hub.Member) (c : State) :
  sessions_ok (remotePeers c) →
  ∃ c' steps,
    on_room_joined env users c = (Normal tt, c', steps) ∧
    sessions_ok (remotePeers c') ∧ frame c c' ∧
    (∀ sid, sid ∈ JsMap.keys (remotePeers c') ↔
            sid ∈ JsMap.keys (remotePeers c) ∨
            ∃ u, u ∈ users ∧ Hub.socketId u = sid ∧
                 Hub.userId u ≠ own_userId c) ∧
    (∀ sid, sid ∈ JsMap.keys (remotePeers c') →
            sid ∉ JsMap.keys (remotePeers c) → sid ∉ isNegotiating c →
            Base (Engine sid call_createOffer) ∈ steps) ∧
    (∀ offer from, from ∉ JsMap.keys (remotePeers c') →
       on_offer error_string offer from c' =
         (Normal tt, c',
          [Base (Console console_log ["📥 Received offer from:"; from])])).
Proof.
  intros Hok.
  destruct (on_room_joined_inv false env users c)
    as (c' & steps & Hrun & Hfr & [Hok' _] & Hkeys);
    [done|].
  exists c', steps. split_and!; try done.
  - intros sid Hin Hnew Hneg.
    pose proof (room_joined_loop_offers env users c sid Hok) as Hoff.
    unfold on_room_joined, mbind, MX_bind, bindX, step in Hrun.
    destruct (forEachX users (connect_to_user env) c) as [[r c1] t].
    cbn [fst snd] in *. injection Hrun as -> -> <-.
    right. by apply Hoff.
  - intros offer from Hfrom. unfold on_offer. run_MX. simpl.
    apply get_None_keys in Hfrom. by rewrite Hfrom.
Qed.

(** *** Leaving *)

Lemma stopped_app s1 s2 h : stopped (s1 ++ s2) h = stopped s2 (stopped s1 h).
Proof. unfold stopped. by rewrite foldl_app. Qed.

Lemma forEachX_close (peers : list RemotePeer) : ∀ c,
  forEachX peers close_session c =
  (Normal tt,
   set_tracks (stopped (concat (omap stream peers)) (tracks c)) c,
   (λ p, Base (Engine (socketId p) call_close)) <$> peers).
Proof.
  induction peers as [|p peers IH]; intros c.
  - cbn. unfold mret, MX_ret, retX. by destruct c.
  - rewrite forEachX_cons. unfold close_session at 1. run_MX.
    destruct (stream p) as [s|] eqn:Hs.
    + rewrite forEach_stop_run. cbn [fmap list_fmap app].
      rewrite IH. cbn [omap list_omap]. rewrite Hs. cbn [concat].
      rewrite stopped_app. done.
    + rewrite IH. cbn [omap list_omap]. rewrite Hs. by destruct c.
Qed.

Lemma disconnect_run (c : State) :
  disconnect c =
  (Normal tt, torn_down c,
   ((λ p, Base (Engine (socketId p) call_close)) <$>
      JsMap.values (remotePeers c)) ++
   (if socket c
    then [EmitLeaveRoom (roomId c) (own_userId c); SocketDisconnect]
    else []) ++
   [Base (Console console_log ["🔌 Disconnected from all peers"])]).
Proof.
  unfold disconnect.
  unfold mbind, MX_bind. unfold bindX at 1. unfold getX at 1.
  unfold bindX at 1. rewrite forEachX_close.
  run_MX. cbn.
  destruct (localStream c) as [s|] eqn:HL.
  - rewrite forEach_stop_run. cbn.
    destruct (socket c) eqn:Hsock; cbn; rewrite ?app_nil_r;
      unfold torn_down, streams_of, clear_socket, clear_localStream,
        set_tracks, set_remotePeers; cbn;
      rewrite HL, ?Hsock, stopped_app; done.
  - destruct (socket c) eqn:Hsock; cbn; rewrite ?app_nil_r;
      unfold torn_down, streams_of, clear_socket, clear_localStream,
        set_tracks, set_remotePeers; cbn;
      rewrite HL, ?Hsock, ?app_nil_r; done.
Qed.

Lemma filter_closes (peers : list RemotePeer) (rest : list Step) :
  List.filter is_close
    (((λ p, Base (Engine (socketId p) call_close)) <$> peers) ++ rest)
  = ((λ p, Base (Engine (socketId p) call_close)) <$> peers) ++
    List.filter is_close rest.
Proof. induction peers as [|p peers IH]; [done|]. cbn. by rewrite IH. Qed.

Lemma to_hub_closes (peers : list RemotePeer) (rest : list Step) :
  flat_map to_hub
    (((λ p, Base (Engine (socketId p) call_close)) <$> peers) ++ rest)
  = flat_map to_hub rest.
Proof. induction peers as [|p peers IH]; [done|]. cbn. by rewrite IH. Qed.

(** Property X17.  [disconnect] always returns.  It closes the
    connection of every session once, in the order of the map, stops
    every track of the streams of the sessions and of the local stream
    and no other track, and leaves no session, no local stream and no
    socket.  The hub is sent [leave-room], for the room and the user of
    the client, and then the socket is closed, exactly when there was a
    socket.  A second [disconnect] changes nothing and sends nothing. *)
Theorem disconnect_tears_down (c : State) :
  ∃ steps,
    disconnect c = (Normal tt, torn_down c, steps) ∧
    List.filter is_close steps =
      (λ p, Base (Engine (socketId p) call_close)) <$>
        JsMap.values (remotePeers c) ∧
    flat_map to_hub steps =
      (if socket c
       then [Hub.leave_room (roomId c) (own_userId c); Hub.disconnect]
       else []) ∧
    (∀ r, tracks (torn_down c) !! r =
          if decide (r ∈ streams_of c) then stop <$> tracks c !! r
          else tracks c !! r) ∧
    disconnect (torn_down c) =
      (Normal tt, torn_down c,
       [Base (Console console_log ["🔌 Disconnected from all peers"])]).
Proof.
  eexists. split; [apply disconnect_run|]. split_and!.
  - rewrite filter_closes. destruct (socket c); cbn; by rewrite app_nil_r.
  - rewrite to_hub_closes. by destruct (socket c).
  - intros r. cbn. apply stopped_lookup.
  - by rewrite disconnect_run.
Qed.


(** *** Starting up *)

Lemma media_errorMessage_filled name message :
  media_errorMessage name message ≠ "".
Proof. unfold media_errorMessage. by repeat case_decide. Qed.

Lemma initialize_failed (connectToSignaling : MX unit)
    (error_string : string → string) media c errorMessage steps :
  getUserMedia media c = (Throw errorMessage, c, steps) →
  errorMessage ≠ "" →
  initialize connectToSignaling error_string media c =
    (Throw errorMessage, c,
     [Base (Console console_log
              ["🚀 Starting multi-peer WebRTC initialization..."])] ++
     steps ++
     [Base (Console console_error
              ["❌ Error initializing WebRTC:"; errorMessage]);
      Base (OnError ("Failed to initialize: " +:+ errorMessage))]).
Proof.
  intros Hget Hfilled.
  unfold initialize, try_catchX, mbind, MX_bind.
  unfold bindX at 1. unfold bindX at 1. unfold lift at 1. cbn [console effect].
  unfold bindX at 1. rewrite Hget.
  run_MX. cbn. by rewrite decide_False by done.
Qed.

(** Property X18.  When the browser has no [getUserMedia], or refuses
    or fails the request, [initialize] never tries to connect: it leaves
    the client as it was and throws the message [getUserMedia] made,
    which is never empty (the fixed text for [NotAllowedError], else the
    message of the error when it has one).  The error callback is called
    twice: by [getUserMedia] with the message, then by [initialize] with
    [Failed to initialize: ] and the same message. *)
Theorem initialize_reports_media_failure_twice
    (connectToSignaling : MX unit) (error_string : string → string)
    (c : State) :
  initialize connectToSignaling error_string media_unsupported c =
    (Throw "getUserMedia is not supported in this browser", c,
     [Base (Console console_log
              ["🚀 Starting multi-peer WebRTC initialization..."]);
      Base (OnError "getUserMedia is not supported in this browser");
      Base (Console console_error
              ["❌ Error initializing WebRTC:";
               "getUserMedia is not supported in this browser"]);
      Base (OnError ("Failed to initialize: " +:+
                     "getUserMedia is not supported in this browser"))]) ∧
  ∀ name message,
    let errorMessage := media_errorMessage name message in
    errorMessage ≠ "" ∧
    (name = "NotAllowedError" →
     errorMessage =
       "Camera/microphone permission denied. Please allow access.") ∧
    (name ≠ "NotAllowedError" → message ≠ "" → errorMessage = message) ∧
    initialize connectToSignaling error_string (media_rejected name message) c =
      (Throw errorMessage, c,
       [Base (Console console_log
                ["🚀 Starting multi-peer WebRTC initialization..."]);
        Base (Console console_log ["📹 Requesting camera and microphone..."]);
        Base (OnError errorMessage);
        Base (Console console_error
                ["❌ Error initializing WebRTC:"; errorMessage]);
        Base (OnError ("Failed to initialize: " +:+ errorMessage))]).
Proof.
  split.
  - by rewrite (initialize_failed _ _ media_unsupported c
                  "getUserMedia is not supported in this browser"
                  [Base (OnError "getUserMedia is not supported in this browser")]).
  - intros name message errorMessage. split_and!.
    + apply media_errorMessage_filled.
    + intros ->. done.
    + intros Hn Hm. unfold errorMessage, media_errorMessage.
      by rewrite !decide_False by done.
    + by rewrite (initialize_failed _ _ (media_rejected name message) c
                    errorMessage
                    [Base (Console console_log
                             ["📹 Requesting camera and microphone..."]);
                     Base (OnError errorMessage)])
        by (done || apply media_errorMessage_filled).
Qed.

(** *** The client and the hub *)

(** Property X19.  What [disconnect] of a client with a socket sends
    the hub makes the hub tell the room once that the user left: one
    [user-left] broadcast for the room of the client, with the user id of
    the client and its socket id, to the sockets that are still in the
    room. *)
Theorem client_disconnect_notifies_room_once (sid : string) (c : State)
    (st : Hub.State) :
  socket c = true → JsMap.wf (Hub.roomMembers st) →
  filter (λ d, Hub.is_user_left_to (roomId c) d = true)
    (Hub.run ((λ ev, (sid, ev)) <$> flat_map to_hub (disconnect c).2) st).2 =
    [Hub.Broadcast (roomId c) sid
       (Hub.recipients (Hub.adapter_leave sid (roomId c) (Hub.rooms st))
          (roomId c) sid)
       (Hub.ev_user_left (own_userId c) sid)].
Proof.
  intros Hsock Hwf. rewrite disconnect_run. cbn [snd].
  rewrite to_hub_closes, Hsock. cbn [flat_map to_hub app fmap list_fmap].
  by destruct (HubMoreSpec.leave_then_disconnect_filter sid (roomId c)
                 (own_userId c) st Hwf) as [-> _].
Qed.

(** Property X20.  Both ends of a new pair are initiators.  When the
    [join-room] of a socket resumes on the hub, in whatever state the
    server has reached by then, and the room, still in the registry,
    has another member at that time, the hub sends [user-joined] to that
    member and [room-joined] to the newcomer; on [user-joined] the client
    of the member makes a session for the newcomer and calls
    [createOffer] on it, and on [room-joined] the client of the newcomer
    makes a session for the member and calls [createOffer] on it too. *)
Theorem join_makes_both_sides_offer `{ConnectionEngine} `{AnswerEngine}
    (env : string → option string) (error_string : string → string)
    (evs : list (string * Hub.ClientEvent)) (sid roomId uid uuid : string)
    (member : Hub.Member) (c_member c_new : State) :
  let users :=
    default JsMap.empty
      (JsMap.get roomId (Hub.roomMembers (Hub.run evs Hub.init).1)) in
  JsMap.get (Hub.socketId member) users = Some member →
  Hub.socketId member ≠ sid →
  (* the client of the member *)
  sid ∉ JsMap.keys (remotePeers c_member) → sid ∉ isNegotiating c_member →
  (* the client of the newcomer *)
  sessions_ok (remotePeers c_new) →
  Hub.userId member ≠ own_userId c_new →
  Hub.socketId member ∉ JsMap.keys (remotePeers c_new) →
  Hub.socketId member ∉ isNegotiating c_new →
  ∃ to_members joined welcome,
    Hub.on_join_room_resumes sid roomId uid uuid true
      (Hub.run evs Hub.init).1 =
      ((Hub.run evs Hub.init).1,
       [Hub.Broadcast roomId sid to_members joined; Hub.Emit sid welcome]) ∧
    Hub.socketId member ∈ to_members ∧
    Base (Engine sid call_createOffer)
      ∈ (listen env error_string joined c_member).2 ∧
    Base (Engine (Hub.socketId member) call_createOffer)
      ∈ (listen env error_string welcome c_new).2.
Proof.
  intros users Hmember Hother Hnew_m Hneg_m Hok Huser Hnew_n Hneg_n.
  pose proof (HubSpec.run_state_ok evs Hub.init HubSpec.state_ok_init)
    as [_ Had].
  pose proof (HubMoreSpec.run_state_tidy evs Hub.init
                HubMoreSpec.state_tidy_init) as [Hm _].
  destruct (HubMoreSpec.resume_deliveries (Hub.run evs Hub.init).1 sid roomId
              uid uuid true Had Hm)
    as (to & others & Hjoin & Hothers & _ & _ & Hlo & _).
  unfold Hub.captured_roomUsers in Hothers. fold users in Hothers.
  assert (Hin : member ∈ others).
  { rewrite Hothers. unfold JsMap.values. apply list_elem_of_fmap.
    exists (Hub.socketId member, member). split; [done|].
    apply list_elem_of_filter. split; [done|]. by apply get_Some_elem. }
  eexists _, _, _. split; [exact Hjoin|]. split_and!.
  - apply Hlo. unfold Hub.members_of. fold users.
    apply elem_of_difference. split.
    + apply elem_of_list_to_set. apply get_Some_elem in Hmember.
      unfold JsMap.keys. apply list_elem_of_fmap.
      by exists (Hub.socketId member, member).
    + by rewrite elem_of_singleton.
  - cbn [listen]. unfold on_user_joined. run_MX. cbn.
    pose proof (createPeerConnection_offers env uid uuid sid c_member) as Hoff.
    destruct (createPeerConnection env uid uuid sid true c_member) as [[r c'] t].
    cbn [snd] in *.
    destruct r; cbn; do 2 right; apply list_elem_of_fmap;
      (eexists; split; [done|]); apply Hoff; try done;
      apply not_true_iff_false; by rewrite has_keys.
  - cbn [listen].
    destruct (on_room_joined_inv false env others c_new)
      as (c' & steps & Hrun & _ & _ & Hkeys); [done|].
    pose proof (room_joined_loop_offers env others c_new (Hub.socketId member) Hok)
      as Hoff.
    unfold on_room_joined, mbind, MX_bind, bindX, step in Hrun |- *.
    destruct (forEachX others (connect_to_user env) c_new) as [[r c1] t].
    cbn [fst snd] in *. injection Hrun as -> -> <-.
    right. apply Hoff; [|done|done].
    apply Hkeys. right. by exists member.
Qed.

(** *** The properties on the call of [alice] *)

Lemma standard_engine_keeps_senders : keeps_senders standard_engine.
Proof.
  split_and!; intros pc d pc'; cbn.
  - destruct (sdp_type d), (signalingState pc); intros [= <-]; reflexivity.
  - destruct (sdp_type d), (signalingState pc); intros [= <-]; reflexivity.
  - destruct (remoteDescription pc); intros [= <-]; reflexivity.
Qed.

Lemma no_sessions_ok : sessions_ok (@JsMap.empty RemotePeer).
Proof. split; constructor. Qed.

Lemma sessions_stay_keyed_witness :
  sessions_ok (remotePeers alone) ∧
  sessions_ok
    (remotePeers
       (run (H := standard_engine) (H0 := standard_answers)
          no_env error_toString a_call alone).1) ∧
  JsMap.keys
    (remotePeers
       (run (H := standard_engine) (H0 := standard_answers)
          no_env error_toString a_call alone).1) = ["b"; "c"].
Proof.
  split; [exact no_sessions_ok|].
  split; [|reflexivity].
  apply (sessions_stay_keyed (E := standard_engine) (AE := standard_answers)
           no_env error_toString a_call alone no_sessions_ok).
Defined.

Lemma toggle_twice_restores_call_witness :
  sessions_ok (remotePeers alone) ∧ senders_follow_stream alone ∧
  local_track video
    (run (H := standard_engine) (H0 := standard_answers)
       no_env error_toString a_call alone).1 = Some 2 ∧
  ∃ c1,
    toggleCamera
      (run (H := standard_engine) (H0 := standard_answers)
         no_env error_toString a_call alone).1 = (Normal true, c1, []) ∧
    toggleCamera c1 =
      (Normal false,
       (run (H := standard_engine) (H0 := standard_answers)
          no_env error_toString a_call alone).1, []).
Proof.
  assert (Hfollow : senders_follow_stream alone) by constructor.
  split; [exact no_sessions_ok|]. split; [exact Hfollow|].
  split; [reflexivity|].
  apply (toggle_twice_restores_call (E := standard_engine)
           (AE := standard_answers) no_env error_toString a_call alone
           video 2 standard_engine_keeps_senders no_sessions_ok Hfollow).
  reflexivity.
Defined.

(** A second tab of [alice] joins: it makes a session for [bob] and none
    for the first tab of [alice]. *)
Lemma room_joined_connects_other_users_witness :
  sessions_ok (remotePeers alone) ∧
  ∃ c' steps,
    on_room_joined (H := standard_engine) no_env bob_and_alice alone
      = (Normal tt, c', steps) ∧
    "b" ∈ JsMap.keys (remotePeers c') ∧ "a" ∉ JsMap.keys (remotePeers c').
Proof.
  split; [exact no_sessions_ok|].
  destruct (room_joined_connects_other_users (H := standard_engine)
              (H0 := standard_answers) no_env error_toString bob_and_alice
              alone no_sessions_ok)
    as (c' & steps & Hrun & _ & _ & Hkeys & _).
  exists c', steps. split; [exact Hrun|]. split.
  - apply Hkeys. right. eexists. split; [left|]. split; [reflexivity|].
    discriminate.
  - intros Hin. apply Hkeys in Hin as [Hin|(u & Hu & Hsid & Hown)].
    + inversion Hin.
    + unfold bob_and_alice in Hu. rewrite !elem_of_cons, elem_of_nil in Hu.
      destruct Hu as [->|[->|[]]]; [discriminate Hsid|by apply Hown].
Defined.

(** [dave] joins the call of [alice], [bob] and [carol] and leaves
    it. *)
Lemma user_joined_then_left_round_trip_witness :
  JsMap.get "d" (remotePeers in_call) = None ∧
  Forall (λ e : string * RemotePeer, userId e.2 ≠ "dave")
    (remotePeers in_call) ∧
  ∃ c1 steps1 steps2,
    on_user_joined (H := standard_engine) no_env "dave" "pd" "d" in_call
      = (Normal tt, c1, steps1) ∧
    JsMap.keys (remotePeers c1) = ["b"; "c"; "d"] ∧
    lift (on_user_left "dave" "d") c1 = (Normal tt, in_call, steps2).
Proof.
  assert (Huser : Forall (λ e : string * RemotePeer, userId e.2 ≠ "dave")
                    (remotePeers in_call))
    by (repeat constructor; discriminate).
  split; [reflexivity|]. split; [exact Huser|].
  destruct (user_joined_then_left_round_trip (H := standard_engine) no_env
              "dave" "pd" "d" "d" in_call eq_refl Huser)
    as (c1 & steps1 & steps2 & Hjoin & Hkeys & Hleave & _).
  exists c1, steps1, steps2. split; [exact Hjoin|]. split; [exact Hkeys|].
  exact Hleave.
Defined.

Lemma client_disconnect_notifies_room_once_witness :
  socket in_call = true ∧ JsMap.wf (Hub.roomMembers Hub.three_in_R1) ∧
  filter (λ d, Hub.is_user_left_to "R1" d = true)
    (Hub.run ((λ ev, ("a", ev)) <$> flat_map to_hub (disconnect in_call).2)
       Hub.three_in_R1).2 =
    [Hub.Broadcast "R1" "a"
       (Hub.recipients (Hub.adapter_leave "a" "R1" (Hub.rooms Hub.three_in_R1))
          "R1" "a")
       (Hub.ev_user_left "alice" "a")].
Proof.
  assert (Hwf : JsMap.wf (Hub.roomMembers Hub.three_in_R1)).
  { apply (bool_decide_unpack _). vm_compute. exact I. }
  split; [reflexivity|]. split; [exact Hwf|].
  apply (client_disconnect_notifies_room_once "a" in_call Hub.three_in_R1
           eq_refl Hwf).
Defined.

(** [alice] is in [R1] and the [join-room] of [bob] resumes: both
    clients call [createOffer]. *)
Lemma join_makes_both_sides_offer_witness :
  ∃ to_members joined welcome,
    Hub.on_join_room_resumes "b" "R1" "bob" "pb" true
      (Hub.run
         (Hub.joins "a" "R1" "alice" "pa" ++
          [("b", Hub.connection); ("b", Hub.join_room "R1" "bob" "pb")])
         Hub.init).1 =
      ((Hub.run
          (Hub.joins "a" "R1" "alice" "pa" ++
           [("b", Hub.connection); ("b", Hub.join_room "R1" "bob" "pb")])
          Hub.init).1,
       [Hub.Broadcast "R1" "b" to_members joined; Hub.Emit "b" welcome]) ∧
    "a" ∈ to_members ∧
    Base (Engine "b" call_createOffer)
      ∈ (listen (H := standard_engine) (H0 := standard_answers)
           no_env error_toString joined alone).2 ∧
    Base (Engine "a" call_createOffer)
      ∈ (listen (H := standard_engine) (H0 := standard_answers)
           no_env error_toString welcome bob_alone).2.
Proof.
  apply (join_makes_both_sides_offer (H := standard_engine)
           (H0 := standard_answers) no_env error_toString
           (Hub.joins "a" "R1" "alice" "pa" ++
            [("b", Hub.connection); ("b", Hub.join_room "R1" "bob" "pb")])
           "b" "R1" "bob" "pb"
           {| Hub.userId := "alice"; Hub.socketId := "a"; Hub.peerId := "pa" |}
           alone bob_alone).
  - reflexivity.
  - discriminate.
  - apply not_elem_of_nil.
  - apply not_elem_of_empty.
  - exact no_sessions_ok.
  - discriminate.
  - apply not_elem_of_nil.
  - apply not_elem_of_empty.
Defined.

End ClientMoreSpec.
